(** * Chat-controlled VM bot: admission control, vote arbitration, queueing

    A shallow embedding of the Python sources
    [core/vote_system.py], [core/rate_limiter.py], [commands/parser.py],
    [commands/executor.py], [api/youtube_chat.py] and [core/bot.py],
    followed by the properties of the specification that were checked
    against them.

    Conventions of the embedding.
    - Python [int] is [Z]; [float] readings of [time.time()] and the
      cooldown durations are exact rationals [Qc] (rounding of binary
      floating point is not modelled).
    - Python [str] is [string], a character being a code point below
      256; [str.strip], [str.split], [str.lower] and [str.isdigit] follow
      Python on that range, and code points above it are not modelled.
    - A [dict] whose iteration order is observable (the vote tables) is an
      insertion-ordered association list; the rate tables, where only
      lookups and the key set matter, are [gmap]s; the set of seen message
      ids is a [gset].
    - A function that can raise returns an [outcome]; a method that
      mutates its object returns the new object next to its result. *)

From Stdlib Require Import ZArith QArith Qcanon Lia Ascii.
From stdpp Require Import base gmap strings list fin_maps pretty sorting.

Open Scope Z_scope.

(** ** Python run-time model *)

Inductive exn : Type :=
  | KeyError
  | IndexError
  | ValueError
  | OverflowError
  | QueueFull
  | RuntimeError (msg : string).

Inductive outcome (A : Type) : Type :=
  | Returned (a : A)
  | Raised (e : exn).
Arguments Returned {A} a.
Arguments Raised {A} e.

(** [time.time()] and durations in seconds. *)
Abbreviation Time := Qc.

(** [c.lower()]: the letters A-Z and the upper-case letters of Latin-1
    (U+00C0 to U+00DE without the multiplication sign U+00D7). *)
Definition ascii_lower (c : Ascii.ascii) : Ascii.ascii :=
  let n := Ascii.N_of_ascii c in
  if ((65 <=? n) && (n <=? 90)
      || (192 <=? n) && (n <=? 222) && negb (n =? 215))%N
  then Ascii.ascii_of_N (n + 32) else c.

(** [s.lower()] *)
Fixpoint str_lower (s : string) : string :=
  match s with
  | EmptyString => EmptyString
  | String c r => String (ascii_lower c) (str_lower r)
  end.

(** [s.lstrip(ch)] for a single character [ch]. *)
Fixpoint str_lstrip (ch : Ascii.ascii) (s : string) : string :=
  match s with
  | String c r => if decide (c = ch) then str_lstrip ch r else s
  | EmptyString => EmptyString
  end.

(** [c.isdigit()]: 0-9 and the superscript digits U+00B2, U+00B3 and
    U+00B9, which [int] does not read. *)
Definition ascii_isdigit (c : Ascii.ascii) : bool :=
  let n := Ascii.N_of_ascii c in
  ((48 <=? n) && (n <=? 57) || (n =? 178) || (n =? 179) || (n =? 185))%N.

Fixpoint str_all (p : Ascii.ascii → bool) (s : string) : bool :=
  match s with
  | EmptyString => true
  | String c r => p c && str_all p r
  end.

(** [s.isdigit()]: non-empty and every character a digit. *)
Definition str_isdigit (s : string) : bool :=
  match s with
  | EmptyString => false
  | _ => str_all ascii_isdigit s
  end.

(** [sep.join(parts)] *)
Fixpoint str_join (sep : string) (parts : list string) : string :=
  match parts with
  | [] => ""
  | [p] => p
  | p :: rest => p +:+ sep +:+ str_join sep rest
  end.

(** [s[:n]] for [n >= 0]. *)
Fixpoint str_take (n : nat) (s : string) : string :=
  match n, s with
  | S k, String c r => String c (str_take k r)
  | _, _ => EmptyString
  end.

(** [s.startswith(p)] *)
Fixpoint str_startswith (p s : string) : bool :=
  match p, s with
  | EmptyString, _ => true
  | String a p', String b s' => bool_decide (a = b) && str_startswith p' s'
  | _, _ => false
  end.

(** [c.isspace()], the white space of [strip()] and [split()]: tab to
    carriage return, the separators U+001C to U+001F, the space, U+0085
    and U+00A0. *)
Definition ascii_isspace (c : Ascii.ascii) : bool :=
  let n := Ascii.N_of_ascii c in
  ((9 <=? n) && (n <=? 13) || (28 <=? n) && (n <=? 32)
   || (n =? 133) || (n =? 160))%N.

Fixpoint str_lstrip_ws (s : string) : string :=
  match s with
  | String c r => if ascii_isspace c then str_lstrip_ws r else s
  | EmptyString => EmptyString
  end.

Fixpoint str_rstrip_ws (s : string) : string :=
  match s with
  | EmptyString => EmptyString
  | String c r =>
      match str_rstrip_ws r with
      | EmptyString => if ascii_isspace c then EmptyString else String c EmptyString
      | r' => String c r'
      end
  end.

(** [s.strip()] *)
Definition str_strip (s : string) : string := str_rstrip_ws (str_lstrip_ws s).

(** Splitting at the characters satisfying [sep]; [cur] is the piece
    being read, reversed. With [keep_empty] the empty pieces are kept, as
    [s.split(ch)] does; without, they are dropped, as [s.split()] does. *)
Fixpoint str_split_go (sep : Ascii.ascii → bool) (keep_empty : bool)
    (cur : list Ascii.ascii) (s : string) : list string :=
  let piece := String.string_of_list_ascii (rev cur) in
  let emit rest :=
    if keep_empty || negb (bool_decide (cur = [])) then piece :: rest else rest in
  match s with
  | EmptyString => emit []
  | String c r =>
      if sep c then emit (str_split_go sep keep_empty [] r)
      else str_split_go sep keep_empty (c :: cur) r
  end.

(** [s.split()] *)
Definition str_split_ws (s : string) : list string :=
  str_split_go ascii_isspace false [] s.

(** [s.split(ch)] *)
Definition str_split_on (ch : Ascii.ascii) (s : string) : list string :=
  str_split_go (λ c, bool_decide (c = ch)) true [] s.

(** [s[1:]] *)
Definition str_tail (s : string) : string :=
  match s with String _ r => r | EmptyString => EmptyString end.

(** [s[:n]]: a negative [n] counts from the end. *)
Definition str_prefix (n : Z) (s : string) : string :=
  if 0 <=? n then str_take (Z.to_nat n) s
  else str_take (Z.to_nat (Z.of_nat (String.length s) + n)) s.

(** [s.capitalize()]; the first letter is raised on the ASCII range,
    which covers the words the executor capitalises. *)
Definition ascii_upper (c : Ascii.ascii) : Ascii.ascii :=
  let n := Ascii.N_of_ascii c in
  if ((97 <=? n) && (n <=? 122))%N then Ascii.ascii_of_N (n - 32) else c.

Definition str_capitalize (s : string) : string :=
  match s with
  | String c r => String (ascii_upper c) (str_lower r)
  | EmptyString => EmptyString
  end.

(** Insertion-ordered dictionaries with string keys: [d[k] = v] overwrites
    in place when [k] is present and appends otherwise, so the iteration
    order is the order of first insertion, as in Python. *)
Module Dict.
Section Ops.
Context {V : Type}.

Definition t := list (string * V).

Fixpoint get (d : t) (k : string) : option V :=
  match d with
  | [] => None
  | (k', v) :: r => if decide (k' = k) then Some v else get r k
  end.

Fixpoint set (d : t) (k : string) (v : V) : t :=
  match d with
  | [] => [(k, v)]
  | (k', v') :: r =>
      if decide (k' = k) then (k, v) :: r else (k', v') :: set r k v
  end.

Definition mem (d : t) (k : string) : bool :=
  match get d k with Some _ => true | None => false end.

Definition keys (d : t) : list string := d.*1.
Definition values (d : t) : list V := d.*2.
End Ops.
Arguments t : clear implicits.

(** [d.get(k, 0)] on integer tables. *)
Definition getD (d : t Z) (k : string) : Z := default 0 (get d k).

(** [sum(d.values())] *)
Definition sum (d : t Z) : Z := foldr Z.add 0 (values d).

(** Number of entries whose value is [c]. *)
Definition count (d : t string) (c : string) : nat :=
  length (filter (λ kv, kv.2 = c) d).
End Dict.

(** ** core/vote_system.py *)

Module VoteSession.

Record t : Type := mk {
  commands : Dict.t Z;          (* command -> vote count *)
  voters : Dict.t string;       (* user_id -> command voted *)
  started_at : Time;
  duration : Z;
  active : bool;
}.

Definition with_commands (s : t) (c : Dict.t Z) : t :=
  mk c (voters s) (started_at s) (duration s) (active s).
Definition with_voters (s : t) (v : Dict.t string) : t :=
  mk (commands s) v (started_at s) (duration s) (active s).
Definition with_active (s : t) (a : bool) : t :=
  mk (commands s) (voters s) (started_at s) (duration s) a.

(** [self.commands[k] += 1]; the read raises [KeyError] on a missing key. *)
Definition incr (d : Dict.t Z) (k : string) : outcome (Dict.t Z) :=
  match Dict.get d k with
  | Some n => Returned (Dict.set d k (n + 1))
  | None => Raised KeyError
  end.

(** [self.commands[old] = max(0, self.commands[old] - 1)] *)
Definition decr_floor (d : Dict.t Z) (old : string) : outcome (Dict.t Z) :=
  match Dict.get d old with
  | Some n => Returned (Dict.set d old (Z.max 0 (n - 1)))
  | None => Raised KeyError
  end.

(** [add_vote]: the session after the call, and what the call did
    (returned [True]/[False], or raised with the mutations made so far
    kept). *)
Definition add_vote (s : t) (user_id command : string) : t * outcome bool :=
  if negb (active s) then (s, Returned false)
  else
    let command := str_lower command in
    let s :=
      if Dict.mem (commands s) command then s
      else with_commands s (Dict.set (commands s) command 0) in
    match Dict.get (voters s) user_id with
    | Some old =>
        if decide (old = command) then (s, Returned false)
        else
          match decr_floor (commands s) old with
          | Raised e => (s, Raised e)
          | Returned c1 =>
              let s := with_commands s c1 in
              match incr (commands s) command with
              | Raised e => (s, Raised e)
              | Returned c2 =>
                  let s := with_commands s c2 in
                  (with_voters s (Dict.set (voters s) user_id command),
                   Returned true)
              end
          end
    | None =>
        match incr (commands s) command with
        | Raised e => (s, Raised e)
        | Returned c2 =>
            let s := with_commands s c2 in
            (with_voters s (Dict.set (voters s) user_id command),
             Returned true)
        end
    end.

(** [max(self.commands, key=...)]: the first key, in iteration order,
    whose count is maximal. *)
Fixpoint argmax (best : string * Z) (d : Dict.t Z) : string :=
  match d with
  | [] => best.1
  | (k, n) :: r => if best.2 <? n then argmax (k, n) r else argmax best r
  end.

Definition get_winner (s : t) : option string :=
  match commands s with
  | [] => None
  | kv :: r => Some (argmax kv r)
  end.

(** Insertion of [kv] into a list sorted by decreasing count, in front
    of the entries with the same count. *)
Fixpoint insert_desc (kv : string * Z) (l : Dict.t Z) : Dict.t Z :=
  match l with
  | [] => [kv]
  | kv' :: r => if kv'.2 <=? kv.2 then kv :: l else kv' :: insert_desc kv r
  end.

(** [dict(sorted(self.commands.items(), key=lambda x: x[1], reverse=True))]:
    the sort is stable, so equal counts stay in insertion order. *)
Definition get_vote_counts (s : t) : Dict.t Z :=
  foldr insert_desc [] (commands s).

(** [sum(self.commands.values())] *)
Definition total_votes (s : t) : Z := Dict.sum (commands s).

(** The session built by [VoteManager.start_vote]. *)
Definition create (initial_command initiator_id : string)
    (now : Time) (vote_duration : Z) : t :=
  mk [(initial_command, 1)] [(initiator_id, initial_command)]
     now vote_duration true.

(** Sessions a [VoteManager] can hold: created by [start_vote], then
    changed only by [add_vote] and by the closing step of the timer. *)
Inductive reachable : t → Prop :=
  | reach_create cmd uid now dur : reachable (create cmd uid now dur)
  | reach_add_vote s uid cmd :
      reachable s → reachable (add_vote s uid cmd).1
  | reach_close s : reachable s → reachable (with_active s false).

(** Bookkeeping invariant: each count is the number of voters currently
    holding that choice. *)
Record inv (s : t) : Prop := {
  inv_count : ∀ c, Dict.getD (commands s) c = Z.of_nat (Dict.count (voters s) c);
  inv_sum : Dict.sum (commands s) = Z.of_nat (length (voters s));
  inv_nonneg : Forall (λ kv, 0 ≤ kv.2) (commands s);
  inv_voters : NoDup (Dict.keys (voters s));
  inv_commands : NoDup (Dict.keys (commands s));
}.


End VoteSession.

Module VoteManager.

(** A registered result callback is a coroutine of the caller. What the
    manager observes of it is how often it suspends (awaits something
    not yet ready, handing control back to the event loop) before it
    ends, and whether it ends by raising; [_run_vote] logs and drops the
    exception. The callback the bot registers, [_on_vote_result], awaits
    [asyncio.sleep(1)] and then the actuator whenever there is a winner. *)
Record Callback : Type := {
  cb_suspends : nat;
  cb_raises : bool;
}.

(** Where a [_run_vote] task stands. *)
Inductive task_state : Type :=
  | Sleeping               (* in [await asyncio.sleep(session.duration)] *)
  | Dispatching (winner : option string) (counts : Dict.t Z)
      (voter_ids : list string)
      (suspends_left : nat)        (* of the callback being awaited *)
      (pending : list Callback)    (* callbacks not yet called *)
  | Finished.

Record Task : Type := {
  task_session : nat;      (* the session object the task was given *)
  task_pc : task_state;
}.

(** The manager, the session objects it has created (a session is
    shared between the manager's slot and its [_run_vote] task, so the
    slot and the tasks hold indices into [sessions]) and the tasks it
    has spawned. *)
Record t : Type := mk {
  vote_duration : Z;
  sessions : list VoteSession.t;
  _current_session : option nat;
  _on_result_callbacks : list Callback;
  tasks : list Task;
}.

Definition init (vote_duration : Z) : t := mk vote_duration [] None [] [].

(** [on_result] *)
Definition on_result (m : t) (cb : Callback) : t :=
  mk (vote_duration m) (sessions m) (_current_session m)
     (_on_result_callbacks m ++ [cb]) (tasks m).

Definition with_session (m : t) (i : nat) (s : VoteSession.t) : t :=
  mk (vote_duration m) (<[i:=s]> (sessions m)) (_current_session m)
     (_on_result_callbacks m) (tasks m).

Definition with_task (m : t) (tid : nat) (st : task_state) : t :=
  mk (vote_duration m) (sessions m) (_current_session m)
     (_on_result_callbacks m)
     (alter (λ tk, {| task_session := task_session tk; task_pc := st |})
            tid (tasks m)).

(** [self._current_session and self._current_session.active] *)
Definition active_session (m : t) : option (nat * VoteSession.t) :=
  match _current_session m with
  | Some i =>
      match sessions m !! i with
      | Some s => if VoteSession.active s then Some (i, s) else None
      | None => None
      end
  | None => None
  end.

(** [start_vote]: the body runs under the slot lock without awaiting.
    Returns the index of the new session, or [None] when the vote was
    folded into the open session. *)
Definition start_vote (m : t) (initial_command initiator_id : string)
    (now : Time) : t * outcome (option nat) :=
  match active_session m with
  | Some (i, s) =>
      let '(s', r) := VoteSession.add_vote s initiator_id initial_command in
      (with_session m i s',
       match r with Returned _ => Returned None | Raised e => Raised e end)
  | None =>
      let session :=
        VoteSession.create initial_command initiator_id now (vote_duration m) in
      let i := length (sessions m) in
      (mk (vote_duration m) (sessions m ++ [session]) (Some i)
          (_on_result_callbacks m)
          (tasks m ++ [{| task_session := i; task_pc := Sleeping |}]),
       Returned (Some i))
  end.

(** [cast_vote] *)
Definition cast_vote (m : t) (user_id command : string) : t * outcome bool :=
  match active_session m with
  | Some (i, s) =>
      let '(s', r) := VoteSession.add_vote s user_id command in
      (with_session m i s', r)
  | None => (m, Returned false)
  end.

(** The [for cb in self._on_result_callbacks] loop from the callback
    [cbs] starts with, up to the first callback that suspends. *)
Fixpoint run_callbacks (winner : option string) (counts : Dict.t Z)
    (voter_ids : list string) (cbs : list Callback) : task_state :=
  match cbs with
  | [] => Finished
  | cb :: rest =>
      match cb_suspends cb with
      | O => run_callbacks winner counts voter_ids rest
      | S k => Dispatching winner counts voter_ids (S k) rest
      end
  end.

(** [[uid for uid, cmd in session.voters.items() if cmd == winner]] *)
Definition winning_voters (s : VoteSession.t) (winner : option string) : list string :=
  (filter (λ kv, Some kv.2 = winner) (VoteSession.voters s)).*1.

(** [_run_vote] from the end of its sleep to its next suspension: close
    the session under the lock, then start dispatching. *)
Definition timer_fires (m : t) (tid : nat) : option t :=
  match tasks m !! tid with
  | Some {| task_session := i; task_pc := Sleeping |} =>
      match sessions m !! i with
      | Some s =>
          let s := VoteSession.with_active s false in
          let winner := VoteSession.get_winner s in
          let counts := VoteSession.get_vote_counts s in
          let voter_ids := winning_voters s winner in
          Some (with_task (with_session m i s) tid
                  (run_callbacks winner counts voter_ids (_on_result_callbacks m)))
      | None => None
      end
  | _ => None
  end.

(** The callback a task is awaiting is resumed by the event loop. *)
Definition resume (m : t) (tid : nat) : option t :=
  match tasks m !! tid with
  | Some {| task_pc := Dispatching w c v (S k) pending |} =>
      Some (with_task m tid
              match k with
              | O => run_callbacks w c v pending
              | S _ => Dispatching w c v k pending
              end)
  | _ => None
  end.

(** What the event loop can run next. *)
Inductive event : Type :=
  | EvStartVote (command user_id : string) (now : Time)
  | EvCastVote (user_id command : string)
  | EvTimer (tid : nat)
  | EvResume (tid : nat).

Definition step (m : t) (e : event) : option t :=
  match e with
  | EvStartVote c u now => Some (start_vote m c u now).1
  | EvCastVote u c => Some (cast_vote m u c).1
  | EvTimer tid => timer_fires m tid
  | EvResume tid => resume m tid
  end.

Fixpoint run (m : t) (es : list event) : option t :=
  match es with
  | [] => Some m
  | e :: es => match step m e with Some m' => run m' es | None => None end
  end.

(** States of a manager constructed with [vote_duration] and given its
    callbacks before the loops start. *)
Inductive reachable : t → Prop :=
  | reach_init dur : reachable (init dur)
  | reach_on_result m cb :
      reachable m → tasks m = [] → reachable (on_result m cb)
  | reach_step m e m' : reachable m → step m e = Some m' → reachable m'.

(** A task whose timer has fired and whose dispatch is not over. *)
Definition dispatch_pending (tk : Task) : Prop :=
  match task_pc tk with Dispatching _ _ _ _ _ => True | _ => False end.

(** The reading of "the slot becomes available only after dispatch":
    whenever [start_vote] opens a new session, no task is still
    dispatching results. *)
Definition slot_waits_for_dispatch (m : t) : Prop :=
  ∀ cmd uid now i,
    (start_vote m cmd uid now).2 = Returned (Some i) →
    ∀ tk, tk ∈ tasks m → ¬ dispatch_pending tk.

(** Every sleeping task belongs to the session in the slot, that session
    is open, and no two tasks sleep at once. *)
Definition slot_inv (m : t) : Prop :=
  (∀ tid tk, tasks m !! tid = Some tk → task_pc tk = Sleeping →
     _current_session m = Some (task_session tk)
     ∧ ∃ s, sessions m !! task_session tk = Some s
            ∧ VoteSession.active s = true)
  ∧ (∀ t1 t2 k1 k2, tasks m !! t1 = Some k1 → tasks m !! t2 = Some k2 →
       task_pc k1 = Sleeping → task_pc k2 = Sleeping → t1 = t2).

End VoteManager.

(** ** core/rate_limiter.py *)

Module RateLimiter.

(** The second component of [check]'s result. The source renders it as
    text ("Server busy, wait 0.5s"); the embedding keeps the scope that
    denied and the remaining wait the text is formatted from. *)
Inductive reason : Type :=
  | NoReason                                   (* "" *)
  | ServerBusy (wait : Time)                   (* global scope *)
  | Cooldown (wait : Time)                     (* per-user scope *)
  | CommandCooldown (command : string) (wait : Time).

Record t : Type := mk {
  user_cooldown : Time;
  global_cooldown : Time;
  _user_last : gmap string Time;          (* a defaultdict(float) *)
  _global_last : Time;
  _command_cooldowns : gmap string Time;  (* command -> last execution time *)
  _command_intervals : gmap string Time;  (* command -> min interval *)
}.

Definition init (user_cooldown global_cooldown : Time) : t :=
  mk user_cooldown global_cooldown ∅ 0%Qc ∅ ∅.

Definition set_command_cooldown (r : t) (command : string) (interval : Time) : t :=
  mk (user_cooldown r) (global_cooldown r) (_user_last r) (_global_last r)
     (_command_cooldowns r) (<[command := interval]> (_command_intervals r)).

Definition with_user_last (r : t) (ul : gmap string Time) : t :=
  mk (user_cooldown r) (global_cooldown r) ul (_global_last r)
     (_command_cooldowns r) (_command_intervals r).

(** [d[k]] on a [defaultdict(float)]: a missing key is inserted with
    the default [0.0] before it is read. *)
Definition defaultdict_getitem (d : gmap string Time) (k : string)
    : Time * gmap string Time :=
  match d !! k with
  | Some v => (v, d)
  | None => (0%Qc, <[k := 0%Qc]> d)
  end.

(** [check], with [now] the reading of [time.time()]: the limiter after
    the call and the pair returned. *)
Definition check (r : t) (now : Time) (user_id command : string)
    : t * (bool * reason) :=
  let elapsed_global := (now - _global_last r)%Qc in
  if Qclt_le_dec elapsed_global (global_cooldown r) then
    (r, (false, ServerBusy (global_cooldown r - elapsed_global)%Qc))
  else
    let '(last, ul) := defaultdict_getitem (_user_last r) user_id in
    let r := with_user_last r ul in
    let elapsed_user := (now - last)%Qc in
    if Qclt_le_dec elapsed_user (user_cooldown r) then
      (r, (false, Cooldown (user_cooldown r - elapsed_user)%Qc))
    else
      match (if decide (command = "") then None
             else _command_intervals r !! command) with
      | Some interval =>
          let elapsed_cmd :=
            (now - default 0%Qc (_command_cooldowns r !! command))%Qc in
          if Qclt_le_dec elapsed_cmd interval then
            (r, (false, CommandCooldown command (interval - elapsed_cmd)%Qc))
          else (r, (true, NoReason))
      | None => (r, (true, NoReason))
      end.

(** [record] *)
Definition record (r : t) (now : Time) (user_id command : string) : t :=
  mk (user_cooldown r) (global_cooldown r)
     (<[user_id := now]> (_user_last r)) now
     (if decide (command = "") then _command_cooldowns r
      else <[command := now]> (_command_cooldowns r))
     (_command_intervals r).

(** [get_user_wait], which like [check] reads through the defaultdict. *)
Definition get_user_wait (r : t) (now : Time) (user_id : string) : t * Time :=
  let '(last, ul) := defaultdict_getitem (_user_last r) user_id in
  let w := (user_cooldown r - (now - last))%Qc in
  (with_user_last r ul, if Qclt_le_dec w 0%Qc then 0%Qc else w).

(** The remaining wait a denial reports. *)
Definition denied_wait (res : bool * reason) : option Time :=
  match res with
  | (false, ServerBusy w) | (false, Cooldown w)
  | (false, CommandCooldown _ w) => Some w
  | _ => None
  end.

(** "Approximately": within the one decimal the message shows. *)
Definition approx (x y : Time) : Prop :=
  (y - Q2Qc (1 # 10) ≤ x)%Qc ∧ (x ≤ y + Q2Qc (1 # 10))%Qc.

(** The reading of the spec's cooldown property: after two [record]
    calls [delta] apart, a [check] at the time of the second is denied
    with a wait of about [global_cooldown - delta]. *)
Definition wait_is_cooldown_minus_gap (r : t) (t1 delta : Time)
    (user_id command : string) : Prop :=
  (0 ≤ delta)%Qc → (delta < global_cooldown r)%Qc →
  let t2 := (t1 + delta)%Qc in
  let r2 := record (record r t1 user_id command) t2 user_id command in
  ∃ w, denied_wait (check r2 t2 user_id command).2 = Some w
       ∧ approx w (global_cooldown r - delta)%Qc.

End RateLimiter.

Module ExecutionQueue.
Section Queue.
Context {A : Type}.

(** The wrapped [asyncio.Queue] ([maxsize] and the items waiting) and
    the drop counter. *)
Record t : Type := mk {
  maxsize : Z;
  _queue : list A;
  dropped : Z;
}.

Definition init (max_size : Z) : t := mk max_size [] 0.

(** [asyncio.Queue.full]: a queue with [maxsize <= 0] is never full. *)
Definition full (q : t) : bool :=
  if maxsize q <=? 0 then false
  else maxsize q <=? Z.of_nat (length (_queue q)).

(** [asyncio.Queue.put_nowait] *)
Definition put_nowait (q : t) (item : A) : outcome t :=
  if full q then Raised QueueFull
  else Returned (mk (maxsize q) (_queue q ++ [item]) (dropped q)).

(** [put] *)
Definition put (q : t) (item : A) : t * bool :=
  match put_nowait q item with
  | Returned q' => (q', true)
  | Raised _ => (mk (maxsize q) (_queue q) (dropped q + 1), false)
  end.

(** [get]: the oldest item; [None] when the caller would wait. *)
Definition get (q : t) : option (A * t) :=
  match _queue q with
  | [] => None
  | x :: rest => Some (x, mk (maxsize q) rest (dropped q))
  end.

Definition size (q : t) : Z := Z.of_nat (length (_queue q)).

(** [put] for each item in turn, collecting the results. *)
Fixpoint put_all (q : t) (items : list A) : t * list bool :=
  match items with
  | [] => (q, [])
  | x :: rest =>
      let '(q1, b) := put q x in
      let '(q2, bs) := put_all q1 rest in
      (q2, b :: bs)
  end.

(** [n] successive [get]s. *)
Fixpoint get_n (q : t) (n : nat) : option (list A * t) :=
  match n with
  | O => Some ([], q)
  | S k =>
      match get q with
      | Some (x, q1) =>
          match get_n q1 k with
          | Some (xs, q2) => Some (x :: xs, q2)
          | None => None
          end
      | None => None
      end
  end.
End Queue.
Arguments t : clear implicits.
End ExecutionQueue.

(** Producers and the consumer interleaved on one queue: what a sequence
    of [put] and [get] calls accepts, refuses and hands out. A [get] on an
    empty queue waits and takes nothing. *)
Module QueueRun.
Inductive op (A : Type) : Type :=
  | Put (item : A)
  | Get.
Arguments Put {A} item.
Arguments Get {A}.

Record trace (A : Type) : Type := mkTrace {
  accepted : list A;     (* items whose [put] returned [True] *)
  refused : list A;      (* items whose [put] returned [False] *)
  taken : list A;        (* items returned by [get] *)
}.
Arguments mkTrace {A}.
Arguments accepted {A}.
Arguments refused {A}.
Arguments taken {A}.

Fixpoint run {A} (q : ExecutionQueue.t A) (ops : list (op A))
    : ExecutionQueue.t A * trace A :=
  match ops with
  | [] => (q, mkTrace [] [] [])
  | Put x :: rest =>
      let '(q1, ok) := ExecutionQueue.put q x in
      let '(q2, tr) := run q1 rest in
      (q2, if ok : bool
           then mkTrace (x :: accepted tr) (refused tr) (taken tr)
           else mkTrace (accepted tr) (x :: refused tr) (taken tr))
  | Get :: rest =>
      match ExecutionQueue.get q with
      | Some (x, q1) =>
          let '(q2, tr) := run q1 rest in
          (q2, mkTrace (accepted tr) (refused tr) (x :: taken tr))
      | None => run q rest
      end
  end.
End QueueRun.

(** ** api/youtube_chat.py *)

Module YouTubeChatClient.

Record ChatMessage : Type := mkMessage {
  message_id : string;
  author_id : string;
  author_name : string;
  author_display : string;
  text : string;
  timestamp : Time;
  is_moderator : bool;
  is_owner : bool;
  is_member : bool;
}.

(** [l[-n:]] for [n > 0]: the last [n] elements, all of [l] when it is
    shorter. *)
Definition last_n {A} (n : Z) (l : list A) : list A :=
  drop (Z.to_nat (Z.of_nat (length l) - n)) l.

Section Stream.
(** [list(seen_ids)]: the elements of a Python set in its iteration
    order, which the language leaves unspecified. *)
Variable set_iter : gset string → list string.

(** The [for msg in messages] loop of [message_stream] over one polled
    batch: the set of seen ids afterwards and the messages yielded. *)
Fixpoint yield_new (seen_ids : gset string) (messages : list ChatMessage)
    : gset string * list ChatMessage :=
  match messages with
  | [] => (seen_ids, [])
  | msg :: rest =>
      if decide (message_id msg ∈ seen_ids) then yield_new seen_ids rest
      else
        let '(seen', out) := yield_new ({[message_id msg]} ∪ seen_ids) rest in
        (seen', msg :: out)
  end.

(** Keep [seen_ids] from growing unbounded. *)
Definition trim (seen_ids : gset string) : gset string :=
  if 10000 <? Z.of_nat (size seen_ids)
  then list_to_set (last_n 5000 (set_iter seen_ids))
  else seen_ids.

(** One turn of the [while True] loop, given what [poll_messages]
    returned. *)
Definition poll_round (seen_ids : gset string) (messages : list ChatMessage)
    : gset string * list ChatMessage :=
  let '(seen', out) := yield_new seen_ids messages in (trim seen', out).

(** The messages the generator yields over successive polls. *)
Fixpoint message_stream_from (seen_ids : gset string)
    (polls : list (list ChatMessage)) : list ChatMessage :=
  match polls with
  | [] => []
  | messages :: later =>
      let '(seen', out) := poll_round seen_ids messages in
      out ++ message_stream_from seen' later
  end.

Definition message_stream (polls : list (list ChatMessage)) : list ChatMessage :=
  message_stream_from ∅ polls.


End Stream.

Definition ids (l : list ChatMessage) : list string := message_id <$> l.


End YouTubeChatClient.

(** ** commands/parser.py *)

Module CommandTier.
Inductive t : Type :=
  | CLASSIC    (* Instant execution *)
  | MAJOR      (* Requires voting *)
  | ADMIN.     (* Admin/mod only *)
#[global] Instance eq_dec : EqDecision t.
Proof. solve_decision. Defined.
End CommandTier.

Module Permission.
Inductive t : Type := VIEWER | MEMBER | MOD | ADMIN.
#[global] Instance eq_dec : EqDecision t.
Proof. solve_decision. Defined.

Definition value (p : t) : Z :=
  match p with VIEWER => 0 | MEMBER => 1 | MOD => 2 | ADMIN => 3 end.
End Permission.

Module Parser.

Record ParsedCommand : Type := mkParsed {
  name : string;
  args : list string;
  raw : string;
  tier : CommandTier.t;
  required_permission : Permission.t;
}.

Record CommandDef : Type := mkDef {
  def_name : string;
  def_tier : CommandTier.t;
  min_args : Z;
  max_args : Z;
  description : string;
  def_required_permission : Permission.t;
  aliases : list string;
}.

(** [CommandDef(name, tier, min, max, description)] with the default
    permission and no aliases. *)
Definition def (n : string) (t : CommandTier.t) (lo hi : Z) (d : string) : CommandDef :=
  mkDef n t lo hi d Permission.VIEWER [].

Definition def_perm (n : string) (t : CommandTier.t) (lo hi : Z) (d : string)
    (p : Permission.t) : CommandDef :=
  mkDef n t lo hi d p [].

Definition COMMAND_DEFS : list CommandDef := [
  (* VM Control *)
  def_perm "startvm" CommandTier.ADMIN 0 0 "Start the VM" Permission.ADMIN;
  def "fullscreen" CommandTier.CLASSIC 0 0 "Toggle fullscreen";
  (* Mouse *)
  def "move" CommandTier.CLASSIC 1 3 "!move dx dy | !move left/right/up/down [steps]";
  def "abs" CommandTier.CLASSIC 2 2 "!abs x y - Move mouse to absolute position";
  def "drag" CommandTier.CLASSIC 2 3 "!drag dx dy [button]";
  def "click" CommandTier.CLASSIC 0 1 "!click [button] - left/right/middle";
  def "rclick" CommandTier.CLASSIC 0 0 "Right click";
  def "scroll" CommandTier.CLASSIC 1 1 "!scroll delta";
  (* Keyboard *)
  def "type" CommandTier.CLASSIC 1 99 "!type text";
  def "send" CommandTier.CLASSIC 1 99 "!send text (type + Enter)";
  def "key" CommandTier.CLASSIC 1 2 "!key keyname [duration]";
  def "combo" CommandTier.CLASSIC 1 1 "!combo ctrl+c";
  def "keydown" CommandTier.CLASSIC 1 1 "!keydown key";
  def "keyup" CommandTier.CLASSIC 1 1 "!keyup key";
  def "enter" CommandTier.CLASSIC 0 0 "Press Enter";
  (* Utility *)
  def "wait" CommandTier.CLASSIC 1 1 "!wait seconds (max 10)";
  def "stats" CommandTier.CLASSIC 0 0 "Your stats";
  def "leaderboard" CommandTier.CLASSIC 0 0 "Top players";
  def "uptime" CommandTier.CLASSIC 0 0 "Stream uptime";
  def "help" CommandTier.CLASSIC 0 1 "List commands";
  def "vote" CommandTier.CLASSIC 1 1 "!vote command - cast vote";
  (* Major (voting required) *)
  def "shutdown" CommandTier.MAJOR 0 0 "Graceful ACPI shutdown (vote)";
  def "forceshutdown" CommandTier.MAJOR 0 0 "Hard power off + restart (vote)";
  (* Admin *)
  def_perm "reset" CommandTier.ADMIN 0 0 "Restart VM" Permission.ADMIN;
  def_perm "revert" CommandTier.ADMIN 0 0 "Restore snapshot" Permission.ADMIN;
  def_perm "screenshot" CommandTier.ADMIN 0 0 "Take screenshot" Permission.MOD;
  def_perm "ban" CommandTier.ADMIN 1 1 "Ban user from commands" Permission.MOD;
  def_perm "unban" CommandTier.ADMIN 1 1 "Unban user" Permission.MOD
].

(** The lookup table built at import: each definition under its name
    and under each alias, later entries overwriting earlier ones. *)
Definition _CMD_MAP : gmap string CommandDef :=
  foldl (λ m cmd,
           foldl (λ m alias, <[alias := cmd]> m)
                 (<[def_name cmd := cmd]> m) (aliases cmd))
        ∅ COMMAND_DEFS.
Arguments _CMD_MAP : simpl never.

Section Parse.
(** [shlex.split] of the standard library; it raises [ValueError] on
    malformed quoting. *)
Variable shlex_split : string → outcome (list string).

(** [parse_command]; [None] when the message is not a valid command. *)
Definition parse_command (text : string) : outcome (option ParsedCommand) :=
  let text := str_strip text in
  if negb (str_startswith "!" text) then Returned None
  else
    let parts :=
      match shlex_split (str_tail text) with
      | Returned parts => Returned parts
      | Raised ValueError => Returned (str_split_ws (str_tail text))
      | Raised e => Raised e
      end in
    match parts with
    | Raised e => Raised e
    | Returned [] => Returned None
    | Returned (first :: rest) =>
        let name := str_lower first in
        match _CMD_MAP !! name with
        | None => Returned None
        | Some cmd_def =>
            let args :=
              if (bool_decide (name = "type") || bool_decide (name = "send"))
                 && negb (bool_decide (rest = []))
              then [str_join " " rest] else rest in
            if Z.of_nat (length args) <? min_args cmd_def then Returned None
            else Returned (Some (mkParsed name args text (def_tier cmd_def)
                                   (def_required_permission cmd_def)))
        end
    end.
End Parse.

End Parser.

(** ** utils/config.py: the settings the modelled code reads *)

Module Config.
Record t : Type := mk {
  snapshot_name : string;
  vote_duration : Z;
  command_cooldown : Time;
  user_cooldown : Time;
  max_wait_seconds : Z;
  queue_max_size : Z;
  type_max_length : Z;
  mouse_max_delta : Z;
  mouse_abs_x_max : Z;
  mouse_abs_y_max : Z;
  points_per_command : Z;
  points_per_vote_win : Z;
  admin_user_ids : list string;
  mod_user_ids : list string;
}.

(** The defaults of the dataclass. *)
Definition default : t :=
  mk "SafeBase" 20 (Q2Qc (1 # 2)) (Q2Qc 3) 10 50 100 300 1920 1080 1 5 [] [].
End Config.

(** ** commands/executor.py *)

Module CommandResult.
Record t : Type := mk {
  success : bool;
  message : string;
  public : bool;   (* Whether to announce in chat *)
}.
Definition ok (msg : string) (public : bool) : t := mk true msg public.
Definition fail (msg : string) : t := mk false msg true.
End CommandResult.

(** Python floats as far as the handlers look at them. *)
Inductive PyFloat : Type :=
  | Finite (q : Qc)
  | PosInf
  | NegInf
  | NaN.

Definition float_lt (a b : PyFloat) : bool :=
  match a, b with
  | NaN, _ | _, NaN => false
  | _, NegInf | PosInf, _ => false
  | NegInf, _ | _, PosInf => true
  | Finite x, Finite y => if Qclt_le_dec x y then true else false
  end.

(** [min(a, b)] and [max(a, b)]: the first argument unless the second
    is strictly smaller, respectively larger. *)
Definition float_min (a b : PyFloat) : PyFloat := if float_lt b a then b else a.
Definition float_max (a b : PyFloat) : PyFloat := if float_lt a b then b else a.

(** [int(x)]: truncation toward zero. *)
Definition int_of_float (x : PyFloat) : outcome Z :=
  match x with
  | Finite q => Returned (Z.quot (Qnum (this q)) (Zpos (Qden (this q))))
  | PosInf | NegInf => Raised OverflowError
  | NaN => Raised ValueError
  end.

Definition float_of_int (n : Z) : PyFloat := Finite (Q2Qc (inject_Z n)).

(** The methods of [VMController] the executor and the bot call. *)
Inductive VMCall : Type :=
  | IsRunning
  | StartVM (headless : bool)
  | ShutdownVM (force : bool)
  | ResetVM
  | RestoreSnapshot (snapshot : string)
  | Screenshot
  | ToggleFullscreen
  | MouseMove (dx dy : Z)
  | MouseAbs (x y : Z)
  | MouseDrag (dx dy : Z) (button : string)
  | MouseClickV2 (button : string)
  | MouseScroll (delta : Z)
  | TypeText (text : string)
  | SendText (text : string)
  | KeyPress (key : string) (duration : PyFloat)
  | KeyCombo (combo : string)
  | KeyDown (key : string)
  | KeyUp (key : string).

(** What a call gives back: a flag, or for [screenshot] a path or
    [None]. *)
Inductive VMReply : Type :=
  | RBool (b : bool)
  | RPath (p : option string).

Definition truthy (r : VMReply) : bool :=
  match r with
  | RBool b => b
  | RPath (Some p) => negb (bool_decide (p = ""))
  | RPath None => false
  end.

(** What the handlers take from outside the repository: the actuator
    (any state, any reply or exception to any call) and the conversions
    of the Python run time. *)
Record Runtime (S : Type) : Type := {
  vm_step : VMCall → S → outcome VMReply * S;
  py_float : string → outcome PyFloat;    (* float(s) *)
  py_int : string → outcome Z;            (* int(s) *)
  str_of_float : PyFloat → string;        (* str(x) *)
}.
Arguments vm_step {S}.
Arguments py_float {S}.
Arguments py_int {S}.
Arguments str_of_float {S}.

(** The state the handlers run in: the actuator, the calls issued to it
    so far (oldest first) and the [asyncio.sleep] durations awaited. *)
Record World (S : Type) : Type := mkWorld {
  vm_state : S;
  calls : list VMCall;
  sleeps : list PyFloat;
}.
Arguments mkWorld {S}.
Arguments vm_state {S}.
Arguments calls {S}.
Arguments sleeps {S}.

(** Computations that read and change a state and return or raise. *)
Definition M (St A : Type) : Type := St → outcome A * St.

Definition ret {St A} (a : A) : M St A := λ w, (Returned a, w).
Definition raise {St A} (e : exn) : M St A := λ w, (Raised e, w).
Definition bind {St A B} (m : M St A) (k : A → M St B) : M St B :=
  λ w, match m w with
       | (Returned a, w') => k a w'
       | (Raised e, w') => (Raised e, w')
       end.
Definition lift {St A} (o : outcome A) : M St A := λ w, (o, w).

(** [try: body except <classes>: handler] *)
Definition try_except {St A} (body : M St A) (catches : exn → bool)
    (handler : exn → M St A) : M St A :=
  λ w, match body w with
       | (Raised e, w') => if catches e then handler e w' else (Raised e, w')
       | r => r
       end.

(** Every exception modelled is an instance of [Exception]. Cancellation
    of a task, which raises a [BaseException], is not modelled. *)
Definition is_Exception (e : exn) : bool := true.
Definition is_ValueError (e : exn) : bool :=
  match e with ValueError => true | _ => false end.
Definition is_ValueError_or_IndexError (e : exn) : bool :=
  match e with ValueError | IndexError => true | _ => false end.

Declare Scope exec_scope.
Delimit Scope exec_scope with exec.
Notation "x <- m ;; k" := (bind m (λ x, k))
  (at level 100, m at next level, right associativity) : exec_scope.
Notation "m ;;; k" := (bind m (λ _, k))
  (at level 100, right associativity) : exec_scope.

Module CommandExecutor.
Import Parser.
Open Scope exec_scope.

Definition DIRECTION_MAP (direction : string) : option (Z * Z) :=
  if decide (direction = "left") then Some (-100, 0)
  else if decide (direction = "right") then Some (100, 0)
  else if decide (direction = "up") then Some (0, -100)
  else if decide (direction = "down") then Some (0, 100)
  else None.

(** [button if button in ("left", "right", "middle") else "left"] *)
Definition known_button (button : string) : string :=
  if bool_decide (button = "left") || bool_decide (button = "right")
     || bool_decide (button = "middle")
  then button else "left".

(** [f"{text[:30]}{'...' if len(text) > 30 else ''}"] *)
Definition preview (text : string) : string :=
  str_take 30 text +:+ (if (30 <? String.length text)%nat then "..." else "").

Section Handlers.
Context {S : Type}.
Variable rt : Runtime S.
Variable config : Config.t.

(** [await self.vm.<method>(...)] *)
Definition vm_call (c : VMCall) : M (World S) VMReply :=
  λ w, let '(r, s) := vm_step rt c (vm_state w) in
       (r, mkWorld s (calls w ++ [c]) (sleeps w)).

(** [await asyncio.sleep(secs)] *)
Definition sleep (secs : PyFloat) : M (World S) unit :=
  λ w, (Returned tt, mkWorld (vm_state w) (calls w) (sleeps w ++ [secs])).

(** [args[i]] *)
Definition getitem (args : list string) (i : nat) : M (World S) string :=
  match args !! i with
  | Some a => ret a
  | None => raise IndexError
  end.

(** [int(float(s))] *)
Definition int_float (s : string) : M (World S) Z :=
  x <- lift (py_float rt s) ;; lift (int_of_float x).

(** [max(lo, min(x, hi))] on integers. *)
Definition clamp (lo hi x : Z) : Z := Z.max lo (Z.min x hi).

Definition _startvm : M (World S) CommandResult.t :=
  ok <- vm_call (StartVM true) ;;
  ret (if truthy ok then CommandResult.ok "✅ VM started!" true
       else CommandResult.fail "❌ VM failed to start").

Definition _fullscreen : M (World S) CommandResult.t :=
  vm_call ToggleFullscreen ;;;
  ret (CommandResult.ok "🖥️ Fullscreen toggled" false).

Definition _move (args : list string) : M (World S) CommandResult.t :=
  match args with
  | [] => ret (CommandResult.fail "Usage: !move dx dy | !move left/right/up/down")
  | a0 :: _ =>
      delta <-
        match DIRECTION_MAP (str_lower a0) with
        | Some (dx, dy) =>
            steps <-
              match args !! 1%nat with
              | Some a1 =>
                  if str_isdigit (str_lstrip "-"%char a1) then lift (py_int rt a1)
                  else ret 1
              | None => ret 1
              end ;;
            let steps := Z.max 1 (Z.min steps 10) in
            ret (inl (dx * steps, dy * steps))
        | None =>
            if (length args <? 2)%nat
            then ret (inr (CommandResult.fail "Usage: !move dx dy"))
            else
              try_except
                (dx <- int_float a0 ;;
                 a1 <- getitem args 1 ;;
                 dy <- int_float a1 ;;
                 ret (inl (dx, dy)))
                is_ValueError
                (λ _, ret (inr (CommandResult.fail "Invalid coordinates")))
        end ;;
      match delta with
      | inr early => ret early
      | inl (dx, dy) =>
          (* Clamp *)
          let max_d := Config.mouse_max_delta config in
          let dx := clamp (- max_d) max_d dx in
          let dy := clamp (- max_d) max_d dy in
          vm_call (MouseMove dx dy) ;;;
          ret (CommandResult.ok
                 ("🖱️ Moved (" +:+ pretty dx +:+ "," +:+ pretty dy +:+ ")") false)
      end
  end.

(** The [try] block shared by [_abs] and [_drag]:
    [int(float(args[0]))], [int(float(args[1]))]. *)
Definition two_ints (args : list string) (usage : string)
    : M (World S) (Z * Z + CommandResult.t) :=
  try_except
    (a0 <- getitem args 0 ;; x <- int_float a0 ;;
     a1 <- getitem args 1 ;; y <- int_float a1 ;;
     ret (inl (x, y)))
    is_ValueError_or_IndexError
    (λ _, ret (inr (CommandResult.fail usage))).

Definition _abs (args : list string) : M (World S) CommandResult.t :=
  xy <- two_ints args "Usage: !abs x y" ;;
  match xy with
  | inr early => ret early
  | inl (x, y) =>
      let x := clamp 0 (Config.mouse_abs_x_max config) x in
      let y := clamp 0 (Config.mouse_abs_y_max config) y in
      vm_call (MouseAbs x y) ;;;
      ret (CommandResult.ok
             ("🖱️ Moved to (" +:+ pretty x +:+ "," +:+ pretty y +:+ ")") false)
  end.

Definition _drag (args : list string) : M (World S) CommandResult.t :=
  xy <- two_ints args "Usage: !drag dx dy [button]" ;;
  match xy with
  | inr early => ret early
  | inl (dx, dy) =>
      let button :=
        known_button
          (match args !! 2%nat with Some b => str_lower b | None => "left" end) in
      let max_d := Config.mouse_max_delta config in
      let dx := clamp (- max_d) max_d dx in
      let dy := clamp (- max_d) max_d dy in
      vm_call (MouseDrag dx dy button) ;;;
      ret (CommandResult.ok
             ("🖱️ Dragged (" +:+ pretty dx +:+ "," +:+ pretty dy +:+ ")") false)
  end.

Definition _click (args : list string) : M (World S) CommandResult.t :=
  let button :=
    known_button
      (match args with b :: _ => str_lower b | [] => "left" end) in
  vm_call (MouseClickV2 button) ;;;
  ret (CommandResult.ok ("🖱️ " +:+ str_capitalize button +:+ " click") false).

Definition _rclick : M (World S) CommandResult.t :=
  vm_call (MouseClickV2 "right") ;;;
  ret (CommandResult.ok "🖱️ Right click" false).

Definition _scroll (args : list string) : M (World S) CommandResult.t :=
  d <- try_except
         (a0 <- getitem args 0 ;; delta <- int_float a0 ;; ret (inl delta))
         is_ValueError_or_IndexError
         (λ _, ret (inr (CommandResult.fail "Usage: !scroll delta"))) ;;
  match d with
  | inr early => ret early
  | inl delta =>
      let delta := clamp (-10) 10 delta in
      vm_call (MouseScroll delta) ;;;
      ret (CommandResult.ok ("🖱️ Scrolled " +:+ pretty delta) false)
  end.

Definition _type (args : list string) : M (World S) CommandResult.t :=
  match args with
  | [] => ret (CommandResult.fail "Usage: !type text")
  | a0 :: _ =>
      let text := str_prefix (Config.type_max_length config) a0 in
      vm_call (TypeText text) ;;;
      ret (CommandResult.ok ("⌨️ Typed: " +:+ preview text) true)
  end.

Definition _send (args : list string) : M (World S) CommandResult.t :=
  match args with
  | [] => ret (CommandResult.fail "Usage: !send text")
  | a0 :: _ =>
      let text := str_prefix (Config.type_max_length config) a0 in
      vm_call (SendText text) ;;;
      ret (CommandResult.ok ("⌨️ Sent: " +:+ preview text) true)
  end.

Definition _key (args : list string) : M (World S) CommandResult.t :=
  a0 <- getitem args 0 ;;
  let key := str_lower a0 in
  duration <-
    match args !! 1%nat with
    | Some a1 =>
        try_except
          (x <- lift (py_float rt a1) ;;
           ret (float_max (Finite (Q2Qc (5 # 100)))
                  (float_min x (Finite (Q2Qc 2)))))
          is_ValueError
          (λ _, ret (Finite (Q2Qc (1 # 10))))
    | None => ret (Finite (Q2Qc (1 # 10)))
    end ;;
  ok <- vm_call (KeyPress key duration) ;;
  ret (if truthy ok then CommandResult.ok ("⌨️ Key: " +:+ key) false
       else CommandResult.fail ("Unknown key: " +:+ key)).

Definition _combo (args : list string) : M (World S) CommandResult.t :=
  a0 <- getitem args 0 ;;
  let combo := str_lower a0 in
  (* Validate - only allow simple combos *)
  if (4 <? length (str_split_on "+"%char combo))%nat
  then ret (CommandResult.fail "Too many keys in combo")
  else
    vm_call (KeyCombo combo) ;;;
    ret (CommandResult.ok ("⌨️ Combo: " +:+ combo) true).

Definition _keydown (args : list string) : M (World S) CommandResult.t :=
  a0 <- getitem args 0 ;;
  let key := str_lower a0 in
  ok <- vm_call (KeyDown key) ;;
  ret (if truthy ok then CommandResult.ok ("⌨️ KeyDown: " +:+ key) false
       else CommandResult.fail ("Unknown key: " +:+ key)).

Definition _keyup (args : list string) : M (World S) CommandResult.t :=
  a0 <- getitem args 0 ;;
  let key := str_lower a0 in
  ok <- vm_call (KeyUp key) ;;
  ret (if truthy ok then CommandResult.ok ("⌨️ KeyUp: " +:+ key) false
       else CommandResult.fail ("Unknown key: " +:+ key)).

Definition _enter : M (World S) CommandResult.t :=
  vm_call (KeyPress "enter" (Finite (Q2Qc (1 # 10)))) ;;;
  ret (CommandResult.ok "⌨️ Enter" false).

Definition _wait (args : list string) : M (World S) CommandResult.t :=
  s <- try_except
         (a0 <- getitem args 0 ;; secs <- lift (py_float rt a0) ;; ret (inl secs))
         is_ValueError_or_IndexError
         (λ _, ret (inr (CommandResult.fail "Usage: !wait seconds"))) ;;
  match s with
  | inr early => ret early
  | inl secs =>
      let secs :=
        float_max (float_of_int 0)
          (float_min secs (float_of_int (Config.max_wait_seconds config))) in
      sleep secs ;;;
      ret (CommandResult.ok
             ("⏱️ Waited " +:+ str_of_float rt secs +:+ "s") false)
  end.

Definition _reset : M (World S) CommandResult.t :=
  ok <- vm_call ResetVM ;;
  ret (if truthy ok then CommandResult.ok "🔄 VM reset!" true
       else CommandResult.fail "❌ Reset failed").

Definition _revert : M (World S) CommandResult.t :=
  ok <- vm_call (RestoreSnapshot (Config.snapshot_name config)) ;;
  (if truthy ok
   then sleep (float_of_int 3) ;;; vm_call (StartVM true) ;;; ret tt
   else ret tt) ;;;
  ret (if truthy ok then CommandResult.ok "⏮️ Snapshot restored!" true
       else CommandResult.fail "❌ Revert failed").

Definition _screenshot : M (World S) CommandResult.t :=
  path <- vm_call Screenshot ;;
  ret (if truthy path
       then CommandResult.ok
              ("📸 Screenshot saved: "
               +:+ match path with RPath (Some p) => p | _ => "True" end) true
       else CommandResult.fail "Screenshot failed").

(** The body of the [try] in [execute]: route the command to its
    handler. *)
Definition route (cmd : ParsedCommand) : M (World S) CommandResult.t :=
  let name := name cmd in
  let args := args cmd in
  if decide (name = "startvm") then _startvm
  else if decide (name = "fullscreen") then _fullscreen
  else if decide (name = "move") then _move args
  else if decide (name = "abs") then _abs args
  else if decide (name = "drag") then _drag args
  else if decide (name = "click") then _click args
  else if decide (name = "rclick") then _rclick
  else if decide (name = "scroll") then _scroll args
  else if decide (name = "type") then _type args
  else if decide (name = "send") then _send args
  else if decide (name = "key") then _key args
  else if decide (name = "combo") then _combo args
  else if decide (name = "keydown") then _keydown args
  else if decide (name = "keyup") then _keyup args
  else if decide (name = "enter") then _enter
  else if decide (name = "wait") then _wait args
  else if decide (name = "reset") then _reset
  else if decide (name = "revert") then _revert
  else if decide (name = "screenshot") then _screenshot
  else if decide (name = "shutdown")
  then ret (CommandResult.fail "shutdown requires a vote")
  else if decide (name = "forceshutdown")
  then ret (CommandResult.fail "forceshutdown requires a vote")
  else ret (CommandResult.fail ("Unknown command: " +:+ name)).

(** [execute]: route the command; any exception becomes a failure
    result. *)
Definition execute (cmd : ParsedCommand) (user_display : string)
    : M (World S) CommandResult.t :=
  try_except (route cmd) is_Exception
    (λ _, ret (CommandResult.fail ("Error executing !" +:+ name cmd))).

(** [execute_shutdown], called with the result of a vote. *)
Definition execute_shutdown (force : bool) : M (World S) CommandResult.t :=
  ok <- vm_call (ShutdownVM force) ;;
  if truthy ok then
    sleep (float_of_int (if force then 2 else 12)) ;;;
    vm_call (StartVM true) ;;;
    ret (CommandResult.ok "🔌 VM shut down and restarted!" true)
  else ret (CommandResult.fail "❌ Shutdown failed").
End Handlers.

(** The bounds the executor keeps on what it sends to the actuator. *)
Definition call_in_bounds (config : Config.t) (c : VMCall) : Prop :=
  let max_d := Config.mouse_max_delta config in
  match c with
  | MouseMove dx dy | MouseDrag dx dy _ =>
      - max_d ≤ dx ≤ max_d ∧ - max_d ≤ dy ≤ max_d
  | MouseScroll delta => -10 ≤ delta ≤ 10
  | _ => True
  end.

(** The calls a computation issues from world [w]. *)
Definition issued {S A} (m : M (World S) A) (w : World S) : list VMCall :=
  drop (length (calls w)) (calls (m w).2).

(** [sends P m]: whatever the world, [m] only appends calls to the log,
    and each call it appends satisfies [P]. *)
Definition sends {S A} (P : VMCall → Prop) (m : M (World S) A) : Prop :=
  ∀ w, ∃ new, calls (m w).2 = calls w ++ new ∧ Forall P new.

End CommandExecutor.

(** What else the executor guarantees about the calls it issues and the
    time it sleeps. *)
Module ExecutorChecks.

Definition BUTTONS : list string := ["left"; "right"; "middle"].

(** An absolute move stays on the configured screen. *)
Definition abs_in_bounds (config : Config.t) (c : VMCall) : Prop :=
  match c with
  | MouseAbs x y =>
      0 ≤ x ≤ Config.mouse_abs_x_max config
      ∧ 0 ≤ y ≤ Config.mouse_abs_y_max config
  | _ => True
  end.

(** Typed text is no longer than [type_max_length]. *)
Definition text_within_limit (config : Config.t) (c : VMCall) : Prop :=
  match c with
  | TypeText text | SendText text =>
      Z.of_nat (String.length text) ≤ Config.type_max_length config
  | _ => True
  end.

(** A key is held for a finite time between 0.05 and 2 seconds. *)
Definition key_duration_ok (d : PyFloat) : Prop :=
  ∃ q, d = Finite q ∧ (Q2Qc (5 # 100) ≤ q)%Qc ∧ (q ≤ Q2Qc 2)%Qc.

Definition key_press_bounded (c : VMCall) : Prop :=
  match c with
  | KeyPress _ d => key_duration_ok d
  | _ => True
  end.

(** Clicks and drags name one of the three buttons. *)
Definition button_known (c : VMCall) : Prop :=
  match c with
  | MouseClickV2 b | MouseDrag _ _ b => b ∈ BUTTONS
  | _ => True
  end.

(** The button a click or drag is to be made with: the word the user
    gave, lower-cased, when that names one of the three buttons, and
    "left" otherwise or when no word was given. *)
Definition requested_button (word : option string) : string :=
  match word with
  | Some b => if bool_decide (str_lower b ∈ BUTTONS) then str_lower b else "left"
  | None => "left"
  end.

(** A click or drag is made with button [b]. *)
Definition button_is (b : string) (c : VMCall) : Prop :=
  match c with
  | MouseClickV2 b' | MouseDrag _ _ b' => b' = b
  | _ => True
  end.

(** A combo has at most four keys. *)
Definition combo_small (c : VMCall) : Prop :=
  match c with
  | KeyCombo combo => (length (str_split_on "+"%char combo) ≤ 4)%nat
  | _ => True
  end.

(** Not a call of the controller's [shutdown]. *)
Definition not_shutdown (c : VMCall) : Prop :=
  match c with
  | ShutdownVM _ => False
  | _ => True
  end.

(** A sleep is finite, not negative and at most [limit] seconds. *)
Definition sleep_within (limit : Z) (secs : PyFloat) : Prop :=
  ∃ q, secs = Finite q ∧ (0 ≤ q)%Qc ∧ (q ≤ Q2Qc (inject_Z limit))%Qc.

(** All of the above at once; the two bounds that depend on a sensible
    configuration are stated under that condition. *)
Definition call_sanitized (config : Config.t) (c : VMCall) : Prop :=
  match c with
  | MouseAbs x y =>
      (0 ≤ Config.mouse_abs_x_max config → 0 ≤ x ≤ Config.mouse_abs_x_max config)
      ∧ (0 ≤ Config.mouse_abs_y_max config → 0 ≤ y ≤ Config.mouse_abs_y_max config)
  | TypeText text | SendText text =>
      0 ≤ Config.type_max_length config →
      Z.of_nat (String.length text) ≤ Config.type_max_length config
  | KeyPress _ d => key_duration_ok d
  | MouseClickV2 b | MouseDrag _ _ b => b ∈ BUTTONS
  | KeyCombo combo => (length (str_split_on "+"%char combo) ≤ 4)%nat
  | ShutdownVM _ => False
  | _ => True
  end.

(** [issues P Z Q m]: whatever the world, [m] only appends to the two
    logs, every call it appends satisfies [P], every sleep [Z], and a
    value it returns satisfies [Q]. *)
Definition issues {S A} (P : VMCall → Prop) (Z : PyFloat → Prop)
    (Q : A → Prop) (m : M (World S) A) : Prop :=
  ∀ w, ∃ cs ss,
    calls (m w).2 = calls w ++ cs
    ∧ sleeps (m w).2 = sleeps w ++ ss
    ∧ Forall P cs ∧ Forall Z ss
    ∧ ∀ a, (m w).1 = Returned a → Q a.

Definition any {A} : A → Prop := λ _, True.

(** The sleeps a computation performs from world [w]. *)
Definition slept {S A} (m : M (World S) A) (w : World S) : list PyFloat :=
  drop (length (sleeps w)) (sleeps (m w).2).

End ExecutorChecks.

(** ** core/bot.py *)

Module ArchChaosBot.
Import Parser YouTubeChatClient.
Open Scope exec_scope.

(** What travels through the execution queue:
    [(cmd, msg.author_display, msg.author_id)]. *)
Definition QueueItem : Type := ParsedCommand * string * string.

(** Calls on the collaborators the model does not interpret, the overlay
    and the user database, in the order they are made. Where the source
    formats a text from data, the effect keeps the data. *)
Inductive Effect : Type :=
  | AddChatMessage (author text badge : string)
  | GetOrCreate (user_id display : string)
  | Announce (text : string)
  | AnnounceFor (user text : string)
  | AnnounceHelp (arg : option string)
  | AnnounceStats (user_id : string)
  | AnnounceLeaderboard
  | AnnounceUptime (now : Time)
  | AnnounceRateLimited (user : string) (reason : RateLimiter.reason)
  | AnnounceVoteStarted (name : string)
  | AnnounceVoteJoined (user name : string)
  | AnnounceVoteCast (user target : string)
  | AnnounceBanned (target : string)
  | AnnounceUnbanned (target : string)
  | IncrementCommands (user_id : string)
  | AddPoints (user_id : string) (points : Z)
  | IncrementVotesCast (user_id : string)
  | SetActiveCommand (user name args_str : string)
  | ClearActiveCommand.

Record t (St : Type) : Type := mk {
  config : Config.t;
  _running : bool;
  world : World St;                      (* self.vm and the calls made on it *)
  rate_limiter : RateLimiter.t;
  vote_manager : VoteManager.t;
  queue : ExecutionQueue.t QueueItem;
  _banned : gset string;
  effects : list Effect;
}.
Arguments mk {St}.
Arguments config {St}.
Arguments _running {St}.
Arguments world {St}.
Arguments rate_limiter {St}.
Arguments vote_manager {St}.
Arguments queue {St}.
Arguments _banned {St}.
Arguments effects {St}.

(** [self._on_vote_result] as the vote manager sees it: with a winner it
    awaits [asyncio.sleep(1)] before anything else, so it suspends. *)
Definition _on_vote_result : VoteManager.Callback :=
  {| VoteManager.cb_suspends := 1; VoteManager.cb_raises := false |}.

(** [__init__], around an actuator in state [vm]. *)
Definition init {St} (config : Config.t) (vm : St) : t St :=
  mk config false (mkWorld vm [] [])
     (RateLimiter.set_command_cooldown
        (RateLimiter.set_command_cooldown
           (RateLimiter.set_command_cooldown
              (RateLimiter.init (Config.user_cooldown config)
                 (Config.command_cooldown config))
              "leaderboard" (Q2Qc 15))
           "stats" (Q2Qc 10))
        "uptime" (Q2Qc 10))
     (VoteManager.on_result (VoteManager.init (Config.vote_duration config))
        _on_vote_result)
     (ExecutionQueue.init (Config.queue_max_size config))
     ∅ [].

(** The trust level of the author of a message. *)
Definition resolve_permission (config : Config.t) (msg : ChatMessage) : Permission.t :=
  if bool_decide (author_id msg ∈ Config.admin_user_ids config) || is_owner msg
  then Permission.ADMIN
  else if bool_decide (author_id msg ∈ Config.mod_user_ids config) || is_moderator msg
  then Permission.MOD
  else if is_member msg then Permission.MEMBER
  else Permission.VIEWER.

(** The commands dropped without a notice when rate limited. *)
Definition silent_when_limited (name : string) : bool :=
  bool_decide (name ∈ ["move"; "click"; "rclick"; "type"; "send"; "key";
                       "enter"; "scroll"; "abs"; "drag"]).

(** The commands run without asking whether the VM is up. *)
Definition runs_without_vm (name : string) : bool :=
  bool_decide (name ∈ ["startvm"; "stats"; "leaderboard"; "uptime"; "help";
                       "screenshot"]).

Section Bot.
Context {St : Type}.
Variable rt : Runtime St.
Variable shlex_split : string → outcome (list string).

Definition get_bot : M (t St) (t St) := λ b, (Returned b, b).

Definition emit (e : Effect) : M (t St) unit :=
  λ b, (Returned tt,
        mk (config b) (_running b) (world b) (rate_limiter b)
           (vote_manager b) (queue b) (_banned b) (effects b ++ [e])).

Definition set_banned (s : gset string) : M (t St) unit :=
  λ b, (Returned tt,
        mk (config b) (_running b) (world b) (rate_limiter b)
           (vote_manager b) (queue b) s (effects b)).

(** Run an executor computation on the bot's actuator. *)
Definition on_world {A} (m : M (World St) A) : M (t St) A :=
  λ b, let '(r, w) := m (world b) in
       (r, mk (config b) (_running b) w (rate_limiter b)
              (vote_manager b) (queue b) (_banned b) (effects b)).

(** [self.rate_limiter.check(user_id, command)] *)
Definition rate_check (user_id command : string) (now : Time)
    : M (t St) (bool * RateLimiter.reason) :=
  λ b, let '(r, res) := RateLimiter.check (rate_limiter b) now user_id command in
       (Returned res,
        mk (config b) (_running b) (world b) r
           (vote_manager b) (queue b) (_banned b) (effects b)).

(** [self.rate_limiter.record(user_id, command)] *)
Definition rate_record (user_id command : string) (now : Time) : M (t St) unit :=
  λ b, (Returned tt,
        mk (config b) (_running b) (world b)
           (RateLimiter.record (rate_limiter b) now user_id command)
           (vote_manager b) (queue b) (_banned b) (effects b)).

(** A method of the vote manager. *)
Definition on_votes {A} (f : VoteManager.t → VoteManager.t * outcome A)
    : M (t St) A :=
  λ b, let '(vm, r) := f (vote_manager b) in
       (r, mk (config b) (_running b) (world b) (rate_limiter b)
              vm (queue b) (_banned b) (effects b)).

(** [await self.queue.put(item)] *)
Definition queue_put (item : QueueItem) : M (t St) bool :=
  λ b, let '(q, ok) := ExecutionQueue.put (queue b) item in
       (Returned ok,
        mk (config b) (_running b) (world b) (rate_limiter b)
           (vote_manager b) q (_banned b) (effects b)).

(** [get_vote_status()] is not [None]. *)
Definition vote_open (b : t St) : bool :=
  match VoteManager.active_session (vote_manager b) with
  | Some _ => true
  | None => false
  end.

Definition _handle_major_command (msg : ChatMessage) (cmd : ParsedCommand)
    (now : Time) : M (t St) unit :=
  session <- on_votes (λ vm, VoteManager.start_vote vm (name cmd) (author_id msg) now) ;;
  emit (IncrementVotesCast (author_id msg)) ;;;
  match session with
  | Some _ => emit (AnnounceVoteStarted (name cmd))
  | None =>
      b <- get_bot ;;
      if vote_open b then emit (AnnounceVoteJoined (author_display msg) (name cmd))
      else ret tt
  end.

Definition _handle_vote_cast (msg : ChatMessage) (cmd : ParsedCommand)
    : M (t St) unit :=
  match args cmd with
  | [] => emit (AnnounceFor (author_display msg)
                  "Usage: !vote shutdown | !vote forceshutdown")
  | a0 :: _ =>
      let target := str_lstrip "!"%char (str_lower a0) in
      if negb (bool_decide (target ∈ ["shutdown"; "forceshutdown"]))
      then emit (AnnounceFor (author_display msg)
                   "Vote options: shutdown, forceshutdown")
      else
        ok <- on_votes (λ vm, VoteManager.cast_vote vm (author_id msg) target) ;;
        if ok : bool then
          emit (IncrementVotesCast (author_id msg)) ;;;
          b <- get_bot ;;
          if vote_open b then emit (AnnounceVoteCast (author_display msg) target)
          else ret tt
        else
          emit (AnnounceFor (author_display msg)
                  "❌ No active vote right now. Trigger !shutdown or !forceshutdown first.")
  end.

Definition _handle_moderation (msg : ChatMessage) (cmd : ParsedCommand)
    (perm : Permission.t) : M (t St) unit :=
  if Permission.value perm <? Permission.value Permission.MOD then ret tt
  else
    match args cmd with
    | [] => ret tt
    | a0 :: _ =>
        let target_name := str_lstrip "@"%char a0 in
        b <- get_bot ;;
        if decide (name cmd = "ban") then
          set_banned ({[target_name]} ∪ _banned b) ;;;
          emit (AnnounceBanned target_name)
        else if decide (name cmd = "unban") then
          set_banned (_banned b ∖ {[target_name]}) ;;;
          emit (AnnounceUnbanned target_name)
        else ret tt
    end.

(** [_process_message]; [now] is the reading of [time.time()] while
    the message is handled. *)
Definition _process_message (msg : ChatMessage) (now : Time) : M (t St) unit :=
  let text := str_strip (text msg) in
  let badge :=
    if is_owner msg then "owner" else if is_moderator msg then "mod"
    else if is_member msg then "member" else "" in
  emit (AddChatMessage (author_display msg) text badge) ;;;
  if negb (str_startswith "!" text) then ret tt
  else
    emit (GetOrCreate (author_id msg) (author_display msg)) ;;;
    b <- get_bot ;;
    if bool_decide (author_id msg ∈ _banned b) then ret tt
    else
      let perm := resolve_permission (config b) msg in
      parsed <- lift (parse_command shlex_split text) ;;
      match parsed with
      | None => ret tt
      | Some cmd =>
          if Permission.value perm <? Permission.value (required_permission cmd)
          then emit (AnnounceFor (author_display msg)
                       ("❌ No permission for !" +:+ name cmd))
          else if decide (name cmd = "help")
          then emit (AnnounceHelp (head (args cmd)))
          else if decide (name cmd = "stats")
          then emit (AnnounceStats (author_id msg))
          else if decide (name cmd = "leaderboard")
          then emit AnnounceLeaderboard
          else if decide (name cmd = "uptime")
          then emit (AnnounceUptime now)
          else if decide (name cmd = "vote")
          then _handle_vote_cast msg cmd
          else if bool_decide (name cmd ∈ ["ban"; "unban"])
          then _handle_moderation msg cmd perm
          else
            res <- rate_check (author_id msg) (name cmd) now ;;
            let '(allowed, reason) := res in
            if negb allowed then
              if bool_decide (tier cmd = CommandTier.CLASSIC)
                 && silent_when_limited (name cmd)
              then ret tt
              else emit (AnnounceRateLimited (author_display msg) reason)
            else if bool_decide (tier cmd = CommandTier.MAJOR)
            then _handle_major_command msg cmd now
            else
              rate_record (author_id msg) (name cmd) now ;;;
              emit (IncrementCommands (author_id msg)) ;;;
              emit (AddPoints (author_id msg) (Config.points_per_command (config b))) ;;;
              emit (SetActiveCommand (author_display msg) (name cmd)
                      (str_join " " (args cmd))) ;;;
              enqueued <- queue_put (cmd, author_display msg, author_id msg) ;;
              if enqueued : bool then ret tt
              else
                emit (AnnounceFor (author_display msg)
                        "⚠️ Queue full, try again later") ;;;
                emit ClearActiveCommand
      end.

(** One delivery from [message_stream] to [_chat_loop]: an exception
    of [_process_message] is logged and the loop goes on. *)
Definition _chat_loop_step (msg : ChatMessage) (now : Time) : M (t St) unit :=
  try_except (_process_message msg now) is_Exception (λ _, ret tt).

(** [await asyncio.wait_for(self.queue.get(), timeout=1.0)]: the
    oldest item, or [None] when the wait times out on an empty queue. *)
Definition queue_get : M (t St) (option QueueItem) :=
  λ b, match ExecutionQueue.get (queue b) with
       | Some (item, q) =>
           (Returned (Some item),
            mk (config b) (_running b) (world b) (rate_limiter b)
               (vote_manager b) q (_banned b) (effects b))
       | None => (Returned None, b)
       end.

(** The readiness gate of [_execution_loop]: commands outside the
    allow-list run only when [self.vm.is_running()] says so. *)
Definition vm_ready (cmd : ParsedCommand) : M (t St) bool :=
  if runs_without_vm (name cmd) then ret true
  else r <- on_world (CommandExecutor.vm_call rt IsRunning) ;;
       ret (truthy r).

(** The part of [_execution_loop] inside its [try], for one turn. *)
Definition _execution_loop_try : M (t St) unit :=
  item <- queue_get ;;
  match item with
  | None => ret tt          (* asyncio.TimeoutError: continue *)
  | Some (cmd, user_display, user_id) =>
      ready <- vm_ready cmd ;;
      if negb ready then
        emit (AnnounceFor user_display "❌ VM is not running! Try !startvm") ;;;
        emit ClearActiveCommand
      else
        b <- get_bot ;;
        result <- on_world (CommandExecutor.execute rt (config b) cmd user_display) ;;
        let has_message :=
          negb (bool_decide (CommandResult.message result = "")) in
        (if has_message && CommandResult.public result
         then emit (AnnounceFor user_display (CommandResult.message result))
         else if negb (CommandResult.success result) && has_message
         then emit (AnnounceFor user_display (CommandResult.message result))
         else ret tt) ;;;
        emit ClearActiveCommand
  end.

(** One turn of [while self._running] in [_execution_loop]. *)
Definition _execution_loop_turn : M (t St) unit :=
  try_except _execution_loop_try is_Exception (λ _, ret tt).

(** Up to [n] turns of the loop. *)
Fixpoint _execution_loop (n : nat) : M (t St) unit :=
  match n with
  | O => ret tt
  | S k =>
      b <- get_bot ;;
      if _running b then _execution_loop_turn ;;; _execution_loop k
      else ret tt
  end.
End Bot.


End ArchChaosBot.

(** ** Readings of the orchestrator's state *)

Module BotChecks.
Import ArchChaosBot.

(** What the execution loop works on: the configuration, the running
    flag and the actuator with the calls made on it. *)
Definition actuator_side {St} (b : t St) : Config.t * bool * World St :=
  (config b, _running b, world b).

(** What decides whether a message is admitted: the rate limiter, the
    votes, the execution queue and the bans. *)
Definition admission_side {St} (b : t St)
    : RateLimiter.t * VoteManager.t * ExecutionQueue.t QueueItem * gset string :=
  (rate_limiter b, vote_manager b, queue b, _banned b).

(** [m] leaves the reading [f] of the bot as it found it, whether it
    returns or raises. *)
Definition preserves {St A B} (f : t St → B) (m : M (t St) A) : Prop :=
  ∀ b, f (m b).2 = f b.

End BotChecks.

(** ** Concrete scenarios used below *)

Module Scenario.

(** The bot's result callback suspends at least once (it sleeps a
    second before acting on the winner). *)
Definition bot_callback : VoteManager.Callback :=
  {| VoteManager.cb_suspends := 1; VoteManager.cb_raises := false |}.

Definition manager0 : VoteManager.t :=
  VoteManager.on_result (VoteManager.init 20) bot_callback.

(** "u1" has opened a vote for shutdown; its timer is pending. *)
Definition manager_open : VoteManager.t :=
  (VoteManager.start_vote manager0 "shutdown" "u1" 0%Qc).1.

(** The timer of task 0 has fired; the callback is being awaited. *)
Definition manager_dispatching : VoteManager.t :=
  default manager_open (VoteManager.timer_fires manager_open 0).

(** A text message with the given id. *)
Definition message (id : string) : YouTubeChatClient.ChatMessage :=
  YouTubeChatClient.mkMessage id "UC1" "http://c/UC1" "viewer" "!click"
    0%Qc false false false.




(** Decimal integer literals: an optional minus sign and digits. *)
Fixpoint digits_value (acc : Z) (s : string) : option Z :=
  match s with
  | EmptyString => Some acc
  | String c r =>
      let n := Ascii.N_of_ascii c in
      if ((48 <=? n) && (n <=? 57))%N
      then digits_value (10 * acc + (Z.of_N n - 48)) r
      else None
  end.

Definition parse_decimal (s : string) : option Z :=
  match s with
  | EmptyString => None
  | String "-" EmptyString => None
  | String "-" r => Z.opp <$> digits_value 0 r
  | _ => digits_value 0 s
  end.

Definition vm_always (reply : outcome VMReply) : VMCall → unit → outcome VMReply * unit :=
  λ _ s, (reply, s).

(** A run time that reads decimal integer literals, around an actuator
    that answers every call the same way. *)
Definition runtime (reply : outcome VMReply) : Runtime unit :=
  {| vm_step := vm_always reply;
     py_float := λ s, match parse_decimal s with
                      | Some z => Returned (float_of_int z)
                      | None => Raised ValueError
                      end;
     py_int := λ s, match parse_decimal s with
                    | Some z => Returned z
                    | None => Raised ValueError
                    end;
     str_of_float := λ _, "" |}.

(** An actuator on which every call succeeds, and one whose every call
    raises. *)
Definition runtime_ok : Runtime unit := runtime (Returned (RBool true)).
Definition runtime_broken : Runtime unit :=
  runtime (Raised (RuntimeError "VBoxManage not found")).

(** On text without quotes or backslashes [shlex.split] splits at
    white space. *)
Definition shlex_plain (s : string) : outcome (list string) :=
  Returned (str_split_ws s).

Definition world0 : World unit := mkWorld tt [] [].

Definition bot0 : ArchChaosBot.t unit := ArchChaosBot.init Config.default tt.

(** A message of the channel owner. *)
Definition owner_says (text : string) : YouTubeChatClient.ChatMessage :=
  YouTubeChatClient.mkMessage "m1" "UCowner" "http://c/UCowner" "Owner" text
    0%Qc false true false.

Definition parsed (name : string) (args : list string)
    (tier : CommandTier.t) (perm : Permission.t) : Parser.ParsedCommand :=
  Parser.mkParsed name args ("!" +:+ str_join " " (name :: args)) tier perm.

End Scenario.

(** * Properties *)

(** ** Facts about insertion-ordered dictionaries *)

Section DictFacts.
Context {V : Type}.
Implicit Types (d : Dict.t V) (k : string) (v : V).

Lemma dict_get_set d k v k' :
  Dict.get (Dict.set d k v) k' = if decide (k = k') then Some v else Dict.get d k'.
Proof.
  induction d as [|[k0 v0] r IH]; simpl.
  - by destruct (decide (k = k')).
  - destruct (decide (k0 = k)) as [->|Hne]; simpl.
    + by destruct (decide (k = k')).
    + rewrite IH. destruct (decide (k0 = k')) as [->|]; [|done].
      by rewrite decide_False.
Qed.

Lemma dict_get_set_eq d k v : Dict.get (Dict.set d k v) k = Some v.
Proof. by rewrite dict_get_set, decide_True. Qed.

Lemma dict_get_set_ne d k v k' :
  k ≠ k' → Dict.get (Dict.set d k v) k' = Dict.get d k'.
Proof. intros. by rewrite dict_get_set, decide_False. Qed.

Lemma dict_length_set d k v :
  length (Dict.set d k v) = if Dict.mem d k then length d else S (length d).
Proof.
  unfold Dict.mem. induction d as [|[k0 v0] r IH]; simpl; [done|].
  destruct (decide (k0 = k)); simpl; [done|].
  rewrite IH. by destruct (Dict.get r k).
Qed.

Lemma dict_keys_set d k v k' :
  k' ∈ Dict.keys (Dict.set d k v) ↔ k' = k ∨ k' ∈ Dict.keys d.
Proof.
  unfold Dict.keys. induction d as [|[k0 v0] r IH]; simpl.
  - rewrite list_elem_of_singleton, elem_of_nil. tauto.
  - destruct (decide (k0 = k)) as [->|]; simpl;
      rewrite !elem_of_cons; [tauto|].
    rewrite IH. tauto.
Qed.

Lemma dict_keys_set_NoDup d k v :
  NoDup (Dict.keys d) → NoDup (Dict.keys (Dict.set d k v)).
Proof.
  unfold Dict.keys. induction d as [|[k0 v0] r IH]; simpl; intros Hnd.
  - apply NoDup_singleton.
  - apply NoDup_cons in Hnd as [Hnotin Hnd].
    destruct (decide (k0 = k)) as [->|Hne]; simpl.
    + by apply NoDup_cons.
    + apply NoDup_cons. split; [|by apply IH].
      intros Hin. apply (dict_keys_set r k v k0) in Hin as [?|?]; done.
Qed.

Lemma dict_Forall_set (P : string * V → Prop) d k v :
  Forall P d → P (k, v) → Forall P (Dict.set d k v).
Proof.
  intros Hd Hkv. induction Hd as [|[k0 v0] r H0 Hr IH]; simpl.
  - by apply Forall_singleton.
  - destruct (decide (k0 = k)); apply Forall_cons; auto.
Qed.

Lemma dict_get_elem_of d k v : Dict.get d k = Some v → (k, v) ∈ d.
Proof.
  induction d as [|[k0 v0] r IH]; simpl; [done|].
  destruct (decide (k0 = k)) as [->|]; [intros [= ->]; apply list_elem_of_here|].
  intros H. apply list_elem_of_further. auto.
Qed.
End DictFacts.

Lemma dict_getD_set (d : Dict.t Z) k v k' :
  Dict.getD (Dict.set d k v) k' = if decide (k = k') then v else Dict.getD d k'.
Proof. unfold Dict.getD. rewrite dict_get_set. by destruct (decide (k = k')). Qed.

Lemma dict_sum_cons (d : Dict.t Z) k v : Dict.sum ((k, v) :: d) = v + Dict.sum d.
Proof. reflexivity. Qed.

Lemma dict_getD_cons (d : Dict.t Z) k0 v0 k :
  Dict.getD ((k0, v0) :: d) k = if decide (k0 = k) then v0 else Dict.getD d k.
Proof. unfold Dict.getD. simpl. by destruct (decide (k0 = k)). Qed.

Lemma dict_sum_set (d : Dict.t Z) k v :
  Dict.sum (Dict.set d k v) = Dict.sum d - Dict.getD d k + v.
Proof.
  induction d as [|[k0 v0] r IH]; cbn [Dict.set].
  - rewrite dict_sum_cons. unfold Dict.getD. simpl. lia.
  - rewrite dict_getD_cons.
    destruct (decide (k0 = k)); rewrite !dict_sum_cons; [lia|].
    rewrite IH. lia.
Qed.

Lemma dict_count_cons (d : Dict.t string) u x c :
  Dict.count ((u, x) :: d) c = if decide (x = c) then S (Dict.count d c) else Dict.count d c.
Proof.
  unfold Dict.count. cbn [filter list_filter snd].
  by destruct (decide (x = c)).
Qed.

Lemma dict_count_set (d : Dict.t string) u x c :
  Z.of_nat (Dict.count (Dict.set d u x) c)
  = Z.of_nat (Dict.count d c)
    - (if decide (Dict.get d u = Some c) then 1 else 0)
    + (if decide (x = c) then 1 else 0).
Proof.
  induction d as [|[k0 v0] r IH]; cbn [Dict.set Dict.get].
  - rewrite dict_count_cons. change (Dict.count [] c) with 0%nat.
    repeat case_decide; simplify_eq; lia.
  - destruct (decide (k0 = u)) as [->|Hne].
    + rewrite !dict_count_cons.
      repeat case_decide; simplify_eq; lia.
    + rewrite !dict_count_cons.
      destruct (decide (v0 = c)); rewrite ?Nat2Z.inj_succ, IH;
        repeat case_decide; simplify_eq; lia.
Qed.

Lemma dict_count_pos (d : Dict.t string) u c :
  Dict.get d u = Some c → (0 < Dict.count d c)%nat.
Proof.
  induction d as [|[k0 v0] r IH]; simpl; [done|].
  rewrite dict_count_cons.
  destruct (decide (k0 = u)) as [->|].
  - intros [= ->]. rewrite decide_True by done. lia.
  - intros H. apply IH in H. destruct (decide (v0 = c)); lia.
Qed.

(** ** Vote sessions (core/vote_system.py) *)

Section VoteSessionFacts.
Import VoteSession.

Lemma dict_mem_getD (d : Dict.t Z) c : Dict.mem d c = false → Dict.getD d c = 0.
Proof. unfold Dict.mem, Dict.getD. by destruct (Dict.get d c). Qed.

Lemma dict_mem_get {V} (d : Dict.t V) c v : Dict.get d c = Some v → Dict.mem d c = true.
Proof. unfold Dict.mem. by intros ->. Qed.

Lemma inv_create cmd uid now dur : inv (create cmd uid now dur).
Proof.
  split; simpl.
  - intros c. rewrite dict_getD_cons, dict_count_cons.
    change (Dict.count [] c) with 0%nat. change (Dict.getD [] c) with 0.
    by destruct (decide (cmd = c)).
  - reflexivity.
  - apply Forall_singleton. simpl. lia.
  - apply NoDup_singleton.
  - apply NoDup_singleton.
Qed.

Lemma inv_close s : inv s → inv (with_active s false).
Proof. intros [? ? ? ? ?]. by split. Qed.

(** Registering a command nobody holds, with count 0. *)
Lemma inv_zero_key s c :
  inv s → Dict.mem (commands s) c = false →
  inv (with_commands s (Dict.set (commands s) c 0)).
Proof.
  intros [Hc Hs Hn Hv Hk] Hmem. apply dict_mem_getD in Hmem as H0.
  split; simpl.
  - intros c'. rewrite dict_getD_set, <- Hc. case_decide; by subst.
  - rewrite dict_sum_set. lia.
  - by apply dict_Forall_set.
  - done.
  - by apply dict_keys_set_NoDup.
Qed.

(** A voter's held choice has a count of at least one, so the
    decrement in [add_vote] neither raises nor hits its floor. *)
Lemma inv_held_choice s u old :
  inv s → Dict.get (voters s) u = Some old →
  ∃ n, Dict.get (commands s) old = Some n ∧ 1 ≤ n.
Proof.
  intros [Hc _ _ _ _] Hu. apply dict_count_pos in Hu.
  specialize (Hc old). unfold Dict.getD in Hc.
  destruct (Dict.get (commands s) old) as [n|]; simpl in Hc; [|lia].
  exists n. split; [done|lia].
Qed.

(** A first vote by [u] for the registered command [c]. *)
Lemma inv_new_voter s u c m :
  inv s → Dict.get (voters s) u = None → Dict.get (commands s) c = Some m →
  inv (with_voters (with_commands s (Dict.set (commands s) c (m + 1)))
         (Dict.set (voters s) u c)).
Proof.
  intros [Hc Hs Hn Hv Hk] Hu Hm.
  assert (Dict.getD (commands s) c = m) as HD by (unfold Dict.getD; by rewrite Hm).
  split; simpl.
  - intros c'. rewrite dict_getD_set, dict_count_set, <- Hc, Hu.
    repeat case_decide; simplify_eq; lia.
  - rewrite dict_sum_set, dict_length_set. unfold Dict.mem. rewrite Hu. lia.
  - apply dict_Forall_set; [done|]. simpl.
    specialize (Hc c). lia.
  - by apply dict_keys_set_NoDup.
  - by apply dict_keys_set_NoDup.
Qed.

(** Moving the vote of [u] from [old] to the registered command [c]. *)
Lemma inv_move_vote s u old c n m :
  inv s → Dict.get (voters s) u = Some old → old ≠ c →
  Dict.get (commands s) old = Some n → Dict.get (commands s) c = Some m →
  inv (with_voters
         (with_commands s
            (Dict.set (Dict.set (commands s) old (Z.max 0 (n - 1))) c (m + 1)))
         (Dict.set (voters s) u c)).
Proof.
  intros Hinv Hu Hne Hn Hm.
  destruct (inv_held_choice s u old Hinv Hu) as (n' & Hn' & Hpos).
  assert (n' = n) as -> by congruence.
  destruct Hinv as [Hc Hs Hnn Hv Hk].
  assert (Dict.getD (commands s) c = m) as HDc by (unfold Dict.getD; by rewrite Hm).
  assert (Dict.getD (commands s) old = n) as HDo by (unfold Dict.getD; by rewrite Hn).
  split; simpl.
  - intros c'. rewrite !dict_getD_set, dict_count_set, <- Hc, Hu.
    repeat case_decide; simplify_eq; lia.
  - rewrite !dict_sum_set, dict_getD_set, dict_length_set.
    rewrite (dict_mem_get _ _ _ Hu), decide_False by done. lia.
  - apply dict_Forall_set; [apply dict_Forall_set; [done|simpl; lia]|].
    simpl. specialize (Hc c). lia.
  - by apply dict_keys_set_NoDup.
  - by do 2 apply dict_keys_set_NoDup.
Qed.

(** What [add_vote] computes on a session satisfying the invariant. *)
Lemma add_vote_active s u c0 :
  inv s → active s = true →
  let c := str_lower c0 in
  let s1 := if Dict.mem (commands s) c then s
            else with_commands s (Dict.set (commands s) c 0) in
  inv s1 ∧
  ∃ m, Dict.get (commands s1) c = Some m ∧ m = Dict.getD (commands s) c ∧
  match Dict.get (voters s) u with
  | None =>
      add_vote s u c0 =
        (with_voters (with_commands s1 (Dict.set (commands s1) c (m + 1)))
           (Dict.set (voters s) u c), Returned true)
  | Some old =>
      if decide (old = c) then add_vote s u c0 = (s, Returned false)
      else ∃ n, Dict.get (commands s1) old = Some n ∧ 1 ≤ n ∧
             Dict.getD (commands s) old = n ∧
             add_vote s u c0 =
               (with_voters
                  (with_commands s1
                     (Dict.set (Dict.set (commands s1) old (n - 1)) c (m + 1)))
                  (Dict.set (voters s) u c), Returned true)
  end.
Proof.
  intros Hinv Hact c s1.
  assert (inv s1 ∧ voters s1 = voters s ∧
          (∀ k, Dict.getD (commands s1) k = Dict.getD (commands s) k) ∧
          Dict.mem (commands s1) c = true ∧
          (Dict.mem (commands s) c = true → s1 = s)) as (Hinv1 & Hv1 & HD1 & Hmem1 & Hs1).
  { subst s1. destruct (Dict.mem (commands s) c) eqn:Hmem; [done|].
    split; [by apply inv_zero_key|]. split; [done|]. simpl. split.
    - intros k. rewrite dict_getD_set. case_decide; [|done].
      subst. by rewrite dict_mem_getD.
    - split; [|done]. unfold Dict.mem. by rewrite dict_get_set_eq. }
  split; [done|].
  unfold Dict.mem in Hmem1.
  destruct (Dict.get (commands s1) c) as [m|] eqn:Hm; [|done].
  exists m. split; [done|]. split.
  { rewrite <- HD1. unfold Dict.getD. by rewrite Hm. }
  unfold add_vote. rewrite Hact. simpl. fold c. fold s1. rewrite Hv1.
  destruct (Dict.get (voters s) u) as [old|] eqn:Hu.
  - destruct (decide (old = c)) as [->|Hne].
    + f_equal. apply Hs1.
      destruct (inv_held_choice s u c Hinv Hu) as (n & Hn & _).
      by eapply dict_mem_get.
    + rewrite <- Hv1 in Hu.
      destruct (inv_held_choice s1 u old Hinv1 Hu) as (n & Hn & Hpos).
      exists n. split; [done|]. split; [done|]. split.
      { rewrite <- HD1. unfold Dict.getD. by rewrite Hn. }
      unfold decr_floor, incr. rewrite Hn. simpl.
      rewrite dict_get_set_ne, Hm by done. simpl.
      by rewrite Z.max_r by lia.
  - unfold incr. by rewrite Hm.
Qed.

Lemma add_vote_inactive s u c :
  active s = false → add_vote s u c = (s, Returned false).
Proof. unfold add_vote. by intros ->. Qed.

(** [add_vote] keeps the invariant and raises nothing. *)
Lemma add_vote_inv s u c :
  inv s → inv (add_vote s u c).1 ∧ ∃ b, (add_vote s u c).2 = Returned b.
Proof.
  intros Hinv. destruct (active s) eqn:Hact.
  2:{ rewrite add_vote_inactive by done. eauto. }
  destruct (add_vote_active s u c Hinv Hact) as (Hinv1 & m & Hm & _ & Hcase).
  set (c' := str_lower c) in *.
  set (s1 := if Dict.mem (commands s) c' then s
             else with_commands s (Dict.set (commands s) c' 0)) in *.
  assert (voters s1 = voters s) as Hv1.
  { subst s1. by destruct (Dict.mem (commands s) c'). }
  destruct (Dict.get (voters s) u) as [old|] eqn:Hu.
  - destruct (decide (old = c')) as [->|Hne].
    + rewrite Hcase. eauto.
    + destruct Hcase as (n & Hn & Hpos & _ & ->). simpl. split; [|eauto].
      rewrite <- Hv1 in Hu |- *.
      pose proof (inv_move_vote s1 u old c' n m Hinv1 Hu Hne Hn Hm) as H.
      by rewrite Z.max_r in H by lia.
  - rewrite Hcase. simpl. split; [|eauto].
    rewrite <- Hv1 in Hu |- *. by apply inv_new_voter.
Qed.

Lemma reachable_inv s : reachable s → inv s.
Proof.
  induction 1 as [cmd uid now dur|s uid cmd _ IH|s _ IH].
  - apply inv_create.
  - by apply add_vote_inv.
  - by apply inv_close.
Qed.

(** C2. In every session reachable from its creation, the sum of the
    per-command counts equals the number of voter entries, the voter
    entries are pairwise distinct, and no count is negative. *)
Theorem vote_session_counts_match_voters s :
  reachable s →
  total_votes s = Z.of_nat (length (voters s))
  ∧ NoDup (Dict.keys (voters s))
  ∧ Forall (λ kv, 0 ≤ kv.2) (commands s).
Proof.
  intros Hr. apply reachable_inv in Hr as [_ Hs Hn Hv _]. by repeat split.
Qed.

(** No [add_vote] call on a reachable session raises. *)
Lemma add_vote_returns s u c :
  reachable s → ∃ b, (add_vote s u c).2 = Returned b.
Proof. intros Hr. by apply add_vote_inv, reachable_inv. Qed.

(** After [add_vote] on an open session the voter holds the lower-cased
    command. *)
Lemma add_vote_holds_choice s u c :
  reachable s → active s = true →
  Dict.get (voters (add_vote s u c).1) u = Some (str_lower c).
Proof.
  intros Hr Hact.
  destruct (add_vote_active s u c (reachable_inv s Hr) Hact)
    as (_ & m & _ & _ & Hcase).
  destruct (Dict.get (voters s) u) as [old|] eqn:Hu.
  - destruct (decide (old = str_lower c)) as [->|Hne].
    + by rewrite Hcase.
    + destruct Hcase as (n & _ & _ & _ & ->). simpl. apply dict_get_set_eq.
  - rewrite Hcase. simpl. apply dict_get_set_eq.
Qed.

(** What [add_vote] does for a voter who holds a choice. It lower-cases
    the command it is given and compares that with the choice held. On
    an active reachable session where voter [u] holds [old]: casting a
    command whose lower-cased form is [old] changes nothing; casting any
    other command takes exactly one vote from [old], gives exactly one
    to the lower-cased command, leaves every other count, every other
    voter and the total unchanged, and leaves no count negative. *)
Theorem add_vote_same_noop_different_moves_one s u c old :
  reachable s → active s = true → Dict.get (voters s) u = Some old →
  let choice := str_lower c in
  let s' := (add_vote s u c).1 in
  (choice = old → add_vote s u c = (s, Returned false))
  ∧ (choice ≠ old →
       (add_vote s u c).2 = Returned true
       ∧ Dict.getD (commands s') old = Dict.getD (commands s) old - 1
       ∧ Dict.getD (commands s') choice = Dict.getD (commands s) choice + 1
       ∧ (∀ k, k ≠ old → k ≠ choice →
            Dict.getD (commands s') k = Dict.getD (commands s) k)
       ∧ total_votes s' = total_votes s
       ∧ Forall (λ kv, 0 ≤ kv.2) (commands s')
       ∧ Dict.get (voters s') u = Some choice
       ∧ (∀ v, v ≠ u → Dict.get (voters s') v = Dict.get (voters s) v)
       ∧ length (voters s') = length (voters s)).
Proof.
  intros Hr Hact Hu choice s'.
  pose proof (reachable_inv s Hr) as Hinv.
  pose proof (reachable_inv _ (reach_add_vote s u c Hr)) as Hinv'.
  fold s' in Hinv'.
  destruct (add_vote_active s u c Hinv Hact) as (_ & m & Hm & HmD & Hcase).
  fold choice in Hm, HmD, Hcase. rewrite Hu in Hcase.
  set (s1 := if Dict.mem (commands s) choice then s
             else with_commands s (Dict.set (commands s) choice 0)) in *.
  assert (∀ k, Dict.getD (commands s1) k = Dict.getD (commands s) k) as HD1.
  { intros k. subst s1. destruct (Dict.mem (commands s) choice) eqn:Hmem; [done|].
    simpl. rewrite dict_getD_set. destruct (decide (choice = k)) as [Hk|]; [|done].
    rewrite <- Hk. symmetry. by apply dict_mem_getD. }
  split.
  - intros Heq. by rewrite decide_True in Hcase.
  - intros Hne. rewrite decide_False in Hcase by done.
    destruct Hcase as (n & Hn & Hpos & HnD & Hadd).
    assert (length (voters s') = length (voters s)) as Hlen.
    { subst s'. rewrite Hadd. simpl. rewrite dict_length_set.
      by rewrite (dict_mem_get _ _ _ Hu). }
    split; [by rewrite Hadd|].
    split; [|split; [|split; [|split; [|split; [|split; [|split]]]]]].
    + subst s'. rewrite Hadd. simpl. rewrite !dict_getD_set.
      rewrite decide_False, decide_True by done. lia.
    + subst s'. rewrite Hadd. simpl. rewrite !dict_getD_set.
      rewrite decide_True by done. lia.
    + intros k Hk1 Hk2. subst s'. rewrite Hadd. simpl. rewrite !dict_getD_set.
      rewrite !decide_False by done. apply HD1.
    + unfold total_votes. rewrite (inv_sum _ Hinv'), (inv_sum _ Hinv). by rewrite Hlen.
    + apply (inv_nonneg _ Hinv').
    + subst s'. rewrite Hadd. simpl. apply dict_get_set_eq.
    + intros v Hv. subst s'. rewrite Hadd. simpl. by apply dict_get_set_ne.
    + done.
Qed.

(** At a concrete session: "u1" opens a vote for "shutdown", "u2"
    joins it, then "u1" repeats the choice and afterwards switches. *)
Lemma add_vote_same_noop_different_moves_one_witness :
  let s := (add_vote (create "shutdown" "u1" 0%Qc 20) "u2" "shutdown").1 in
  add_vote s "u1" "Shutdown" = (s, Returned false)
  ∧ commands (add_vote s "u1" "forceshutdown").1
    = [("shutdown", 1); ("forceshutdown", 1)].
Proof.
  set (s0 := create "shutdown" "u1" 0%Qc 20).
  assert (reachable (add_vote s0 "u2" "shutdown").1) as Hr
    by (apply reach_add_vote, reach_create).
  split.
  - apply (add_vote_same_noop_different_moves_one _ "u1" "Shutdown" "shutdown" Hr);
      reflexivity.
  - reflexivity.
Defined.


(** C2 at the session reached by two voters and one change of mind. *)
Lemma vote_session_counts_match_voters_witness :
  let s := (add_vote (add_vote (create "shutdown" "u1" 0%Qc 20)
                        "u2" "forceshutdown").1 "u1" "forceshutdown").1 in
  total_votes s = 2 ∧ NoDup (Dict.keys (voters s))
  ∧ Forall (λ kv, 0 ≤ kv.2) (commands s).
Proof.
  apply (vote_session_counts_match_voters
           (add_vote (add_vote (create "shutdown" "u1" 0%Qc 20)
                        "u2" "forceshutdown").1 "u1" "forceshutdown").1).
  do 2 apply reach_add_vote. apply reach_create.
Defined.

End VoteSessionFacts.

Example get_vote_counts_stable :
  VoteSession.get_vote_counts
    (VoteSession.mk [("a", 1); ("b", 2); ("c", 1); ("d", 2)] [] 0%Qc 20 true)
  = [("b", 2); ("d", 2); ("a", 1); ("c", 1)].
Proof. reflexivity. Qed.

Example get_winner_first_maximum :
  VoteSession.get_winner
    (VoteSession.mk [("a", 1); ("b", 2); ("c", 1); ("d", 2)] [] 0%Qc 20 true)
  = Some "b".
Proof. reflexivity. Qed.

(** ** The vote slot (core/vote_system.py, VoteManager) *)

Section VoteManagerFacts.
Import VoteManager.

Lemma add_vote_keeps_active s u c :
  VoteSession.active (VoteSession.add_vote s u c).1 = VoteSession.active s.
Proof.
  unfold VoteSession.add_vote.
  destruct (VoteSession.active s) eqn:Hact; simpl; [|done].
  repeat (match goal with
          | |- context [match ?x with _ => _ end] => destruct x eqn:?
          end; simpl; try done).
Qed.

Lemma run_callbacks_not_sleeping w c v cbs : run_callbacks w c v cbs ≠ Sleeping.
Proof.
  induction cbs as [|cb rest IH]; simpl; [done|].
  by destruct (cb_suspends cb).
Qed.

Lemma active_session_Some m i s :
  active_session m = Some (i, s) →
  _current_session m = Some i ∧ sessions m !! i = Some s
  ∧ VoteSession.active s = true.
Proof.
  unfold active_session. intros H.
  destruct (_current_session m) as [j|]; [|done].
  destruct (sessions m !! j) as [s0|] eqn:Hs; [|done].
  destruct (VoteSession.active s0) eqn:Ha; [|done].
  by simplify_eq.
Qed.

(** With the slot free, no task is sleeping. *)
Lemma slot_free_no_sleeper m tid tk :
  slot_inv m → active_session m = None →
  tasks m !! tid = Some tk → task_pc tk ≠ Sleeping.
Proof.
  intros [Hinv _] Hfree Htk Hpc.
  destruct (Hinv tid tk Htk Hpc) as (Hcur & s & Hs & Ha).
  unfold active_session in Hfree. by rewrite Hcur, Hs, Ha in Hfree.
Qed.

(** A vote folded into the open session changes neither slot nor tasks. *)
Lemma slot_inv_with_session m i s s' :
  slot_inv m → sessions m !! i = Some s →
  VoteSession.active s' = VoteSession.active s →
  slot_inv (with_session m i s').
Proof.
  intros [Hinv Huniq] Hs Hact. split; [|done].
  intros tid tk Htk Hpc. simpl in *.
  destruct (Hinv tid tk Htk Hpc) as (Hcur & s0 & Hs0 & Ha). split; [done|].
  destruct (decide (i = task_session tk)) as [->|Hne].
  - exists s'. split; [|congruence].
    apply list_lookup_insert_eq. by eapply lookup_lt_Some.
  - exists s0. by rewrite list_lookup_insert_ne.
Qed.

Lemma slot_inv_start_vote m c u now :
  slot_inv m → slot_inv (start_vote m c u now).1.
Proof.
  intros Hinv. unfold start_vote.
  destruct (active_session m) as [[i s]|] eqn:Hact.
  - apply active_session_Some in Hact as (_ & Hs & _).
    pose proof (add_vote_keeps_active s u c) as Hk.
    destruct (VoteSession.add_vote s u c) as [s' r]. simpl in *.
    by eapply slot_inv_with_session.
  - simpl. split.
    + intros tid tk Htk Hpc. simpl in *.
      apply lookup_app_Some in Htk as [Htk|[Hlen Htk]].
      { by destruct (slot_free_no_sleeper m tid tk Hinv Hact Htk). }
      apply list_lookup_singleton_Some in Htk as [_ <-]. simpl.
      split; [done|]. exists (VoteSession.create c u now (vote_duration m)).
      split; [|done].
      rewrite lookup_app_r by done. by rewrite Nat.sub_diag.
    + intros t1 t2 k1 k2 H1 H2 Hp1 Hp2. simpl in *.
      apply lookup_app_Some in H1 as [H1|[Hl1 H1]].
      { by destruct (slot_free_no_sleeper m t1 k1 Hinv Hact H1). }
      apply lookup_app_Some in H2 as [H2|[Hl2 H2]].
      { by destruct (slot_free_no_sleeper m t2 k2 Hinv Hact H2). }
      apply list_lookup_singleton_Some in H1 as [H1 _].
      apply list_lookup_singleton_Some in H2 as [H2 _]. lia.
Qed.

Lemma slot_inv_cast_vote m u c : slot_inv m → slot_inv (cast_vote m u c).1.
Proof.
  intros Hinv. unfold cast_vote.
  destruct (active_session m) as [[i s]|] eqn:Hact; [|done].
  apply active_session_Some in Hact as (_ & Hs & _).
  pose proof (add_vote_keeps_active s u c) as Hk.
  destruct (VoteSession.add_vote s u c) as [s' r]. simpl in *.
  by eapply slot_inv_with_session.
Qed.

(** Moving one task to a state other than [Sleeping] leaves at most
    the other sleepers. *)
Lemma with_task_lookup m tid st t' tk' :
  tasks (with_task m tid st) !! t' = Some tk' →
  (t' = tid ∧ task_pc tk' = st)
  ∨ (t' ≠ tid ∧ tasks m !! t' = Some tk').
Proof.
  simpl. destruct (decide (t' = tid)) as [->|Hne].
  - rewrite list_lookup_alter_eq. intros H. left. split; [done|].
    destruct (tasks m !! tid); simpl in H; [|done]. by simplify_eq.
  - rewrite list_lookup_alter_ne by done. auto.
Qed.

Lemma slot_inv_timer_fires m tid m' :
  slot_inv m → timer_fires m tid = Some m' → slot_inv m'.
Proof.
  intros [Hinv Huniq] Hstep. unfold timer_fires in Hstep.
  destruct (tasks m !! tid) as [[i pc]|] eqn:Htk; [|done].
  destruct pc; try done.
  destruct (sessions m !! i) as [s|] eqn:Hs; [|done].
  simplify_eq.
  assert (∀ t' tk', tasks m !! t' = Some tk' → task_pc tk' = Sleeping → t' = tid)
    as Honly by (intros; by eapply Huniq).
  split.
  - intros t' tk' Htk' Hpc.
    apply with_task_lookup in Htk' as [[-> Hst]|[Hne Htk']].
    + rewrite Hpc in Hst. symmetry in Hst. by apply run_callbacks_not_sleeping in Hst.
    + by destruct Hne; eapply Honly.
  - intros t1 t2 k1 k2 H1 H2 Hp1 Hp2.
    apply with_task_lookup in H1 as [[-> Hst]|[Hne H1]].
    + rewrite Hp1 in Hst. symmetry in Hst. by apply run_callbacks_not_sleeping in Hst.
    + by destruct Hne; eapply Honly.
Qed.

Lemma slot_inv_resume m tid m' :
  slot_inv m → resume m tid = Some m' → slot_inv m'.
Proof.
  intros [Hinv Huniq] Hstep. unfold resume in Hstep.
  destruct (tasks m !! tid) as [[i pc]|] eqn:Htk; [|done].
  destruct pc as [|w c v [|k] pending|]; try done.
  simplify_eq.
  assert (∀ st, st = (match k with
                      | O => run_callbacks w c v pending
                      | S _ => Dispatching w c v k pending
                      end) → st ≠ Sleeping) as Hns.
  { intros st ->. destruct k; [apply run_callbacks_not_sleeping|done]. }
  split.
  - intros t' tk' Htk' Hpc.
    apply with_task_lookup in Htk' as [[-> Hst]|[Hne Htk']].
    + by destruct (Hns _ Hst).
    + simpl. by apply (Hinv t').
  - intros t1 t2 k1 k2 H1 H2 Hp1 Hp2.
    apply with_task_lookup in H1 as [[-> Hst]|[Hne1 H1]].
    { by destruct (Hns _ Hst). }
    apply with_task_lookup in H2 as [[-> Hst]|[Hne2 H2]].
    { by destruct (Hns _ Hst). }
    by eapply Huniq.
Qed.

Lemma reachable_slot_inv m : reachable m → slot_inv m.
Proof.
  induction 1 as [dur|m cb _ IH _|m e m' _ IH Hstep].
  - split; intros *; simpl; by rewrite lookup_nil.
  - done.
  - destruct e; simpl in Hstep; simplify_eq.
    + by apply slot_inv_start_vote.
    + by apply slot_inv_cast_vote.
    + by eapply slot_inv_timer_fires.
    + by eapply slot_inv_resume.
Qed.

Lemma reachable_run m es m' : reachable m → run m es = Some m' → reachable m'.
Proof.
  revert m. induction es as [|e es IH]; simpl; intros m Hr Hrun.
  - by simplify_eq.
  - destruct (step m e) as [m1|] eqn:Hstep; [|done].
    eapply IH; [|done]. by eapply reach_step.
Qed.

(** Every session object the manager holds was built by [start_vote]
    and changed only by [add_vote] and the closing step. *)
Lemma reachable_sessions m0 :
  reachable m0 → Forall VoteSession.reachable (sessions m0).
Proof.
  assert (∀ m i s u c, Forall VoteSession.reachable (sessions m) →
            sessions m !! i = Some s →
            Forall VoteSession.reachable
              (sessions (with_session m i (VoteSession.add_vote s u c).1))) as Hadd.
  { intros m i s u c Hall Hs. simpl. apply Forall_insert; [done|].
    apply VoteSession.reach_add_vote. by eapply Forall_lookup_1. }
  induction 1 as [dur|m cb _ IH _|m e m' _ IH Hstep]; [by constructor|done|].
  destruct e; simpl in Hstep; simplify_eq.
  - unfold start_vote. destruct (active_session m) as [[i s]|] eqn:Hact.
    + apply active_session_Some in Hact as (_ & Hs & _).
      specialize (Hadd m i s user_id command IH Hs).
      by destruct (VoteSession.add_vote s user_id command).
    + simpl. apply Forall_app. split; [done|].
      apply Forall_singleton, VoteSession.reach_create.
  - unfold cast_vote. destruct (active_session m) as [[i s]|] eqn:Hact; [|done].
    apply active_session_Some in Hact as (_ & Hs & _).
    specialize (Hadd m i s user_id command IH Hs).
    by destruct (VoteSession.add_vote s user_id command).
  - unfold timer_fires in Hstep.
    destruct (tasks m !! tid) as [[i pc]|]; [|done]. destruct pc; try done.
    destruct (sessions m !! i) as [s|] eqn:Hs; [|done]. simplify_eq. simpl.
    apply Forall_insert; [done|].
    apply VoteSession.reach_close. by eapply Forall_lookup_1.
  - unfold resume in Hstep.
    destruct (tasks m !! tid) as [[i pc]|]; [|done].
    destruct pc as [|w c v [|k] pending|]; try done. by simplify_eq.
Qed.

(** C1, as the code has it. While a session's timer is pending,
    [start_vote] folds the vote into that session: it creates no
    session, the only change to the manager is that the pending session
    takes the vote through [add_vote], after which the caller holds the
    lower-cased command there, and it returns [None]. Once the timer has
    fired and the closing step has marked the session inactive, the slot
    is free: [start_vote] creates a new session, whether or not the task
    has finished dispatching the result callbacks. *)
Theorem slot_reopens_at_close m tid m' cmd uid now :
  reachable m → timer_fires m tid = Some m' →
  (∃ i s,
     tasks m !! tid = Some {| task_session := i; task_pc := Sleeping |}
     ∧ sessions m !! i = Some s
     ∧ start_vote m cmd uid now
       = (with_session m i (VoteSession.add_vote s uid cmd).1, Returned None)
     ∧ Dict.get (VoteSession.voters (VoteSession.add_vote s uid cmd).1) uid
       = Some (str_lower cmd))
  ∧ (start_vote m cmd uid now).2 = Returned None
  ∧ active_session m' = None
  ∧ (start_vote m' cmd uid now).2 = Returned (Some (length (sessions m')))
  ∧ sessions (start_vote m' cmd uid now).1 !! length (sessions m')
    = Some (VoteSession.create cmd uid now (vote_duration m')).
Proof.
  intros Hr Hfire.
  pose proof (reachable_slot_inv m Hr) as [Hinv _].
  pose proof (reachable_sessions m Hr) as Hall.
  unfold timer_fires in Hfire.
  destruct (tasks m !! tid) as [[i pc]|] eqn:Htk; [|done].
  destruct pc; try done.
  destruct (Hinv tid _ Htk eq_refl) as (Hcur & s & Hs & Hact). simpl in *.
  rewrite Hs in Hfire. simplify_eq.
  assert (active_session m = Some (i, s)) as Hopen.
  { unfold active_session. by rewrite Hcur, Hs, Hact. }
  assert (active_session
            (with_task (with_session m i (VoteSession.with_active s false)) tid
               (run_callbacks
                  (VoteSession.get_winner (VoteSession.with_active s false))
                  (VoteSession.get_vote_counts (VoteSession.with_active s false))
                  (winning_voters (VoteSession.with_active s false)
                     (VoteSession.get_winner (VoteSession.with_active s false)))
                  (_on_result_callbacks m))) = None) as Hfree.
  { unfold active_session. simpl. rewrite Hcur.
    rewrite list_lookup_insert_eq by (by eapply lookup_lt_Some). done. }
  assert (VoteSession.reachable s) as Hrs by (by eapply Forall_lookup_1).
  assert (start_vote m cmd uid now
          = (with_session m i (VoteSession.add_vote s uid cmd).1, Returned None))
    as Hfold.
  { unfold start_vote. rewrite Hopen.
    destruct (add_vote_returns s uid cmd Hrs) as [b Hb].
    destruct (VoteSession.add_vote s uid cmd) as [s' r]. simpl in *. by subst. }
  split; [|split; [by rewrite Hfold|split; [done|]]].
  - exists i, s. repeat split; try done. by apply add_vote_holds_choice.
  - unfold start_vote. rewrite Hfree. simpl. split; [done|].
    rewrite lookup_app_r by done. by rewrite Nat.sub_diag.
Qed.

(** C1 at the scenario: the vote of "u1" is open, then its timer fires. *)
Lemma slot_reopens_at_close_witness :
  (∃ i s,
     tasks Scenario.manager_open !! 0%nat
     = Some {| task_session := i; task_pc := Sleeping |}
     ∧ sessions Scenario.manager_open !! i = Some s
     ∧ start_vote Scenario.manager_open "forceshutdown" "u2" 0%Qc
       = (with_session Scenario.manager_open i
            (VoteSession.add_vote s "u2" "forceshutdown").1, Returned None)
     ∧ Dict.get (VoteSession.voters
                   (VoteSession.add_vote s "u2" "forceshutdown").1) "u2"
       = Some (str_lower "forceshutdown"))
  ∧ (start_vote Scenario.manager_open "forceshutdown" "u2" 0%Qc).2 = Returned None
  ∧ active_session Scenario.manager_dispatching = None
  ∧ (start_vote Scenario.manager_dispatching "forceshutdown" "u2" 0%Qc).2
    = Returned (Some 1%nat)
  ∧ sessions (start_vote Scenario.manager_dispatching "forceshutdown" "u2" 0%Qc).1 !! 1%nat
    = Some (VoteSession.create "forceshutdown" "u2" 0%Qc 20).
Proof.
  apply (slot_reopens_at_close Scenario.manager_open 0
           Scenario.manager_dispatching "forceshutdown" "u2" 0%Qc).
  - apply (reachable_run Scenario.manager0 [EvStartVote "shutdown" "u1" 0%Qc]);
      [|reflexivity].
    apply reach_on_result; [apply reach_init|reflexivity].
  - reflexivity.
Defined.

(** C1 as stated fails: with the timer of the first session fired and
    its result callback still suspended, [start_vote] opens a second
    session. *)
Lemma slot_reused_during_dispatch :
  reachable Scenario.manager_dispatching
  ∧ ¬ slot_waits_for_dispatch Scenario.manager_dispatching.
Proof.
  split.
  - apply (reachable_run Scenario.manager0
             [EvStartVote "shutdown" "u1" 0%Qc; EvTimer 0]); [|reflexivity].
    apply reach_on_result; [apply reach_init|reflexivity].
  - intros Hwait.
    apply (Hwait "shutdown" "u2" 0%Qc 1%nat eq_refl
             {| task_session := 0;
                task_pc := Dispatching (Some "shutdown") [("shutdown", 1)]
                             ["u1"] 1 [] |}).
    + apply list_elem_of_here.
    + exact I.
Qed.

End VoteManagerFacts.

(** ** Further properties of the vote tables and the vote slot *)

Section VoteExtras.
Import VoteSession.

Lemma argmax_split best (d : Dict.t Z) :
  ∃ pre n post,
    best :: d = pre ++ (argmax best d, n) :: post
    ∧ Forall (λ kv, kv.2 < n) pre
    ∧ Forall (λ kv, kv.2 ≤ n) post.
Proof.
  revert best. induction d as [|[k n] r IH]; intros best; simpl.
  - exists [], best.2, []. destruct best. by repeat split.
  - destruct (Z.ltb_spec best.2 n) as [Hlt|Hge].
    + destruct (IH (k, n)) as (pre & m & post & Heq & Hpre & Hpost).
      exists (best :: pre), m, post. rewrite Heq. split; [done|]. split; [|done].
      apply Forall_cons. split; [|done].
      destruct pre as [|p pre']; simpl in Heq;
        pose proof (f_equal (hd best) Heq) as Hhd;
        pose proof (f_equal tail Heq) as Htl; simpl in Hhd, Htl.
      * apply (f_equal snd) in Hhd. simpl in Hhd. lia.
      * apply Forall_cons in Hpre as [Hp _]. subst p. simpl in Hp. lia.
    + destruct (IH best) as (pre & m & post & Heq & Hpre & Hpost).
      destruct pre as [|p pre']; simpl in Heq;
        pose proof (f_equal (hd best) Heq) as Hhd;
        pose proof (f_equal tail Heq) as Htl; simpl in Hhd, Htl.
      * exists [], m, ((k, n) :: r). split; [by rewrite <- Hhd|].
        split; [done|]. apply Forall_cons. split; [|by rewrite Htl].
        apply (f_equal snd) in Hhd. simpl in *. lia.
      * exists (p :: (k, n) :: pre'), m, post. subst p.
        split; [simpl; do 2 f_equal; exact Htl|]. split; [|done].
        apply Forall_cons in Hpre as [Hp Hpre].
        apply Forall_cons. split; [done|]. apply Forall_cons. split; [|done].
        simpl in *. lia.
Qed.

(** X1. [get_winner] answers [None] exactly on an empty table. Otherwise
    the winner is an entry of the table whose count no entry exceeds,
    and among the entries with that count it is the one inserted first. *)
Theorem get_winner_is_first_maximum s :
  (get_winner s = None ↔ commands s = [])
  ∧ ∀ w, get_winner s = Some w →
      ∃ pre n post,
        commands s = pre ++ (w, n) :: post
        ∧ Forall (λ kv, kv.2 < n) pre
        ∧ Forall (λ kv, kv.2 ≤ n) post.
Proof.
  unfold get_winner. destruct (commands s) as [|kv r]; split; try done.
  intros w [= <-]. apply argmax_split.
Qed.

Lemma insert_desc_perm kv (l : Dict.t Z) : insert_desc kv l ≡ₚ kv :: l.
Proof.
  induction l as [|kv' r IH]; simpl; [done|].
  destruct (kv'.2 <=? kv.2); [done|].
  rewrite IH. apply Permutation_swap.
Qed.

Lemma insert_desc_sorted kv (l : Dict.t Z) :
  StronglySorted (λ a b, b.2 ≤ a.2) l →
  StronglySorted (λ a b, b.2 ≤ a.2) (insert_desc kv l).
Proof.
  induction 1 as [|kv' r Hs IH Hall]; simpl.
  - repeat constructor.
  - destruct (Z.leb_spec kv'.2 kv.2) as [Hle|Hgt].
    + constructor; [by constructor|].
      apply Forall_cons. split; [done|].
      eapply Forall_impl; [exact Hall|]. simpl. intros; lia.
    + constructor; [done|].
      rewrite insert_desc_perm. apply Forall_cons. split; [lia|done].
Qed.

(** X2. [get_vote_counts] lists exactly the entries of the table, by
    non-increasing count. *)
Theorem get_vote_counts_sorted_permutation s :
  get_vote_counts s ≡ₚ commands s
  ∧ StronglySorted (λ a b, b.2 ≤ a.2) (get_vote_counts s).
Proof.
  unfold get_vote_counts. induction (commands s) as [|kv r [IHp IHs]]; simpl.
  - split; [done|constructor].
  - split; [by rewrite insert_desc_perm, IHp|by apply insert_desc_sorted].
Qed.

Lemma winning_voters_length s w :
  length (VoteManager.winning_voters s (Some w)) = Dict.count (voters s) w.
Proof.
  unfold VoteManager.winning_voters, Dict.count. rewrite length_fmap.
  f_equal. apply list_filter_iff. intros [u c]. simpl. split; congruence.
Qed.

Lemma dict_get_NoDup {V} (d : Dict.t V) u v :
  NoDup (Dict.keys d) → (u, v) ∈ d → Dict.get d u = Some v.
Proof.
  unfold Dict.keys. induction d as [|[k x] r IH]; simpl; intros Hnd Hin.
  - by apply elem_of_nil in Hin.
  - apply NoDup_cons in Hnd as [Hk Hnd].
    apply elem_of_cons in Hin as [[= -> ->]|Hin].
    + by rewrite decide_True.
    + destruct (decide (k = u)) as [->|]; [|by apply IH].
      destruct Hk. apply list_elem_of_fmap. by exists (u, v).
Qed.

(** X3. On a reachable session the voter ids collected for a winner are
    as many as the winner's count, and they are exactly the voters
    currently holding that choice. *)
Theorem winning_voters_match_count s w :
  reachable s →
  Z.of_nat (length (VoteManager.winning_voters s (Some w)))
  = Dict.getD (commands s) w
  ∧ ∀ u, u ∈ VoteManager.winning_voters s (Some w)
         ↔ Dict.get (voters s) u = Some w.
Proof.
  intros Hr. apply reachable_inv in Hr as [Hc _ _ Hv _]. split.
  - by rewrite winning_voters_length, Hc.
  - intros u. unfold VoteManager.winning_voters. split.
    + intros ([u' c] & -> & Hin)%list_elem_of_fmap.
      apply list_elem_of_filter in Hin as [Hc' Hin]. simpl in *.
      simplify_eq. by apply dict_get_NoDup.
    + intros Hu. apply list_elem_of_fmap. exists (u, w). split; [done|].
      apply list_elem_of_filter. split; [done|]. by apply dict_get_elem_of.
Qed.

(** X4. On a reachable open session [add_vote] returns [False] exactly
    when the voter already holds the (lower-cased) choice, and [True]
    for a first vote or a changed one. *)
Theorem add_vote_reports_change s u c :
  reachable s → active s = true →
  (add_vote s u c).2
  = Returned (negb (bool_decide (Dict.get (voters s) u = Some (str_lower c)))).
Proof.
  intros Hr Hact. apply reachable_inv in Hr.
  destruct (add_vote_active s u c Hr Hact) as (_ & m & _ & _ & Hcase).
  destruct (Dict.get (voters s) u) as [old|].
  - destruct (decide (old = str_lower c)) as [->|Hne].
    + by rewrite Hcase, bool_decide_eq_true_2.
    + destruct Hcase as (n & _ & _ & _ & ->).
      rewrite bool_decide_eq_false_2; [done|congruence].
  - by rewrite Hcase.
Qed.
End VoteExtras.

Lemma winning_voters_match_count_witness :
  let s := (VoteSession.add_vote
              (VoteSession.add_vote (VoteSession.create "shutdown" "u1" 0%Qc 20)
                 "u2" "forceshutdown").1 "u3" "Shutdown").1 in
  VoteManager.winning_voters s (Some "shutdown") = ["u1"; "u3"]
  ∧ Z.of_nat (length (VoteManager.winning_voters s (Some "shutdown")))
    = Dict.getD (VoteSession.commands s) "shutdown".
Proof.
  intros s. split; [reflexivity|].
  apply (winning_voters_match_count s "shutdown").
  do 2 apply VoteSession.reach_add_vote. apply VoteSession.reach_create.
Defined.

Lemma add_vote_reports_change_witness :
  let s := VoteSession.create "shutdown" "u1" 0%Qc 20 in
  (VoteSession.add_vote s "u1" "SHUTDOWN").2 = Returned false
  ∧ (VoteSession.add_vote s "u2" "SHUTDOWN").2 = Returned true.
Proof.
  split.
  - apply (add_vote_reports_change (VoteSession.create "shutdown" "u1" 0%Qc 20)
             "u1" "SHUTDOWN"); [apply VoteSession.reach_create|reflexivity].
  - apply (add_vote_reports_change (VoteSession.create "shutdown" "u1" 0%Qc 20)
             "u2" "SHUTDOWN"); [apply VoteSession.reach_create|reflexivity].
Defined.

Section VoteManagerExtras.
Import VoteManager.

Lemma with_active_false_id s :
  VoteSession.active s = false → VoteSession.with_active s false = s.
Proof. destruct s. simpl. by intros ->. Qed.

Lemma step_keeps_closed_session m e m' i s :
  step m e = Some m' → sessions m !! i = Some s →
  VoteSession.active s = false → sessions m' !! i = Some s.
Proof.
  intros Hstep Hs Hclosed.
  assert (∀ j sj s', active_session m = Some (j, sj) →
            sessions (with_session m j s') !! i = Some s) as Hfold.
  { intros j sj s' (_ & Hj & Hact)%active_session_Some. simpl.
    rewrite list_lookup_insert_ne; [done|]. intros ->. congruence. }
  destruct e; simpl in Hstep; simplify_eq.
  - unfold start_vote. destruct (active_session m) as [[j sj]|] eqn:Hact.
    + specialize (Hfold j sj (VoteSession.add_vote sj user_id command).1 eq_refl).
      by destruct (VoteSession.add_vote sj user_id command).
    + simpl. by apply lookup_app_l_Some.
  - unfold cast_vote. destruct (active_session m) as [[j sj]|] eqn:Hact; [|done].
    specialize (Hfold j sj (VoteSession.add_vote sj user_id command).1 eq_refl).
    by destruct (VoteSession.add_vote sj user_id command).
  - unfold timer_fires in Hstep.
    destruct (tasks m !! tid) as [[j pc]|]; [|done]. destruct pc; try done.
    destruct (sessions m !! j) as [sj|] eqn:Hj; [|done]. simplify_eq. simpl.
    destruct (decide (j = i)) as [->|Hne].
    + rewrite list_lookup_insert_eq by (by eapply lookup_lt_Some).
      simplify_eq. by rewrite with_active_false_id.
    + by rewrite list_lookup_insert_ne.
  - unfold resume in Hstep.
    destruct (tasks m !! tid) as [[j pc]|]; [|done].
    destruct pc as [|w c v [|k] pending|]; try done. by simplify_eq.
Qed.

(** X5. A closed session is final: whatever the manager does next
    (votes, new sessions, timers, callbacks), the tallies and voters of a
    session that has been marked inactive never change again. *)
Theorem closed_session_is_frozen m es m' i s :
  run m es = Some m' → sessions m !! i = Some s →
  VoteSession.active s = false → sessions m' !! i = Some s.
Proof.
  revert m. induction es as [|e es IH]; simpl; intros m Hrun Hs Hclosed.
  - by simplify_eq.
  - destruct (step m e) as [m1|] eqn:Hstep; [|done].
    eapply IH; [done| |done]. by eapply step_keeps_closed_session.
Qed.

(** X6. At most one session is open at a time: in every reachable state
    of the manager, a session that is still active is the one in the
    slot. *)
Theorem open_session_is_in_slot m i s :
  reachable m → sessions m !! i = Some s → VoteSession.active s = true →
  _current_session m = Some i.
Proof.
  intros Hr. revert i s.
  induction Hr as [dur|m cb _ IH _|m e m' _ IH Hstep]; intros i s Hs Hact.
  - simpl in Hs. by rewrite lookup_nil in Hs.
  - by eapply IH.
  - assert (∀ j sj s', active_session m = Some (j, sj) →
              sessions (with_session m j s') !! i = Some s →
              _current_session (with_session m j s') = Some i) as Hfold.
    { intros j sj s' (Hcur & Hj & _)%active_session_Some Hi. simpl in *.
      destruct (decide (j = i)) as [->|Hne]; [done|].
      rewrite list_lookup_insert_ne in Hi by done. by eapply IH. }
    destruct e; simpl in Hstep; simplify_eq.
    + unfold start_vote in *.
      destruct (active_session m) as [[j sj]|] eqn:Hopen.
      * specialize (Hfold j sj (VoteSession.add_vote sj user_id command).1 eq_refl).
        destruct (VoteSession.add_vote sj user_id command). by apply Hfold.
      * simpl in *. apply lookup_app_Some in Hs as [Hs|[Hlen Hs]].
        -- pose proof (IH i s Hs Hact) as Hcur.
           unfold active_session in Hopen. by rewrite Hcur, Hs, Hact in Hopen.
        -- apply list_lookup_singleton_Some in Hs as [Hi _].
           f_equal. lia.
    + unfold cast_vote in *.
      destruct (active_session m) as [[j sj]|] eqn:Hopen; [|by eapply IH].
      specialize (Hfold j sj (VoteSession.add_vote sj user_id command).1 eq_refl).
      destruct (VoteSession.add_vote sj user_id command). by apply Hfold.
    + unfold timer_fires in Hstep.
      destruct (tasks m !! tid) as [[j pc]|]; [|done]. destruct pc; try done.
      destruct (sessions m !! j) as [sj|] eqn:Hj; [|done]. simplify_eq.
      simpl in *. destruct (decide (j = i)) as [->|Hne].
      * rewrite list_lookup_insert_eq in Hs by (by eapply lookup_lt_Some).
        by simplify_eq.
      * rewrite list_lookup_insert_ne in Hs by done. by eapply IH.
    + unfold resume in Hstep.
      destruct (tasks m !! tid) as [[j pc]|]; [|done].
      destruct pc as [|w c v [|k] pending|]; try done. simplify_eq.
      by eapply IH.
Qed.

Lemma timer_fires_frees_slot m tid m' :
  reachable m → timer_fires m tid = Some m' → active_session m' = None.
Proof.
  intros Hr Hfire.
  pose proof (reachable_slot_inv m Hr) as [Hinv _].
  unfold timer_fires in Hfire.
  destruct (tasks m !! tid) as [[i pc]|] eqn:Htk; [|done].
  destruct pc; try done.
  destruct (Hinv tid _ Htk eq_refl) as (Hcur & s & Hs & Hact). simpl in *.
  rewrite Hs in Hfire. simplify_eq.
  unfold active_session. simpl. rewrite Hcur.
  by rewrite list_lookup_insert_eq by (by eapply lookup_lt_Some).
Qed.

Lemma step_keeps_slot_free m e m' :
  reachable m → active_session m = None →
  (∀ c u now, e ≠ EvStartVote c u now) →
  step m e = Some m' → active_session m' = None.
Proof.
  intros Hr Hfree Hns Hstep. destruct e; simpl in Hstep.
  - by destruct (Hns command user_id now).
  - unfold cast_vote in Hstep. rewrite Hfree in Hstep. by simplify_eq.
  - by eapply timer_fires_frees_slot.
  - unfold resume in Hstep.
    destruct (tasks m !! tid) as [[j pc]|]; [|done].
    destruct pc as [|w c v [|k] pending|]; try done. by simplify_eq.
Qed.

(** X7. Once a session's timer has fired, votes are refused until a new
    vote is started: after any further steps of the manager other than
    [start_vote] (casts, callbacks of the result dispatch running or
    ending), [cast_vote] returns [False] and changes nothing. *)
Theorem cast_vote_refused_after_close m tid m' es m'' u c :
  reachable m → timer_fires m tid = Some m' →
  Forall (λ e, ∀ c u now, e ≠ EvStartVote c u now) es →
  run m' es = Some m'' →
  cast_vote m'' u c = (m'', Returned false).
Proof.
  intros Hr Hfire Hes Hrun.
  assert (reachable m') as Hr' by (by apply (reach_step m (EvTimer tid))).
  pose proof (timer_fires_frees_slot m tid m' Hr Hfire) as Hfree.
  clear Hr Hfire. revert m' Hr' Hfree Hrun.
  induction Hes as [|e es He _ IH]; simpl; intros m' Hr' Hfree Hrun.
  - simplify_eq. unfold cast_vote. by rewrite Hfree.
  - destruct (step m' e) as [m1|] eqn:Hstep; [|done].
    apply (IH m1); [by eapply reach_step|by eapply step_keeps_slot_free|done].
Qed.
End VoteManagerExtras.

Lemma closed_session_is_frozen_witness :
  ∃ m', VoteManager.run Scenario.manager_dispatching
          [VoteManager.EvCastVote "u2" "forceshutdown";
           VoteManager.EvStartVote "forceshutdown" "u3" 0%Qc;
           VoteManager.EvResume 0] = Some m'
        ∧ VoteManager.sessions m' !! 0%nat
          = Some (VoteSession.with_active
                    (VoteSession.create "shutdown" "u1" 0%Qc 20) false).
Proof.
  eexists. split; [reflexivity|].
  apply (closed_session_is_frozen Scenario.manager_dispatching
           [VoteManager.EvCastVote "u2" "forceshutdown";
            VoteManager.EvStartVote "forceshutdown" "u3" 0%Qc;
            VoteManager.EvResume 0]); reflexivity.
Defined.

Lemma open_session_is_in_slot_witness :
  VoteManager._current_session Scenario.manager_open = Some 0%nat.
Proof.
  apply (open_session_is_in_slot Scenario.manager_open 0%nat
           (VoteSession.create "shutdown" "u1" 0%Qc 20)).
  - apply (reachable_run Scenario.manager0
             [VoteManager.EvStartVote "shutdown" "u1" 0%Qc]); [|reflexivity].
    apply VoteManager.reach_on_result; [apply VoteManager.reach_init|reflexivity].
  - reflexivity.
  - reflexivity.
Defined.

Lemma cast_vote_refused_after_close_witness :
  ∃ m'', VoteManager.run Scenario.manager_dispatching
           [VoteManager.EvCastVote "u3" "shutdown"; VoteManager.EvResume 0]
         = Some m''
         ∧ VoteManager.cast_vote m'' "u2" "shutdown" = (m'', Returned false).
Proof.
  eexists. split; [reflexivity|].
  apply (cast_vote_refused_after_close Scenario.manager_open 0%nat
           Scenario.manager_dispatching
           [VoteManager.EvCastVote "u3" "shutdown"; VoteManager.EvResume 0]).
  - apply (reachable_run Scenario.manager0
             [VoteManager.EvStartVote "shutdown" "u1" 0%Qc]); [|reflexivity].
    apply VoteManager.reach_on_result; [apply VoteManager.reach_init|reflexivity].
  - reflexivity.
  - repeat constructor; intros; discriminate.
  - reflexivity.
Defined.

(** ** Admission control (core/rate_limiter.py, RateLimiter) *)

Section RateLimiterFacts.
Import RateLimiter.

Lemma defaultdict_getitem_value d k :
  (defaultdict_getitem d k).1 = default 0%Qc (d !! k).
Proof. unfold defaultdict_getitem. by destruct (d !! k). Qed.

Lemma defaultdict_getitem_table d k :
  (defaultdict_getitem d k).2 = d
  ∨ (d !! k = None ∧ (defaultdict_getitem d k).2 = <[k := 0%Qc]> d).
Proof. unfold defaultdict_getitem. destruct (d !! k); simpl; auto. Qed.

Lemma defaultdict_getitem_reads d k k' :
  default 0%Qc ((defaultdict_getitem d k).2 !! k') = default 0%Qc (d !! k').
Proof.
  destruct (defaultdict_getitem_table d k) as [->|[Hk ->]]; [done|].
  destruct (decide (k = k')) as [->|Hne].
  - by rewrite lookup_insert_eq, Hk.
  - by rewrite lookup_insert_ne.
Qed.

(** The limiter [check] leaves behind: [r] itself, or [r] with the
    per-user table as the defaultdict lookup left it. *)
Lemma check_state r now u c :
  (check r now u c).1 = r
  ∨ (check r now u c).1
    = with_user_last r (defaultdict_getitem (_user_last r) u).2.
Proof.
  unfold check.
  destruct (Qclt_le_dec _ _); [by left|]. right.
  destruct (defaultdict_getitem (_user_last r) u) as [last ul]. simpl.
  destruct (Qclt_le_dec _ _); [done|].
  destruct (if decide (c = "") then None else _command_intervals r !! c); [|done].
  by destruct (Qclt_le_dec _ _).
Qed.

(** The answer of [check] depends on the per-user table only through
    the timestamps read from it, a missing entry reading as 0. *)
Lemma check_answer_ext r1 r2 now u c :
  user_cooldown r1 = user_cooldown r2 →
  global_cooldown r1 = global_cooldown r2 →
  _global_last r1 = _global_last r2 →
  _command_cooldowns r1 = _command_cooldowns r2 →
  _command_intervals r1 = _command_intervals r2 →
  (∀ k, default 0%Qc (_user_last r1 !! k) = default 0%Qc (_user_last r2 !! k)) →
  (check r1 now u c).2 = (check r2 now u c).2.
Proof.
  intros Huc Hgc Hgl Hcc Hci Hul. unfold check.
  rewrite Hgc, Hgl.
  destruct (Qclt_le_dec _ _); [done|].
  pose proof (defaultdict_getitem_value (_user_last r1) u) as H1.
  pose proof (defaultdict_getitem_value (_user_last r2) u) as H2.
  destruct (defaultdict_getitem (_user_last r1) u) as [l1 ul1].
  destruct (defaultdict_getitem (_user_last r2) u) as [l2 ul2].
  simpl in *. rewrite Huc, Hcc, Hci.
  assert (l1 = l2) as -> by (rewrite H1, H2; apply Hul).
  destruct (Qclt_le_dec _ _); [done|].
  destruct (if decide (c = "") then None else _command_intervals r2 !! c); [|done].
  by destruct (Qclt_le_dec _ _).
Qed.

(** C4, as the code has it. [check] changes no cooldown setting, not the
    global timestamp, not the per-command tables and no timestamp read
    for any user, so every later answer of [check] is the same as if
    the call had not happened. The per-user table itself may gain one
    key: the queried user, with value 0, when it had no entry. *)
Theorem check_keeps_timestamps r now u c :
  let r' := (check r now u c).1 in
  user_cooldown r' = user_cooldown r
  ∧ global_cooldown r' = global_cooldown r
  ∧ _global_last r' = _global_last r
  ∧ _command_cooldowns r' = _command_cooldowns r
  ∧ _command_intervals r' = _command_intervals r
  ∧ (∀ k, default 0%Qc (_user_last r' !! k) = default 0%Qc (_user_last r !! k))
  ∧ (_user_last r' = _user_last r
     ∨ (_user_last r !! u = None
        ∧ _user_last r' = <[u := 0%Qc]> (_user_last r)))
  ∧ (∀ now' u' c', (check r' now' u' c').2 = (check r now' u' c').2).
Proof.
  intros r'.
  assert (user_cooldown r' = user_cooldown r
          ∧ global_cooldown r' = global_cooldown r
          ∧ _global_last r' = _global_last r
          ∧ _command_cooldowns r' = _command_cooldowns r
          ∧ _command_intervals r' = _command_intervals r
          ∧ (∀ k, default 0%Qc (_user_last r' !! k)
                  = default 0%Qc (_user_last r !! k))
          ∧ (_user_last r' = _user_last r
             ∨ (_user_last r !! u = None
                ∧ _user_last r' = <[u := 0%Qc]> (_user_last r))))
    as (Huc & Hgc & Hgl & Hcc & Hci & Hread & Htab).
  { subst r'. destruct (check_state r now u c) as [->| ->]; simpl.
    - repeat split; auto.
    - repeat split; auto using defaultdict_getitem_reads.
      apply defaultdict_getitem_table. }
  repeat (split; [done|]).
  intros now' u' c'. by apply check_answer_ext.
Qed.

(** C4 as stated fails: a first [check] for a user the limiter has not
    seen adds that user to the per-user table. *)
Lemma check_inserts_unseen_user :
  let r := init (Q2Qc 3) (Q2Qc (1 # 2)) in
  let r' := (check r (Q2Qc 100) "u1" "move").1 in
  (check r (Q2Qc 100) "u1" "move").2 = (true, NoReason)
  ∧ dom (_user_last r) = ∅
  ∧ dom (_user_last r') = {["u1"]}
  ∧ r' ≠ r.
Proof.
  split; [reflexivity|]. split; [reflexivity|].
  assert (_user_last (check (init (Q2Qc 3) (Q2Qc (1 # 2))) (Q2Qc 100) "u1" "move").1
          = {["u1" := 0%Qc]}) as Hul by reflexivity.
  split.
  - rewrite Hul. apply dom_singleton_L.
  - intros Heq. apply (f_equal _user_last) in Heq. rewrite Hul in Heq.
    apply (f_equal (λ m, m !! "u1")) in Heq.
    simpl in Heq. by rewrite lookup_singleton_eq in Heq.
Qed.

Lemma check_after_record r t1 u1 c1 now u c :
  (now - t1 < global_cooldown r)%Qc →
  check (record r t1 u1 c1) now u c
  = (record r t1 u1 c1, (false, ServerBusy (global_cooldown r - (now - t1))%Qc)).
Proof.
  intros Hlt. unfold check. simpl.
  destruct (Qclt_le_dec _ _) as [_|Hle]; [done|].
  exfalso. by apply (Qclt_not_le _ _ Hlt).
Qed.

(** C5, as the code has it. After two [record] calls [delta] apart with
    [0 <= delta < G], a [check] at the time of the second call is denied
    by the global scope with the full cooldown [G] as remaining wait:
    the second [record] restarted it. [G - delta] is what a [check]
    reports [delta] after a single [record]. *)
Theorem check_after_two_records_waits_full_cooldown r t1 delta u c :
  (0 ≤ delta)%Qc → (delta < global_cooldown r)%Qc →
  let t2 := (t1 + delta)%Qc in
  let r1 := record r t1 u c in
  let r2 := record r1 t2 u c in
  check r2 t2 u c = (r2, (false, ServerBusy (global_cooldown r)))
  ∧ check r1 t2 u c = (r1, (false, ServerBusy (global_cooldown r - delta)%Qc)).
Proof.
  intros Hpos Hlt t2 r1 r2. split.
  - subst r2. rewrite check_after_record.
    + do 3 f_equal. simpl. ring.
    + simpl. replace (t2 - t2)%Qc with 0%Qc by ring.
      by eapply Qcle_lt_trans.
  - subst r1. rewrite check_after_record.
    + do 3 f_equal. subst t2. ring.
    + subst t2. by replace (t1 + delta - t1)%Qc with delta by ring.
Qed.

(** C5 with cooldown 10, records at 100 and 105. *)
Lemma check_after_two_records_waits_full_cooldown_witness :
  let r := init (Q2Qc 3) (Q2Qc 10) in
  let r1 := record r (Q2Qc 100) "u1" "move" in
  let r2 := record r1 (Q2Qc 100 + Q2Qc 5)%Qc "u1" "move" in
  check r2 (Q2Qc 100 + Q2Qc 5)%Qc "u1" "move"
    = (r2, (false, ServerBusy (Q2Qc 10)))
  ∧ check r1 (Q2Qc 100 + Q2Qc 5)%Qc "u1" "move"
    = (r1, (false, ServerBusy (Q2Qc 10 - Q2Qc 5)%Qc)).
Proof.
  apply (check_after_two_records_waits_full_cooldown
           (init (Q2Qc 3) (Q2Qc 10)) (Q2Qc 100) (Q2Qc 5) "u1" "move").
  - vm_compute. discriminate.
  - reflexivity.
Defined.

(** C5 as stated fails: with cooldown 10 and records at 100 and 105 the
    reported wait is 10, not about 5. *)
Lemma wait_is_not_cooldown_minus_gap :
  ¬ wait_is_cooldown_minus_gap (init (Q2Qc 3) (Q2Qc 10)) (Q2Qc 100) (Q2Qc 5)
      "u1" "move".
Proof.
  intros Hclaim.
  destruct Hclaim as (w & Hw & _ & Hup); [done|done|].
  assert (denied_wait
            (check
               (record (record (init (Q2Qc 3) (Q2Qc 10)) (Q2Qc 100) "u1" "move")
                  (Q2Qc 100 + Q2Qc 5)%Qc "u1" "move")
               (Q2Qc 100 + Q2Qc 5)%Qc "u1" "move").2 = Some (Q2Qc 10)) as Hten
    by (vm_compute; reflexivity).
  assert (Some w = Some (Q2Qc 10)) as [= ->] by (rewrite <- Hw; exact Hten).
  vm_compute in Hup. by apply Hup.
Qed.

End RateLimiterFacts.

Section RateLimiterExtras.
Import RateLimiter.

(** X8. [check] admits exactly when all three scopes have run out: the
    global cooldown since the last admission, the user cooldown since
    this user's last admission (never, for an unseen user), and, for a
    named command with a configured interval, that interval since the
    command's last admission. An admission carries the empty reason. *)
Theorem check_admits_iff_all_scopes_elapsed r now u c :
  ((check r now u c).2.1 = true ↔
     (global_cooldown r ≤ now - _global_last r)%Qc
     ∧ (user_cooldown r ≤ now - default 0%Qc (_user_last r !! u))%Qc
     ∧ (c = "" ∨ ∀ I, _command_intervals r !! c = Some I →
                      (I ≤ now - default 0%Qc (_command_cooldowns r !! c))%Qc))
  ∧ ((check r now u c).2.1 = true → (check r now u c).2.2 = NoReason).
Proof.
  unfold check.
  destruct (Qclt_le_dec (now - _global_last r) (global_cooldown r)) as [Hg|Hg].
  { simpl. split; [|done]. split; [done|]. intros (Hle & _).
    by apply Qcle_not_lt in Hle. }
  pose proof (defaultdict_getitem_value (_user_last r) u) as Hlast.
  destruct (defaultdict_getitem (_user_last r) u) as [last ul]. simpl in *.
  subst last.
  destruct (Qclt_le_dec _ (user_cooldown r)) as [Hu|Hu].
  { simpl. split; [|done]. split; [done|]. intros (_ & Hle & _).
    by apply Qcle_not_lt in Hle. }
  destruct (decide (c = "")) as [->|Hc].
  { simpl. split; [|done]. split; [|done]. intros _. auto. }
  destruct (_command_intervals r !! c) as [I|] eqn:HI.
  - destruct (Qclt_le_dec _ I) as [Hi|Hi]; simpl.
    + split; [|done]. split; [done|]. intros (_ & _ & [?|Hcmd]); [done|].
      specialize (Hcmd I eq_refl). by apply Qcle_not_lt in Hcmd.
    + split; [|done]. split; [|done]. intros _. repeat split; [done..|].
      right. intros I' [= <-]. done.
  - simpl. split; [|done]. split; [|done]. intros _. repeat split; [done..|].
    right. intros I' [=].
Qed.

(** X9. The per-user cooldown: after [record] for a user, a [check] for
    the same user [d] later, with the global cooldown over but the user
    cooldown not, is denied with the remaining [user_cooldown - d], and
    leaves the limiter as it is. *)
Theorem check_after_record_user_cooldown r t d u c c' :
  (global_cooldown r ≤ d)%Qc → (d < user_cooldown r)%Qc →
  check (record r t u c) (t + d)%Qc u c'
  = (record r t u c, (false, Cooldown (user_cooldown r - d)%Qc)).
Proof.
  intros Hg Hu. unfold check. simpl.
  replace (t + d - t)%Qc with d by ring.
  destruct (Qclt_le_dec d (global_cooldown r)) as [Hlt|_].
  { by apply Qcle_not_lt in Hg. }
  unfold defaultdict_getitem. rewrite lookup_insert_eq. simpl.
  replace (t + d - t)%Qc with d by ring.
  destruct (Qclt_le_dec d (user_cooldown r)) as [_|Hle].
  - done.
  - by apply Qcle_not_lt in Hle.
Qed.

(** X10. Scopes are per user and per command: a [record] for user [u]
    and command [c] does not change the answer another user gets for
    another command, once the global cooldown is over. *)
Theorem record_leaves_other_users_alone r t u c now v c' :
  v ≠ u → c' ≠ c →
  (global_cooldown r ≤ now - t)%Qc →
  (global_cooldown r ≤ now - _global_last r)%Qc →
  (check (record r t u c) now v c').2 = (check r now v c').2.
Proof.
  intros Hv Hc Hg1 Hg0. unfold check. simpl.
  destruct (Qclt_le_dec (now - t) (global_cooldown r)) as [Hlt|_].
  { by apply Qcle_not_lt in Hg1. }
  destruct (Qclt_le_dec (now - _global_last r) (global_cooldown r)) as [Hlt|_].
  { by apply Qcle_not_lt in Hg0. }
  pose proof (defaultdict_getitem_value (<[u:=t]> (_user_last r)) v) as H1.
  pose proof (defaultdict_getitem_value (_user_last r) v) as H2.
  rewrite lookup_insert_ne in H1 by done.
  destruct (defaultdict_getitem (<[u:=t]> (_user_last r)) v) as [l1 ul1].
  destruct (defaultdict_getitem (_user_last r) v) as [l2 ul2].
  simpl in *. subst l1 l2.
  destruct (Qclt_le_dec _ (user_cooldown r)); [done|].
  destruct (decide (c' = "")) as [->|Hne]; [done|].
  destruct (_command_intervals r !! c') as [I|]; [|done].
  assert ((if decide (c = "") then _command_cooldowns r
           else <[c:=t]> (_command_cooldowns r)) !! c'
          = _command_cooldowns r !! c') as ->.
  { destruct (decide (c = "")); [done|]. by rewrite lookup_insert_ne. }
  by destruct (Qclt_le_dec _ I).
Qed.

(** X11. The per-command cooldown: where an interval is configured for
    a command, an admission of that command by one user denies the
    command to every other user until the interval is over, with the
    remaining time as reason. *)
Theorem command_cooldown_denies_other_users r t u c now v I :
  c ≠ "" → _command_intervals r !! c = Some I → v ≠ u →
  (global_cooldown r ≤ now - t)%Qc →
  (user_cooldown r ≤ now - default 0%Qc (_user_last r !! v))%Qc →
  (now - t < I)%Qc →
  (check (record r t u c) now v c).2
  = (false, CommandCooldown c (I - (now - t))%Qc).
Proof.
  intros Hc HI Hv Hg Hu Hi. unfold check. simpl.
  destruct (Qclt_le_dec (now - t) (global_cooldown r)) as [Hlt|_].
  { by apply Qcle_not_lt in Hg. }
  pose proof (defaultdict_getitem_value (<[u:=t]> (_user_last r)) v) as H1.
  rewrite lookup_insert_ne in H1 by done.
  destruct (defaultdict_getitem (<[u:=t]> (_user_last r)) v) as [l1 ul1].
  simpl in *. subst l1.
  destruct (Qclt_le_dec _ (user_cooldown r)) as [Hlt|_].
  { by apply Qcle_not_lt in Hu. }
  rewrite !decide_False by done. rewrite HI, lookup_insert_eq. simpl.
  destruct (Qclt_le_dec (now - t) I) as [_|Hle]; [done|].
  by apply Qcle_not_lt in Hle.
Qed.

(** X12. [get_user_wait] is never negative, and it is zero exactly when
    the user scope of [check] would pass. *)
Theorem get_user_wait_nonneg_zero_iff_elapsed r now u :
  (0 ≤ (get_user_wait r now u).2)%Qc
  ∧ ((get_user_wait r now u).2 = 0%Qc
     ↔ (user_cooldown r ≤ now - default 0%Qc (_user_last r !! u))%Qc).
Proof.
  unfold get_user_wait.
  pose proof (defaultdict_getitem_value (_user_last r) u) as Hlast.
  destruct (defaultdict_getitem (_user_last r) u) as [last ul]. simpl in *.
  subst last. set (last := default 0%Qc (_user_last r !! u)).
  destruct (Qclt_le_dec (user_cooldown r - (now - last)) 0) as [Hneg|Hpos]; simpl.
  - split; [done|]. split; [intros _|done].
    apply Qclt_le_weak. apply (Qcplus_lt_mono_r _ _ (now - last)) in Hneg.
    by replace (user_cooldown r - (now - last) + (now - last))%Qc
      with (user_cooldown r) in Hneg by ring; rewrite Qcplus_0_l in Hneg.
  - split; [done|]. split.
    + intros Hz. apply (f_equal (λ x, x + (now - last))%Qc) in Hz.
      replace (user_cooldown r - (now - last) + (now - last))%Qc
        with (user_cooldown r) in Hz by ring.
      rewrite Qcplus_0_l in Hz. rewrite Hz. apply Qcle_refl.
    + intros Hle. apply Qcle_antisym; [|done].
      apply (Qcplus_le_mono_r _ _ (now - last)).
      replace (user_cooldown r - (now - last) + (now - last))%Qc
        with (user_cooldown r) by ring.
      by rewrite Qcplus_0_l.
Qed.
End RateLimiterExtras.

Lemma check_after_record_user_cooldown_witness :
  let r := RateLimiter.init (Q2Qc 3) (Q2Qc (1 # 2)) in
  RateLimiter.check (RateLimiter.record r (Q2Qc 100) "u1" "move")
    (Q2Qc 100 + Q2Qc 1)%Qc "u1" "click"
  = (RateLimiter.record r (Q2Qc 100) "u1" "move",
     (false, RateLimiter.Cooldown (Q2Qc 3 - Q2Qc 1)%Qc)).
Proof.
  apply (check_after_record_user_cooldown
           (RateLimiter.init (Q2Qc 3) (Q2Qc (1 # 2))) (Q2Qc 100) (Q2Qc 1)
           "u1" "move" "click").
  - vm_compute. discriminate.
  - reflexivity.
Defined.

Lemma record_leaves_other_users_alone_witness :
  let r := RateLimiter.init (Q2Qc 3) (Q2Qc (1 # 2)) in
  (RateLimiter.check (RateLimiter.record r (Q2Qc 100) "u1" "move")
     (Q2Qc 101) "u2" "click").2
  = (RateLimiter.check r (Q2Qc 101) "u2" "click").2.
Proof.
  apply (record_leaves_other_users_alone
           (RateLimiter.init (Q2Qc 3) (Q2Qc (1 # 2))) (Q2Qc 100) "u1" "move"
           (Q2Qc 101) "u2" "click").
  - discriminate.
  - discriminate.
  - vm_compute. discriminate.
  - vm_compute. discriminate.
Defined.

Lemma command_cooldown_denies_other_users_witness :
  let r := RateLimiter.set_command_cooldown
             (RateLimiter.init (Q2Qc 3) (Q2Qc (1 # 2))) "stats" (Q2Qc 10) in
  (RateLimiter.check (RateLimiter.record r (Q2Qc 100) "u1" "stats")
     (Q2Qc 105) "u2" "stats").2
  = (false, RateLimiter.CommandCooldown "stats" (Q2Qc 10 - (Q2Qc 105 - Q2Qc 100))%Qc).
Proof.
  apply (command_cooldown_denies_other_users
           (RateLimiter.set_command_cooldown
              (RateLimiter.init (Q2Qc 3) (Q2Qc (1 # 2))) "stats" (Q2Qc 10))
           (Q2Qc 100) "u1" "stats" (Q2Qc 105) "u2" (Q2Qc 10)).
  - discriminate.
  - vm_compute. reflexivity.
  - discriminate.
  - vm_compute. discriminate.
  - vm_compute. discriminate.
  - reflexivity.
Defined.

(** ** The execution queue (core/rate_limiter.py, ExecutionQueue) *)

Section ExecutionQueueFacts.
Import ExecutionQueue.
Context {A : Type}.
Implicit Types (q : t A) (xs : list A).

Lemma put_room q x :
  0 < maxsize q → Z.of_nat (length (_queue q)) < maxsize q →
  put q x = (mk (maxsize q) (_queue q ++ [x]) (dropped q), true).
Proof.
  intros Hpos Hroom. unfold put, put_nowait, full.
  destruct (Z.leb_spec (maxsize q) 0); [lia|].
  by destruct (Z.leb_spec (maxsize q) (Z.of_nat (length (_queue q)))); [lia|].
Qed.

Lemma put_full q x :
  0 < maxsize q → maxsize q ≤ Z.of_nat (length (_queue q)) →
  put q x = (mk (maxsize q) (_queue q) (dropped q + 1), false).
Proof.
  intros Hpos Hfull. unfold put, put_nowait, full.
  destruct (Z.leb_spec (maxsize q) 0); [lia|].
  by destruct (Z.leb_spec (maxsize q) (Z.of_nat (length (_queue q)))); [|lia].
Qed.

(** Items that fit are all accepted, in order, behind those waiting. *)
Lemma put_all_room q xs :
  0 < maxsize q →
  Z.of_nat (length (_queue q) + length xs) ≤ maxsize q →
  put_all q xs
  = (mk (maxsize q) (_queue q ++ xs) (dropped q), replicate (length xs) true).
Proof.
  revert q. induction xs as [|x xs IH]; intros q Hpos Hroom; simpl.
  - rewrite app_nil_r. by destruct q.
  - simpl in Hroom. rewrite put_room by lia.
    rewrite IH; simpl; rewrite ?length_app; simpl; [|done|lia].
    by rewrite <- app_assoc.
Qed.

(** [get] hands the waiting items out oldest first. *)
Lemma get_n_all C xs d :
  get_n (mk C xs d) (length xs) = Some (xs, mk C [] d).
Proof. induction xs as [|x xs IH]; simpl; [done|]. by rewrite IH. Qed.

(** C7. Into a fresh queue of capacity [C >= 1], [C + 1] puts succeed
    [C] times and fail exactly on the last; the drop counter goes from 0
    to 1; [C] gets then return the accepted items in submission order
    and leave the queue empty. *)
Theorem queue_overflow_drops_last (C : Z) xs (x : A) :
  0 < C → Z.of_nat (length xs) = C →
  dropped (init (A := A) C) = 0
  ∧ ∃ q, put_all (init C) (xs ++ [x]) = (q, replicate (length xs) true ++ [false])
         ∧ dropped q = 1
         ∧ size q = C
         ∧ ∃ q', get_n q (length xs) = Some (xs, q') ∧ get q' = None.
Proof.
  intros Hpos Hlen. split; [done|].
  assert (∀ q ys zs, put_all q (ys ++ zs)
                     = let '(q1, bs) := put_all q ys in
                       let '(q2, cs) := put_all q1 zs in (q2, bs ++ cs)) as Happ.
  { intros q ys. revert q. induction ys as [|y ys IH]; intros q zs; simpl.
    - by destruct (put_all q zs).
    - destruct (put q y) as [q1 b]. rewrite IH.
      destruct (put_all q1 ys) as [q2 bs].
      by destruct (put_all q2 zs) as [q3 cs]. }
  exists (mk C xs 1). rewrite Happ.
  rewrite put_all_room by (simpl; lia). simpl.
  rewrite put_full by (simpl; lia). simpl.
  split; [done|]. split; [done|]. split; [unfold size; simpl; lia|].
  exists (mk C [] 1). split; [apply get_n_all|done].
Qed.

(** A [max_size] of 0 or less gives asyncio's unbounded queue: no put
    is ever refused. *)
Lemma put_unbounded q x :
  maxsize q ≤ 0 → put q x = (mk (maxsize q) (_queue q ++ [x]) (dropped q), true).
Proof.
  intros Hle. unfold put, put_nowait, full.
  by destruct (Z.leb_spec (maxsize q) 0); [|lia].
Qed.

End ExecutionQueueFacts.

(** C7 at capacity 2 with three items. *)
Lemma queue_overflow_drops_last_witness :
  ExecutionQueue.dropped (ExecutionQueue.init (A := string) 2) = 0
  ∧ ∃ q, ExecutionQueue.put_all (ExecutionQueue.init 2) (["a"; "b"] ++ ["c"])
         = (q, [true; true; false])
         ∧ ExecutionQueue.dropped q = 1
         ∧ ExecutionQueue.size q = 2
         ∧ ∃ q', ExecutionQueue.get_n q 2 = Some (["a"; "b"], q')
                 ∧ ExecutionQueue.get q' = None.
Proof.
  apply (queue_overflow_drops_last 2 ["a"; "b"] "c"); [lia|reflexivity].
Defined.

Section ExecutionQueueExtras.
Import ExecutionQueue QueueRun.
Context {A : Type}.
Implicit Types (q : t A).

Lemma put_cases q x :
  put q x = (mk (maxsize q) (_queue q ++ [x]) (dropped q), true)
  ∨ (put q x = (mk (maxsize q) (_queue q) (dropped q + 1), false)
     ∧ 0 < maxsize q ≤ Z.of_nat (length (_queue q))).
Proof.
  unfold put, put_nowait, full.
  destruct (Z.leb_spec (maxsize q) 0); [by left|].
  destruct (Z.leb_spec (maxsize q) (Z.of_nat (length (_queue q)))); [|by left].
  right. split; [done|lia].
Qed.

Lemma run_accounting q ops :
  let q' := (run q ops).1 in
  let tr := (run q ops).2 in
  taken tr ++ _queue q' = _queue q ++ accepted tr
  ∧ dropped q' = dropped q + Z.of_nat (length (refused tr))
  ∧ maxsize q' = maxsize q
  ∧ (0 < maxsize q → Z.of_nat (length (_queue q)) ≤ maxsize q →
     Z.of_nat (length (_queue q')) ≤ maxsize q)
  ∧ (maxsize q ≤ 0 → refused tr = []).
Proof.
  revert q. induction ops as [|[x|] ops IH]; intros q; cbv zeta in *; simpl.
  - rewrite app_nil_r. repeat split; try done; try lia.
  - destruct (put_cases q x) as [Hput|[Hput Hfull]]; rewrite Hput;
      specialize (IH (put q x).1); rewrite Hput in IH; simpl in IH;
      destruct (run _ ops) as [q2 tr]; simpl in *;
      destruct IH as (Hfifo & Hdrop & Hmax & Hsize & Hunb).
    + rewrite Hfifo, <- app_assoc. repeat split; try done; try lia.
      intros Hpos Hle. apply Hsize; [done|]. rewrite length_app. simpl.
      unfold put, put_nowait, full in Hput.
      destruct (Z.leb_spec (maxsize q) 0); [lia|].
      destruct (Z.leb_spec (maxsize q) (Z.of_nat (length (_queue q))));
        [done|lia].
    + repeat split; try done; try lia.
  - unfold get. destruct (_queue q) as [|y rest] eqn:Hq.
    + specialize (IH q). rewrite Hq in IH. apply IH.
    + specialize (IH (mk (maxsize q) rest (dropped q))).
      destruct (run _ ops) as [q2 tr]; simpl in *.
      destruct IH as (Hfifo & Hdrop & Hmax & Hsize & Hunb).
      rewrite Hfifo. repeat split; try done.
      intros Hpos Hle. apply Hsize; [done|]. lia.
Qed.

(** X13. Through any interleaving of [put] and [get] calls on a fresh
    queue, the items come out in the order they were accepted, none is
    lost or duplicated (what was taken plus what still waits is what was
    accepted), the drop counter equals the number of refused puts, the
    queue never holds more than a positive [max_size], and with
    [max_size <= 0] nothing is ever refused. *)
Theorem queue_is_fifo_and_counts_drops (C : Z) (ops : list (op A)) :
  let q := (run (init C) ops).1 in
  let tr := (run (init C) ops).2 in
  taken tr ++ _queue q = accepted tr
  ∧ dropped q = Z.of_nat (length (refused tr))
  ∧ (0 < C → Z.of_nat (length (_queue q)) ≤ C)
  ∧ (C ≤ 0 → refused tr = []).
Proof.
  destruct (run_accounting (init C) ops) as (Hfifo & Hdrop & _ & Hsize & Hunb).
  simpl in *. repeat split; try done; try lia.
Qed.
End ExecutionQueueExtras.

Example queue_interleaving :
  QueueRun.run (ExecutionQueue.init 2)
    [QueueRun.Put "a"; QueueRun.Put "b"; QueueRun.Put "c"; QueueRun.Get;
     QueueRun.Put "d"; QueueRun.Get; QueueRun.Get; QueueRun.Get]
  = (ExecutionQueue.mk 2 [] 1, QueueRun.mkTrace ["a"; "b"; "d"] ["c"] ["a"; "b"; "d"]).
Proof. reflexivity. Qed.

(** ** Deduplication of inbound messages (api/youtube_chat.py) *)

Section MessageStreamFacts.
Import YouTubeChatClient.
Context (set_iter : gset string → list string).
Implicit Types (seen : gset string) (b : list ChatMessage).

(** After a batch the seen set holds what it held plus the batch. *)
Lemma yield_new_seen seen b :
  (yield_new seen b).1 = seen ∪ list_to_set (ids b).
Proof.
  revert seen. induction b as [|m b IH]; intros seen; simpl.
  - set_solver.
  - destruct (decide (message_id m ∈ seen)) as [Hin|Hnin].
    + rewrite IH. set_solver.
    + specialize (IH ({[message_id m]} ∪ seen)).
      destruct (yield_new ({[message_id m]} ∪ seen) b) as [seen' out].
      simpl in *. rewrite IH. set_solver.
Qed.

(** Within a batch: nothing already seen is yielded, nothing is yielded
    twice, and every message with an unseen id gets its id yielded. *)
Lemma yield_new_out seen b :
  NoDup (ids (yield_new seen b).2)
  ∧ (∀ x, x ∈ ids (yield_new seen b).2 ↔ x ∈ ids b ∧ x ∉ seen).
Proof.
  revert seen. induction b as [|m b IH]; intros seen; simpl.
  - split; [constructor|]. intros x. unfold ids. simpl. set_solver.
  - destruct (decide (message_id m ∈ seen)) as [Hin|Hnin].
    + destruct (IH seen) as [Hnd Hiff]. split; [done|].
      intros x. rewrite Hiff. unfold ids. simpl. set_solver.
    + destruct (IH ({[message_id m]} ∪ seen)) as [Hnd Hiff].
      destruct (yield_new ({[message_id m]} ∪ seen) b) as [seen' out].
      simpl in *. unfold ids in *. simpl. split.
      * apply NoDup_cons. split; [|done].
        intros Hx. apply Hiff in Hx. set_solver.
      * intros x. rewrite elem_of_cons, Hiff. rewrite elem_of_cons.
        destruct (decide (x = message_id m)) as [->|]; set_solver.
Qed.

Lemma size_list_to_set_le (l : list string) :
  (size (list_to_set (C := gset string) l) ≤ length l)%nat.
Proof.
  induction l as [|x l IH].
  - by rewrite list_to_set_nil, size_empty.
  - rewrite list_to_set_cons, size_union_alt, size_singleton. simpl.
    assert (size (list_to_set (C := gset string) l ∖ {[x]})
            ≤ size (list_to_set (C := gset string) l))%nat
      by (apply subseteq_size; set_solver).
    lia.
Qed.

Lemma trim_small seen :
  Z.of_nat (size seen) ≤ 10000 → trim set_iter seen = seen.
Proof. intros H. unfold trim. by destruct (Z.ltb_spec 10000 (Z.of_nat (size seen))); [lia|]. Qed.

Lemma trim_large seen :
  10000 < Z.of_nat (size seen) → Z.of_nat (size (trim set_iter seen)) ≤ 5000.
Proof.
  intros H. unfold trim.
  destruct (Z.ltb_spec 10000 (Z.of_nat (size seen))); [|lia].
  pose proof (size_list_to_set_le (last_n 5000 (set_iter seen))) as Hle.
  unfold last_n in *. rewrite length_drop in Hle. lia.
Qed.

Lemma ids_app b1 b2 : ids (b1 ++ b2) = ids b1 ++ ids b2.
Proof. unfold ids. apply fmap_app. Qed.

(** As long as the ids seen so far and those still to come fit under
    the cap, the stream yields no id twice and nothing already seen. *)
Lemma message_stream_from_within_cap seen polls :
  Z.of_nat (size (seen ∪ list_to_set (ids (concat polls)))) ≤ 10000 →
  NoDup (ids (message_stream_from set_iter seen polls))
  ∧ ∀ x, x ∈ ids (message_stream_from set_iter seen polls) → x ∉ seen.
Proof.
  revert seen. induction polls as [|b later IH]; intros seen Hcap; simpl.
  - split; [constructor|]. intros x Hx. by apply elem_of_nil in Hx.
  - simpl in Hcap. rewrite ids_app in Hcap. unfold poll_round.
    pose proof (yield_new_seen seen b) as Hseen.
    destruct (yield_new_out seen b) as [Hnd Hout].
    destruct (yield_new seen b) as [seen1 out]. simpl in *. subst seen1.
    assert (seen ∪ list_to_set (ids b) ∪ list_to_set (ids (concat later))
            = seen ∪ list_to_set (ids b ++ ids (concat later))) as Heq
      by (rewrite list_to_set_app_L; set_solver).
    rewrite trim_small.
    2:{ etrans; [|exact Hcap]. apply inj_le, subseteq_size.
        rewrite list_to_set_app_L. set_solver. }
    destruct (IH (seen ∪ list_to_set (ids b))) as [Hnd' Hfresh].
    { by rewrite Heq. }
    rewrite ids_app. split.
    + apply NoDup_app. split; [done|]. split; [|done].
      intros x Hx Hx'. apply Hfresh in Hx'. apply Hout in Hx as [Hx _].
      set_solver.
    + intros x [Hx|Hx]%elem_of_app.
      * by apply Hout in Hx as [_ ?].
      * apply Hfresh in Hx. set_solver.
Qed.





Section Enumeration.
(** A set is enumerated by listing members only. *)
Hypothesis set_iter_members : ∀ X x, x ∈ set_iter X → x ∈ X.

Lemma trim_subseteq seen : trim set_iter seen ⊆ seen.
Proof.
  unfold trim. destruct (10000 <? Z.of_nat (size seen)); [|done].
  intros x Hx%elem_of_list_to_set. apply set_iter_members.
  unfold last_n in Hx. by eapply subseteq_drop.
Qed.

(** An id that is delivered and not in the seen set is yielded. *)
Lemma message_stream_from_complete seen polls x :
  x ∈ ids (concat polls) →
  x ∈ seen ∨ x ∈ ids (message_stream_from set_iter seen polls).
Proof.
  revert seen. induction polls as [|b later IH]; intros seen; simpl.
  { intros Hx. by apply elem_of_nil in Hx. }
  rewrite ids_app. unfold poll_round.
  pose proof (yield_new_seen seen b) as Hseen.
  destruct (yield_new_out seen b) as [_ Hout].
  destruct (yield_new seen b) as [seen1 out]. simpl in *. subst seen1.
  assert (x ∈ ids b → x ∈ seen ∨ x ∈ ids (out ++ message_stream_from set_iter
            (trim set_iter (seen ∪ list_to_set (ids b))) later)) as Hnow.
  { intros Hb. destruct (decide (x ∈ seen)); [by left|]. right.
    rewrite ids_app. apply elem_of_app. left. by apply Hout. }
  intros [Hb|Hlater]%elem_of_app; [by apply Hnow|].
  destruct (IH (trim set_iter (seen ∪ list_to_set (ids b))) Hlater) as [Hk|Hy].
  - apply trim_subseteq in Hk. apply elem_of_union in Hk as [?|Hb]; [by left|].
    apply Hnow. by apply elem_of_list_to_set in Hb.
  - right. rewrite ids_app. apply elem_of_app. by right.
Qed.

End Enumeration.

End MessageStreamFacts.





Section MessageStreamExtras.
Import YouTubeChatClient.
Context (set_iter : gset string → list string).
Implicit Types (seen : gset string) (b : list ChatMessage).

(** X23. Within one poll the loop yields no message whose id it has
    seen, yields no id twice, and yields every id it has not seen;
    whatever the size of the seen set. *)
Theorem poll_round_yields_new_ids_once seen b :
  NoDup (ids (poll_round set_iter seen b).2)
  ∧ ∀ x, x ∈ ids (poll_round set_iter seen b).2 ↔ x ∈ ids b ∧ x ∉ seen.
Proof.
  unfold poll_round. pose proof (yield_new_out set_iter seen b) as H.
  by destruct (yield_new seen b).
Qed.

(** X24. The retention window is bounded: after every turn of the
    polling loop the set of seen ids holds at most 10000 ids, whatever
    arrived and in whatever order a set is enumerated. *)
Theorem seen_ids_bounded seen b :
  Z.of_nat (size (poll_round set_iter seen b).1) ≤ 10000.
Proof.
  unfold poll_round. destruct (yield_new seen b) as [seen1 out]. simpl.
  destruct (Z.lt_ge_cases 10000 (Z.of_nat (size seen1))) as [Hbig|Hsmall].
  - pose proof (trim_large set_iter seen1 Hbig). lia.
  - rewrite trim_small; lia.
Qed.

Lemma yield_new_sublist seen b : (yield_new seen b).2 `sublist_of` b.
Proof.
  revert seen. induction b as [|m b IH]; intros seen; simpl; [done|].
  destruct (decide (message_id m ∈ seen)).
  - by apply sublist_cons.
  - specialize (IH ({[message_id m]} ∪ seen)).
    destruct (yield_new ({[message_id m]} ∪ seen) b). by apply sublist_skip.
Qed.

Lemma message_stream_from_sublist seen polls :
  message_stream_from set_iter seen polls `sublist_of` concat polls.
Proof.
  revert seen. induction polls as [|b later IH]; intros seen; simpl; [done|].
  unfold poll_round. pose proof (yield_new_sublist seen b) as Hb.
  destruct (yield_new seen b) as [seen1 out]. by apply sublist_app.
Qed.

(** X25. The stream invents nothing and reorders nothing: what it yields
    is the delivered messages, in delivery order, with some left out. *)
Theorem message_stream_is_sublist polls :
  message_stream set_iter polls `sublist_of` concat polls.
Proof. apply message_stream_from_sublist. Qed.

Section Enumeration.
(** A set is enumerated by listing members only. *)
Hypothesis set_iter_members : ∀ X x, x ∈ set_iter X → x ∈ X.

(** X26. No message is lost: every message id delivered by some poll
    is yielded at least once, also across the cuts of the seen set. *)
Theorem message_stream_yields_every_id polls x :
  x ∈ ids (concat polls) → x ∈ ids (message_stream set_iter polls).
Proof.
  intros Hx.
  destruct (message_stream_from_complete set_iter set_iter_members ∅ polls x Hx)
    as [Hin|Hy]; [|done].
  by apply not_elem_of_empty in Hin.
Qed.
End Enumeration.
End MessageStreamExtras.

Lemma message_stream_yields_every_id_witness :
  "b" ∈ YouTubeChatClient.ids
          (YouTubeChatClient.message_stream elements
             [[Scenario.message "a"; Scenario.message "a"];
              [Scenario.message "a"; Scenario.message "b"]]).
Proof.
  apply (message_stream_yields_every_id elements).
  - intros X x Hx. by apply elem_of_elements in Hx.
  - vm_compute. do 3 apply list_elem_of_further. apply list_elem_of_here.
Defined.

(** ** The executor (commands/executor.py) *)

Section ExecutorFacts.
Import Parser CommandExecutor.
Context {S : Type} (rt : Runtime S) (config : Config.t).
Open Scope exec_scope.

Lemma sends_ret {A} P (a : A) : sends (S := S) P (ret a).
Proof. intros w. exists []. by rewrite app_nil_r. Qed.

Lemma sends_raise {A} P e : sends (S := S) P (raise (A := A) e).
Proof. intros w. exists []. by rewrite app_nil_r. Qed.

Lemma sends_lift {A} P (o : outcome A) : sends (S := S) P (lift o).
Proof. intros w. exists []. by rewrite app_nil_r. Qed.

Lemma sends_sleep P secs : sends (S := S) P (sleep secs).
Proof. intros w. exists []. simpl. by rewrite app_nil_r. Qed.

Lemma sends_vm_call P c : P c → sends P (vm_call rt c).
Proof.
  intros Hc w. exists [c]. unfold vm_call.
  destruct (vm_step rt c (vm_state w)). simpl. by split; [|constructor].
Qed.

Lemma sends_bind {A B} P (m : M (World S) A) (k : A → M (World S) B) :
  sends P m → (∀ a, sends P (k a)) → sends P (bind m k).
Proof.
  intros Hm Hk w. unfold bind. destruct (Hm w) as (n1 & Hc1 & HP1).
  destruct (m w) as [[a|e] w1]; simpl in *.
  - destruct (Hk a w1) as (n2 & Hc2 & HP2). exists (n1 ++ n2).
    rewrite Hc2, Hc1, app_assoc. split; [done|]. by apply Forall_app.
  - by exists n1.
Qed.

Lemma sends_try_except {A} P (m : M (World S) A) catches handler :
  sends P m → (∀ e, sends P (handler e)) → sends P (try_except m catches handler).
Proof.
  intros Hm Hh w. unfold try_except. destruct (Hm w) as (n1 & Hc1 & HP1).
  destruct (m w) as [[a|e] w1]; simpl in *.
  - by exists n1.
  - destruct (catches e); [|by exists n1].
    destruct (Hh e w1) as (n2 & Hc2 & HP2). exists (n1 ++ n2).
    rewrite Hc2, Hc1, app_assoc. split; [done|]. by apply Forall_app.
Qed.

Lemma clamp_bounds m x : 0 ≤ m → - m ≤ clamp (- m) m x ≤ m.
Proof. unfold clamp. lia. Qed.

Lemma clamp_scroll x : -10 ≤ clamp (-10) 10 x ≤ 10.
Proof. unfold clamp. lia. Qed.

(** Break a handler down into its steps. *)
Ltac sends_step :=
  first
    [ apply sends_ret | apply sends_raise | apply sends_lift | apply sends_sleep
    | apply sends_bind; [|intros ?]
    | apply sends_try_except; [|intros ?]
    | apply sends_vm_call; simpl; auto using clamp_bounds, clamp_scroll ].

Ltac sends_auto :=
  repeat first
    [ sends_step
    | match goal with
      | |- sends _ (match ?x with _ => _ end) => destruct x
      | |- sends _ (if ?b then _ else _) => destruct b
      | |- sends _ (let '(_, _) := ?x in _) => destruct x
      end ].

Lemma sends_getitem P args i : sends (S := S) P (getitem args i).
Proof. unfold getitem. sends_auto. Qed.

Lemma sends_int_float P s : sends P (int_float rt s).
Proof. unfold int_float. sends_auto. Qed.

#[local] Hint Resolve sends_getitem sends_int_float : core.

Section Bounded.
Hypothesis max_delta_nonneg : 0 ≤ Config.mouse_max_delta config.

Lemma sends_move args : sends (call_in_bounds config) (_move rt config args).
Proof.
  unfold _move. destruct args as [|a0 rest]; [apply sends_ret|].
  apply sends_bind.
  - destruct (DIRECTION_MAP (str_lower a0)) as [[dx dy]|]; sends_auto; auto.
  - intros [[dx dy]|early]; sends_auto.
Qed.

Lemma sends_two_ints args usage : sends (call_in_bounds config) (two_ints rt args usage).
Proof. unfold two_ints. sends_auto; auto. Qed.

Lemma sends_drag args : sends (call_in_bounds config) (_drag rt config args).
Proof.
  unfold _drag. apply sends_bind; [apply sends_two_ints|].
  intros [[dx dy]|early]; sends_auto.
Qed.

Lemma sends_scroll args : sends (call_in_bounds config) (_scroll rt args).
Proof.
  unfold _scroll. apply sends_bind; [sends_auto; auto|].
  intros [delta|early]; sends_auto.
Qed.

Lemma sends_route cmd : sends (call_in_bounds config) (route rt config cmd).
Proof.
  unfold route.
  repeat match goal with
         | |- sends _ (if decide ?c then _ else _) => destruct (decide c)
         end;
    try apply sends_move; try apply sends_drag; try apply sends_scroll;
    try apply sends_ret.
  all: unfold _startvm, _fullscreen, _abs, _click, _rclick, _type, _send,
         _key, _combo, _keydown, _keyup, _enter, _wait, _reset, _revert,
         _screenshot.
  all: try (apply sends_bind; [apply sends_two_ints|intros ?]).
  all: sends_auto; auto.
Qed.

Lemma sends_execute cmd user : sends (call_in_bounds config) (execute rt config cmd user).
Proof. unfold execute. apply sends_try_except; [apply sends_route|]. intros. apply sends_ret. Qed.
End Bounded.

(** C10. With a non-negative [mouse_max_delta], every call [execute]
    issues to the actuator, for any command and argument list, is within
    bounds: both deltas of a relative move or drag lie in
    [-mouse_max_delta, mouse_max_delta] and the delta of a scroll in
    [-10, 10]. *)
Theorem execute_calls_in_bounds cmd user w :
  0 ≤ Config.mouse_max_delta config →
  Forall (call_in_bounds config) (issued (execute rt config cmd user) w).
Proof.
  intros Hmax. unfold issued.
  destruct (sends_execute Hmax cmd user w) as (new & -> & Hnew).
  by rewrite drop_app_length.
Qed.

(** [execute] returns a result whatever the handler does: the handler's
    own result when it returns, the generic failure when it raises. *)
Lemma execute_returns cmd user w :
  ∃ r, (execute rt config cmd user w).1 = Returned r
       ∧ match (route rt config cmd w).1 with
         | Returned r0 => r = r0
         | Raised _ =>
             r = CommandResult.fail ("Error executing !" +:+ name cmd)
         end.
Proof.
  unfold execute, try_except.
  destruct (route rt config cmd w) as [[r0|e] w']; simpl; eauto.
Qed.

End ExecutorFacts.

(** C10 for "!move 5000 -7000" under the default limit of 300: the one
    call issued is the clamped move. *)
Lemma execute_calls_in_bounds_witness :
  let cmd := Scenario.parsed "move" ["5000"; "-7000"]
               CommandTier.CLASSIC Permission.VIEWER in
  CommandExecutor.issued (CommandExecutor.execute Scenario.runtime_ok Config.default cmd "Owner")
    Scenario.world0 = [MouseMove 300 (-300)]
  ∧ Forall (CommandExecutor.call_in_bounds Config.default)
      (CommandExecutor.issued (CommandExecutor.execute Scenario.runtime_ok Config.default cmd "Owner")
         Scenario.world0).
Proof.
  intros cmd. split; [vm_compute; reflexivity|].
  apply (execute_calls_in_bounds Scenario.runtime_ok Config.default cmd "Owner"
           Scenario.world0).
  vm_compute. discriminate.
Defined.

(** A direction with a step count beyond 10 moves ten steps, clamped. *)
Example execute_move_left_30 :
  CommandExecutor.execute Scenario.runtime_ok Config.default
    (Scenario.parsed "move" ["LEFT"; "30"] CommandTier.CLASSIC Permission.VIEWER)
    "Owner" Scenario.world0
  = (Returned (CommandResult.ok "🖱️ Moved (-300,0)" false),
     mkWorld tt [MouseMove (-300) 0] []).
Proof. vm_compute. reflexivity. Qed.

(** [int("--3")] raises inside [_move]; [execute] turns it into the
    generic failure and nothing reaches the actuator. *)
Example execute_move_bad_steps :
  CommandExecutor.execute Scenario.runtime_ok Config.default
    (Scenario.parsed "move" ["left"; "--3"] CommandTier.CLASSIC Permission.VIEWER)
    "Owner" Scenario.world0
  = (Returned (CommandResult.fail "Error executing !move"), Scenario.world0).
Proof. vm_compute. reflexivity. Qed.

(** [_key] indexes [args[0]] without a guard. *)
Example execute_key_without_args :
  CommandExecutor.execute Scenario.runtime_ok Config.default
    (Scenario.parsed "key" [] CommandTier.CLASSIC Permission.VIEWER)
    "Owner" Scenario.world0
  = (Returned (CommandResult.fail "Error executing !key"), Scenario.world0).
Proof. vm_compute. reflexivity. Qed.

Example execute_scroll_clamped :
  CommandExecutor.issued
    (CommandExecutor.execute Scenario.runtime_ok Config.default
       (Scenario.parsed "scroll" ["-30"] CommandTier.CLASSIC Permission.VIEWER)
       "Owner")
    Scenario.world0
  = [MouseScroll (-10)].
Proof. vm_compute. reflexivity. Qed.

Section ExecutorExtras.
Import Parser CommandExecutor ExecutorChecks.
Context {S : Type} (rt : Runtime S) (config : Config.t).
Open Scope exec_scope.

Section Rules.
Context (P : VMCall → Prop) (Z : PyFloat → Prop).

Lemma issues_ret {A} (Q : A → Prop) a : Q a → issues (S := S) P Z Q (ret a).
Proof.
  intros HQ w. exists [], []. rewrite !app_nil_r.
  repeat split; try done. by intros ? [= <-].
Qed.

Lemma issues_raise {A} (Q : A → Prop) e : issues (S := S) P Z Q (raise e).
Proof. intros w. exists [], []. rewrite !app_nil_r. by repeat split. Qed.

Lemma issues_lift {A} (Q : A → Prop) (o : outcome A) :
  (∀ a, o = Returned a → Q a) → issues (S := S) P Z Q (lift o).
Proof. intros HQ w. exists [], []. rewrite !app_nil_r. by repeat split. Qed.

Lemma issues_sleep secs : Z secs → issues (S := S) P Z any (sleep secs).
Proof.
  intros HZ w. exists [], [secs]. simpl. rewrite app_nil_r.
  repeat split; try done. by constructor.
Qed.

Lemma issues_vm_call c : P c → issues P Z any (vm_call rt c).
Proof.
  intros HP w. exists [c], []. unfold vm_call.
  destruct (vm_step rt c (vm_state w)). simpl. rewrite app_nil_r.
  repeat split; try done. by constructor.
Qed.

Lemma issues_bind {A B} (Q : A → Prop) (Q' : B → Prop)
    (m : M (World S) A) (k : A → M (World S) B) :
  issues P Z Q m → (∀ a, Q a → issues P Z Q' (k a)) →
  issues P Z Q' (bind m k).
Proof.
  intros Hm Hk w. unfold bind.
  destruct (Hm w) as (c1 & s1 & Hc1 & Hs1 & HP1 & HZ1 & HQ).
  destruct (m w) as [[a|e] w1]; simpl in *.
  - destruct (Hk a (HQ a eq_refl) w1) as (c2 & s2 & Hc2 & Hs2 & HP2 & HZ2 & HQ2).
    exists (c1 ++ c2), (s1 ++ s2). rewrite Hc2, Hc1, Hs2, Hs1, !app_assoc.
    repeat split; try done; by apply Forall_app.
  - exists c1, s1. by repeat split.
Qed.

Lemma issues_try_except {A} (Q : A → Prop) (m : M (World S) A) catches handler :
  issues P Z Q m → (∀ e, issues P Z Q (handler e)) →
  issues P Z Q (try_except m catches handler).
Proof.
  intros Hm Hh w. unfold try_except.
  destruct (Hm w) as (c1 & s1 & Hc1 & Hs1 & HP1 & HZ1 & HQ).
  destruct (m w) as [[a|e] w1]; simpl in *.
  - exists c1, s1. by repeat split.
  - destruct (catches e); [|exists c1, s1; by repeat split].
    destruct (Hh e w1) as (c2 & s2 & Hc2 & Hs2 & HP2 & HZ2 & HQ2).
    exists (c1 ++ c2), (s1 ++ s2). rewrite Hc2, Hc1, Hs2, Hs1, !app_assoc.
    repeat split; try done; by apply Forall_app.
Qed.

Lemma issues_any {A} (Q : A → Prop) (m : M (World S) A) :
  issues P Z Q m → issues P Z any m.
Proof.
  intros Hm w. destruct (Hm w) as (c1 & s1 & ? & ? & ? & ? & _).
  exists c1, s1. by repeat split.
Qed.
End Rules.

Lemma str_take_length n s : (String.length (str_take n s) ≤ n)%nat.
Proof.
  revert s. induction n as [|n IH]; intros [|c r]; simpl; try lia.
  specialize (IH r). lia.
Qed.

Lemma str_prefix_length n s :
  0 ≤ n → Z.of_nat (String.length (str_prefix n s)) ≤ n.
Proof.
  intros Hn. unfold str_prefix. destruct (Z.leb_spec 0 n); [|lia].
  pose proof (str_take_length (Z.to_nat n) s). lia.
Qed.

Lemma known_button_in b : known_button b ∈ BUTTONS.
Proof.
  unfold known_button, BUTTONS.
  destruct (bool_decide (b = "left")) eqn:H1; simpl.
  { apply bool_decide_eq_true in H1 as ->. set_solver. }
  destruct (bool_decide (b = "right")) eqn:H2; simpl.
  { apply bool_decide_eq_true in H2 as ->. set_solver. }
  destruct (bool_decide (b = "middle")) eqn:H3; simpl.
  { apply bool_decide_eq_true in H3 as ->. set_solver. }
  set_solver.
Qed.

(** [max(0.05, min(x, 2.0))] is between 0.05 and 2 whatever [x] is, also
    for an infinity or a NaN. *)
Lemma key_duration_clamped x :
  key_duration_ok (float_max (Finite (Q2Qc (5 # 100))) (float_min x (Finite (Q2Qc 2)))).
Proof.
  assert (Q2Qc (5 # 100) ≤ Q2Qc 2)%Qc as H52 by (vm_compute; discriminate).
  assert (Q2Qc (5 # 100) < Q2Qc 2)%Qc as H52' by reflexivity.
  unfold key_duration_ok, float_max, float_min.
  destruct x as [y| | |]; simpl.
  - destruct (Qclt_le_dec (Q2Qc 2) y) as [Hbig|Hsmall]; simpl.
    + exists (Q2Qc 2). repeat split; [done|apply Qcle_refl].
    + destruct (Qclt_le_dec (Q2Qc (5 # 100)) y) as [Hlo|Hlo].
      * exists y. repeat split; [by apply Qclt_le_weak|done].
      * exists (Q2Qc (5 # 100)). repeat split; [apply Qcle_refl|done].
  - exists (Q2Qc 2). repeat split; [done|apply Qcle_refl].
  - exists (Q2Qc (5 # 100)). repeat split; [apply Qcle_refl|done].
  - exists (Q2Qc (5 # 100)). repeat split; [apply Qcle_refl|done].
Qed.

Lemma key_duration_default : key_duration_ok (Finite (Q2Qc (1 # 10))).
Proof. exists (Q2Qc (1 # 10)). repeat split; vm_compute; discriminate. Qed.

Lemma inject_Z_mono (a b : Z) : a ≤ b → (Q2Qc (inject_Z a) ≤ Q2Qc (inject_Z b))%Qc.
Proof.
  intros Hab. unfold Qcle. cbn [this Q2Qc]. rewrite !Qred_correct.
  unfold Qle, inject_Z. simpl. lia.
Qed.

(** [max(0, min(secs, limit))] is a finite time between 0 and
    [max(0, limit)]. *)
Lemma wait_clamped secs limit bound :
  0 ≤ bound → limit ≤ bound →
  sleep_within bound
    (float_max (float_of_int 0) (float_min secs (float_of_int limit))).
Proof.
  intros Hb Hl.
  pose proof (inject_Z_mono 0 bound Hb) as H0b.
  pose proof (inject_Z_mono limit bound Hl) as Hlb.
  assert (∀ q, (q ≤ Q2Qc (inject_Z limit))%Qc →
            sleep_within bound (float_max (float_of_int 0) (Finite q))) as Hfin.
  { intros q Hq. unfold sleep_within, float_max, float_of_int. simpl.
    destruct (Qclt_le_dec (Q2Qc (inject_Z 0)) q) as [Hpos|Hneg].
    - exists q. repeat split; [by apply Qclt_le_weak|by eapply Qcle_trans].
    - exists (Q2Qc (inject_Z 0)). repeat split; [apply Qcle_refl|done]. }
  unfold float_min.
  destruct secs as [y| | |]; simpl.
  - destruct (Qclt_le_dec (Q2Qc (inject_Z limit)) y) as [Hbig|Hsmall].
    + apply Hfin, Qcle_refl.
    + by apply Hfin.
  - apply Hfin, Qcle_refl.
  - exists (Q2Qc (inject_Z 0)). repeat split; [apply Qcle_refl|done].
  - exists (Q2Qc (inject_Z 0)). repeat split; [apply Qcle_refl|done].
Qed.

Section Sanitized.
Ltac iss_step :=
  first
    [ apply issues_ret; exact I
    | apply issues_raise
    | apply issues_lift; intros; exact I
    | apply (issues_bind _ _ any); [|intros ? _]
    | apply issues_try_except; [|intros ?]
    | apply issues_vm_call; simpl;
      auto using known_button_in, str_prefix_length, key_duration_default ].

Ltac iss_auto :=
  repeat first
    [ iss_step
    | match goal with
      | |- issues _ _ _ (match ?x with _ => _ end) => destruct x
      | |- issues _ _ _ (if ?b then _ else _) => destruct b
      end ].

Lemma issues_getitem args i :
  issues (S := S) (call_sanitized config)
    (sleep_within (Z.max 3 (Config.max_wait_seconds config))) any
    (getitem args i).
Proof. unfold getitem. iss_auto. Qed.

Lemma issues_int_float s :
  issues (S := S) (call_sanitized config)
    (sleep_within (Z.max 3 (Config.max_wait_seconds config))) any
    (int_float rt s).
Proof. unfold int_float. iss_auto. Qed.

#[local] Hint Resolve issues_getitem issues_int_float : core.

Lemma issues_two_ints args usage :
  issues (S := S) (call_sanitized config)
    (sleep_within (Z.max 3 (Config.max_wait_seconds config))) any
    (two_ints rt args usage).
Proof. unfold two_ints. iss_auto; auto. Qed.

Lemma issues_move args :
  issues (S := S) (call_sanitized config)
    (sleep_within (Z.max 3 (Config.max_wait_seconds config))) any
    (_move rt config args).
Proof.
  unfold _move. destruct args as [|a0 rest]; [iss_auto|].
  apply (issues_bind _ _ any).
  - destruct (DIRECTION_MAP (str_lower a0)) as [[dx dy]|]; iss_auto; auto.
  - intros [[dx dy]|early] _; iss_auto.
Qed.

Lemma issues_abs args :
  issues (S := S) (call_sanitized config)
    (sleep_within (Z.max 3 (Config.max_wait_seconds config))) any
    (_abs rt config args).
Proof.
  unfold _abs. apply (issues_bind _ _ any); [apply issues_two_ints|].
  intros [[x y]|early] _; iss_auto.
  split; intros; unfold clamp; lia.
Qed.

Lemma issues_drag args :
  issues (S := S) (call_sanitized config)
    (sleep_within (Z.max 3 (Config.max_wait_seconds config))) any
    (_drag rt config args).
Proof.
  unfold _drag. apply (issues_bind _ _ any); [apply issues_two_ints|].
  intros [[x y]|early] _; iss_auto.
Qed.

Lemma issues_scroll args :
  issues (S := S) (call_sanitized config)
    (sleep_within (Z.max 3 (Config.max_wait_seconds config))) any
    (_scroll rt args).
Proof.
  unfold _scroll. apply (issues_bind _ _ any); [iss_auto; auto|].
  intros [delta|early] _; iss_auto.
Qed.

Lemma issues_key args :
  issues (S := S) (call_sanitized config)
    (sleep_within (Z.max 3 (Config.max_wait_seconds config))) any
    (_key rt args).
Proof.
  unfold _key. apply (issues_bind _ _ any); [auto|]. intros a0 _.
  apply (issues_bind _ _ key_duration_ok).
  - destruct (args !! 1%nat) as [a1|].
    + apply issues_try_except.
      * apply (issues_bind _ _ any); [iss_auto|]. intros x _.
        apply issues_ret, key_duration_clamped.
      * intros _. apply issues_ret, key_duration_default.
    + apply issues_ret, key_duration_default.
  - intros d Hd. iss_auto.
Qed.

Lemma issues_combo args :
  issues (S := S) (call_sanitized config)
    (sleep_within (Z.max 3 (Config.max_wait_seconds config))) any
    (_combo rt args).
Proof.
  unfold _combo. apply (issues_bind _ _ any); [auto|]. intros a0 _.
  destruct (Nat.ltb_spec 4 (length (str_split_on "+"%char (str_lower a0))));
    [iss_auto|].
  apply (issues_bind _ _ any); [|intros; iss_auto].
  apply issues_vm_call. simpl. lia.
Qed.

Lemma issues_wait args :
  issues (S := S) (call_sanitized config)
    (sleep_within (Z.max 3 (Config.max_wait_seconds config))) any
    (_wait rt config args).
Proof.
  unfold _wait. apply (issues_bind _ _ any); [iss_auto; auto|].
  intros [secs|early] _; [|iss_auto].
  apply (issues_bind _ _ any); [|intros; iss_auto].
  apply issues_sleep. apply wait_clamped; lia.
Qed.

Lemma issues_revert :
  issues (S := S) (call_sanitized config)
    (sleep_within (Z.max 3 (Config.max_wait_seconds config))) any
    (_revert rt config).
Proof.
  unfold _revert. apply (issues_bind _ _ any); [iss_auto|]. intros r _.
  apply (issues_bind _ _ any); [|intros; iss_auto].
  destruct (truthy r); [|iss_auto].
  apply (issues_bind _ _ any); [|intros; iss_auto].
  apply issues_sleep. exists (Q2Qc (inject_Z 3)).
  repeat split; [vm_compute; discriminate|].
  apply inject_Z_mono. lia.
Qed.

Lemma issues_route cmd :
  issues (S := S) (call_sanitized config)
    (sleep_within (Z.max 3 (Config.max_wait_seconds config))) any
    (route rt config cmd).
Proof.
  unfold route.
  repeat match goal with
         | |- issues _ _ _ (if decide ?c then _ else _) => destruct (decide c)
         end;
    first [ apply issues_move | apply issues_abs | apply issues_drag
          | apply issues_scroll | apply issues_key | apply issues_combo
          | apply issues_wait | apply issues_revert | idtac ].
  all: unfold _startvm, _fullscreen, _click, _rclick, _type, _send,
         _keydown, _keyup, _enter, _reset, _screenshot.
  all: iss_auto; auto.
  all: simpl; set_solver.
Qed.

Lemma issues_execute cmd user :
  issues (S := S) (call_sanitized config)
    (sleep_within (Z.max 3 (Config.max_wait_seconds config))) any
    (execute rt config cmd user).
Proof.
  unfold execute. apply issues_try_except; [apply issues_route|].
  intros. iss_auto.
Qed.
End Sanitized.

Lemma execute_sanitized cmd user w :
  Forall (call_sanitized config) (issued (execute rt config cmd user) w)
  ∧ Forall (sleep_within (Z.max 3 (Config.max_wait_seconds config)))
      (slept (execute rt config cmd user) w).
Proof.
  unfold issued, slept.
  destruct (issues_execute cmd user w) as (cs & ss & -> & -> & Hc & Hs & _).
  by rewrite !drop_app_length.
Qed.

(** X16. With non-negative screen limits, every absolute move [execute]
    issues lies on the configured screen: [0 <= x <= mouse_abs_x_max]
    and [0 <= y <= mouse_abs_y_max]. *)
Theorem execute_abs_in_bounds cmd user w :
  0 ≤ Config.mouse_abs_x_max config → 0 ≤ Config.mouse_abs_y_max config →
  Forall (abs_in_bounds config) (issued (execute rt config cmd user) w).
Proof.
  intros Hx Hy. eapply Forall_impl; [apply execute_sanitized|].
  intros [] Hc; simpl in *; try done. destruct Hc. auto.
Qed.

(** X17. With a non-negative [type_max_length], no text [execute] sends
    to be typed is longer than that. *)
Theorem execute_text_within_limit cmd user w :
  0 ≤ Config.type_max_length config →
  Forall (text_within_limit config) (issued (execute rt config cmd user) w).
Proof.
  intros Hn. eapply Forall_impl; [apply execute_sanitized|].
  intros [] Hc; simpl in *; auto.
Qed.

(** X18. Every key press [execute] issues is held for a finite time
    between 0.05 and 2 seconds, whatever the user wrote as duration
    (a huge number, an infinity, a NaN, or nothing). *)
Theorem execute_key_press_bounded cmd user w :
  Forall key_press_bounded (issued (execute rt config cmd user) w).
Proof.
  eapply Forall_impl; [apply execute_sanitized|].
  intros [] Hc; simpl in *; auto.
Qed.

Lemma known_button_requested b :
  known_button (str_lower b) = requested_button (Some b).
Proof.
  unfold known_button, requested_button, BUTTONS.
  generalize (str_lower b). intros word.
  destruct (decide (word = "left")) as [->|H1]; [by vm_compute|].
  destruct (decide (word = "right")) as [->|H2]; [by vm_compute|].
  destruct (decide (word = "middle")) as [->|H3]; [by vm_compute|].
  rewrite !bool_decide_eq_false_2 by done. simpl.
  rewrite bool_decide_eq_false_2; [done|]. set_solver.
Qed.

Lemma two_ints_button b args usage :
  issues (S := S) (button_is b) any any (two_ints rt args usage).
Proof.
  unfold two_ints, getitem, int_float.
  apply issues_try_except; [|intros; by apply issues_ret].
  repeat first
    [ apply (issues_bind _ _ any); [|intros ? _]
    | apply issues_lift; intros; exact I
    | apply issues_ret; exact I
    | apply issues_raise
    | match goal with
      | |- issues _ _ _ (match ?x with _ => _ end) => destruct x
      end ].
Qed.

Lemma issued_Forall {A} (P : VMCall → Prop) (m : M (World S) A) w :
  issues P any any m → Forall P (issued m w).
Proof.
  intros H. unfold issued. destruct (H w) as (cs & ss & -> & _ & Hc & _).
  by rewrite drop_app_length.
Qed.

Lemma execute_click_button cmd user w :
  name cmd = "click" →
  Forall (button_is (requested_button (head (args cmd))))
    (issued (execute rt config cmd user) w).
Proof.
  intros Hname. apply issued_Forall. unfold execute.
  apply issues_try_except; [|intros; by apply issues_ret].
  unfold route. rewrite Hname.
  repeat (rewrite decide_False by done). rewrite decide_True by done.
  unfold _click. apply (issues_bind _ _ any); [|intros; by apply issues_ret].
  apply issues_vm_call. simpl.
  destruct (args cmd) as [|b rest]; [by vm_compute|apply known_button_requested].
Qed.

Lemma execute_drag_button cmd user w :
  name cmd = "drag" →
  Forall (button_is (requested_button (args cmd !! 2%nat)))
    (issued (execute rt config cmd user) w).
Proof.
  intros Hname. apply issued_Forall. unfold execute.
  apply issues_try_except; [|intros; by apply issues_ret].
  unfold route. rewrite Hname.
  repeat (rewrite decide_False by done). rewrite decide_True by done.
  unfold _drag. apply (issues_bind _ _ any); [apply two_ints_button|].
  intros [[dx dy]|early] _; [|by apply issues_ret].
  apply (issues_bind _ _ any); [|intros; by apply issues_ret].
  apply issues_vm_call. simpl.
  destruct (args cmd !! 2%nat) as [b|]; [apply known_button_requested|by vm_compute].
Qed.

(** X19. Every click and drag [execute] issues names the left, right or
    middle button. For [click] it is the first argument and for [drag]
    the third, lower-cased, when that names one of the three buttons,
    and "left" when it names something else or is missing. *)
Theorem execute_buttons_known cmd user w :
  Forall button_known (issued (execute rt config cmd user) w)
  ∧ (name cmd = "click" →
     Forall (button_is (requested_button (head (args cmd))))
       (issued (execute rt config cmd user) w))
  ∧ (name cmd = "drag" →
     Forall (button_is (requested_button (args cmd !! 2%nat)))
       (issued (execute rt config cmd user) w)).
Proof.
  split; [|split; [apply execute_click_button|apply execute_drag_button]].
  eapply Forall_impl; [apply execute_sanitized|].
  intros [] Hc; simpl in *; auto.
Qed.

(** X20. No key combo [execute] passes on has more than four keys. *)
Theorem execute_combo_small cmd user w :
  Forall combo_small (issued (execute rt config cmd user) w).
Proof.
  eapply Forall_impl; [apply execute_sanitized|].
  intros [] Hc; simpl in *; auto.
Qed.

(** X21. [execute] never calls the controller's [shutdown], whatever
    command it is given: that method is called only by
    [execute_shutdown], that is, through a vote. What the controller's
    other methods do to the machine ([restore_snapshot], which [revert]
    calls, powers a running machine off before it restores) is behind
    the actuator and not part of this statement. *)
Theorem execute_never_calls_shutdown cmd user w :
  Forall not_shutdown (issued (execute rt config cmd user) w).
Proof.
  eapply Forall_impl; [apply execute_sanitized|].
  intros [] Hc; simpl in *; auto.
Qed.

(** X22. Every sleep inside [execute] is finite, not negative and at
    most [max(3, max_wait_seconds)] seconds, whatever number the user
    gave to [!wait]. *)
Theorem execute_sleeps_bounded cmd user w :
  Forall (sleep_within (Z.max 3 (Config.max_wait_seconds config)))
    (slept (execute rt config cmd user) w).
Proof. apply execute_sanitized. Qed.
End ExecutorExtras.

Lemma execute_abs_in_bounds_witness :
  let cmd := Scenario.parsed "abs" ["5000"; "-7"] CommandTier.CLASSIC Permission.VIEWER in
  CommandExecutor.issued
    (CommandExecutor.execute Scenario.runtime_ok Config.default cmd "Owner")
    Scenario.world0 = [MouseAbs 1920 0]
  ∧ Forall (ExecutorChecks.abs_in_bounds Config.default)
      (CommandExecutor.issued
         (CommandExecutor.execute Scenario.runtime_ok Config.default cmd "Owner")
         Scenario.world0).
Proof.
  intros cmd. split; [vm_compute; reflexivity|].
  apply (execute_abs_in_bounds Scenario.runtime_ok Config.default cmd "Owner"
           Scenario.world0); vm_compute; discriminate.
Defined.

Lemma execute_text_within_limit_witness :
  let cmd := Scenario.parsed "type" ["hello"] CommandTier.CLASSIC Permission.VIEWER in
  Forall (ExecutorChecks.text_within_limit Config.default)
    (CommandExecutor.issued
       (CommandExecutor.execute Scenario.runtime_ok Config.default cmd "Owner")
       Scenario.world0).
Proof.
  intros cmd.
  apply (execute_text_within_limit Scenario.runtime_ok Config.default cmd "Owner"
           Scenario.world0).
  vm_compute. discriminate.
Defined.

Example execute_key_huge_duration :
  CommandExecutor.issued
    (CommandExecutor.execute Scenario.runtime_ok Config.default
       (Scenario.parsed "key" ["Enter"; "500"] CommandTier.CLASSIC Permission.VIEWER)
       "Owner")
    Scenario.world0
  = [KeyPress "enter" (Finite (Q2Qc 2))].
Proof. vm_compute. reflexivity. Qed.

Example execute_wait_capped :
  ExecutorChecks.slept
    (CommandExecutor.execute Scenario.runtime_ok Config.default
       (Scenario.parsed "wait" ["500"] CommandTier.CLASSIC Permission.VIEWER)
       "Owner")
    Scenario.world0
  = [Finite (Q2Qc 10)].
Proof. vm_compute. reflexivity. Qed.

Example execute_click_unknown_button :
  CommandExecutor.issued
    (CommandExecutor.execute Scenario.runtime_ok Config.default
       (Scenario.parsed "click" ["Banana"] CommandTier.CLASSIC Permission.VIEWER)
       "viewer") Scenario.world0
  = [MouseClickV2 "left"].
Proof. reflexivity. Qed.

(** ** Parsing (commands/parser.py) *)

Section ParserFacts.
Import Parser.








Example parse_move :
  parse_command Scenario.shlex_plain "  !Move  left 3  "
  = Returned (Some (mkParsed "move" ["left"; "3"] "!Move  left 3"
                      CommandTier.CLASSIC Permission.VIEWER)).
Proof. vm_compute. reflexivity. Qed.

Example parse_type_rejoins :
  parse_command Scenario.shlex_plain "!type hello   world"
  = Returned (Some (mkParsed "type" ["hello world"] "!type hello   world"
                      CommandTier.CLASSIC Permission.VIEWER)).
Proof. vm_compute. reflexivity. Qed.

Example parse_too_few_args :
  parse_command Scenario.shlex_plain "!abs 1" = Returned None.
Proof. vm_compute. reflexivity. Qed.

Example parse_no_prefix :
  parse_command Scenario.shlex_plain "hello" = Returned None.
Proof. vm_compute. reflexivity. Qed.

End ParserFacts.

(** ** The orchestrator (core/bot.py) *)

Section BotFacts.
Import Parser YouTubeChatClient ArchChaosBot.
Context {St : Type} (rt : Runtime St).
Context (shlex_split : string → outcome (list string)).
Open Scope exec_scope.



(** One turn of the consumer never raises, keeps the running flag and
    takes at most the oldest item off the queue. *)
Lemma execution_loop_turn_total (b : t St) :
  (_execution_loop_turn rt b).1 = Returned tt
  ∧ _running (_execution_loop_turn rt b).2 = _running b
  ∧ ExecutionQueue._queue (queue (_execution_loop_turn rt b).2)
    = tail (ExecutionQueue._queue (queue b)).
Proof.
  remember (_execution_loop_turn rt b) as res eqn:Hres. revert Hres.
  unfold _execution_loop_turn, try_except, _execution_loop_try.
  unfold bind at 1. unfold queue_get, ExecutionQueue.get.
  destruct (ExecutionQueue._queue (queue b)) as [|[[cmd user] uid] rest] eqn:Hq.
  { cbn. intros ->. cbn. by rewrite Hq. }
  unfold bind at 1. unfold vm_ready.
  destruct (runs_without_vm (name cmd)).
  - unfold ret at 1. cbn [negb].
    unfold bind, get_bot, on_world, emit, ret. cbn.
    destruct (CommandExecutor.execute rt (config b) cmd user (world b))
      as [[r|e] w]; cbn; [|by intros ->].
    destruct (_ && _); [by intros ->|]. destruct (_ && _); by intros ->.
  - unfold bind at 1. unfold on_world at 1, CommandExecutor.vm_call. cbn.
    destruct (vm_step rt IsRunning (vm_state (world b))) as [[r|e] s]; cbn;
      [|by intros ->].
    destruct (truthy r); cbn; [|by intros ->].
    unfold bind, get_bot, on_world, emit, ret. cbn.
    destruct (CommandExecutor.execute rt (config b) cmd user _)
      as [[r'|e] w]; cbn; [|by intros ->].
    destruct (_ && _); [by intros ->|]. destruct (_ && _); by intros ->.
Qed.

(** The readiness gate touches only the actuator. *)
Lemma vm_ready_frame (b : t St) cmd :
  ∃ w, (vm_ready rt cmd b).2
       = mk (config b) (_running b) w (rate_limiter b) (vote_manager b)
            (queue b) (_banned b) (effects b).
Proof.
  unfold vm_ready. destruct (runs_without_vm (name cmd)).
  - exists (world b). by destruct b.
  - unfold bind, on_world, CommandExecutor.vm_call, ret.
    destruct (vm_step rt IsRunning (vm_state (world b))) as [[r|e] s]; cbn; eauto.
Qed.

(** A queued command whose handler raises: the turn ends normally and
    the requester is shown the generic failure notice. *)
Lemma failing_command_is_announced (b : t St) cmd user uid rest b1 e w' :
  ExecutionQueue._queue (queue b) = (cmd, user, uid) :: rest →
  vm_ready rt cmd (queue_get b).2 = (Returned true, b1) →
  CommandExecutor.route rt (config b) cmd (world b1) = (Raised e, w') →
  (_execution_loop_turn rt b).1 = Returned tt
  ∧ world (_execution_loop_turn rt b).2 = w'
  ∧ effects (_execution_loop_turn rt b).2
    = effects b ++ [AnnounceFor user ("Error executing !" +:+ name cmd);
                    ClearActiveCommand].
Proof.
  intros Hq Hready Hroute.
  remember (_execution_loop_turn rt b) as res eqn:Hres. revert Hres.
  unfold _execution_loop_turn, try_except, _execution_loop_try.
  unfold bind at 1.
  destruct (vm_ready_frame (queue_get b).2 cmd) as [w Hframe].
  rewrite Hready in Hframe. simpl in Hframe.
  revert Hready Hframe. unfold queue_get, ExecutionQueue.get. rewrite Hq.
  cbn [fst snd config _running world rate_limiter vote_manager queue _banned effects].
  intros Hready ->. unfold bind at 1. rewrite Hready. cbn [negb].
  unfold bind at 1. unfold get_bot at 1. cbn [config].
  unfold bind at 1. unfold on_world at 1. cbn [world].
  unfold CommandExecutor.execute, try_except. cbn [world] in Hroute.
  rewrite Hroute. cbn.
  rewrite bool_decide_eq_false_2 by done. cbn.
  intros ->. cbn. repeat split. by rewrite <- app_assoc.
Qed.



(** The consumer loop goes from turn to turn: it never raises, and
    while the bot is running each turn is followed by the next, so that
    [n] turns take the [n] oldest items off the queue, whatever their
    handlers did. *)
Lemma execution_loop_unfold (b : t St) n :
  _running b = true →
  _execution_loop rt (S n) b = _execution_loop rt n (_execution_loop_turn rt b).2.
Proof.
  intros Hrun. destruct (execution_loop_turn_total b) as (Hret & _ & _).
  cbn [_execution_loop]. unfold bind at 1. unfold get_bot at 1. rewrite Hrun.
  unfold bind at 1.
  destruct (_execution_loop_turn rt b) as [r b1]. simpl in Hret. by subst r.
Qed.

Lemma execution_loop_continues n (b : t St) :
  (_execution_loop rt n b).1 = Returned tt
  ∧ (_running b = true →
     _running (_execution_loop rt n b).2 = true
     ∧ ExecutionQueue._queue (queue (_execution_loop rt n b).2)
       = drop n (ExecutionQueue._queue (queue b))).
Proof.
  revert b. induction n as [|n IH]; intros b; [done|].
  destruct (_running b) eqn:Hrun.
  - rewrite execution_loop_unfold by done.
    destruct (execution_loop_turn_total b) as (_ & Hrun' & Hq).
    destruct (IH (_execution_loop_turn rt b).2) as [Hret Hnext].
    split; [done|]. intros _. rewrite Hrun' in Hnext.
    destruct (Hnext Hrun) as [Hr Hd]. split; [done|].
    rewrite Hd, Hq.
    destruct (ExecutionQueue._queue (queue b)); simpl; [by rewrite drop_nil|done].
  - split; [|done]. cbn [_execution_loop]. unfold bind, get_bot. by rewrite Hrun.
Qed.

(** C9. [execute] returns a result for every command, user and world:
    the handler's own result when the handler returns, and the failure
    result with the generic message "Error executing !name" when the
    handler raises. One turn of the consumer loop never raises either,
    keeps the running flag and takes the oldest item off the queue; when
    the handler of that item raises, the requester is shown the generic
    failure notice and the turn ends like any other. So the consumer
    loop continues: it never raises, and while the bot is running every
    turn, failed or not, is followed by the next one, [n] turns taking
    the [n] oldest items off the queue. *)
Theorem handler_failure_is_contained cfg cmd user w (b : t St) :
  (∃ r, (CommandExecutor.execute rt cfg cmd user w).1 = Returned r
        ∧ match (CommandExecutor.route rt cfg cmd w).1 with
          | Returned r0 => r = r0
          | Raised _ =>
              r = CommandResult.fail ("Error executing !" +:+ name cmd)
          end)
  ∧ (_execution_loop_turn rt b).1 = Returned tt
  ∧ _running (_execution_loop_turn rt b).2 = _running b
  ∧ ExecutionQueue._queue (queue (_execution_loop_turn rt b).2)
    = tail (ExecutionQueue._queue (queue b))
  ∧ (∀ qcmd quser quid rest b1 e w',
      ExecutionQueue._queue (queue b) = (qcmd, quser, quid) :: rest →
      vm_ready rt qcmd (queue_get b).2 = (Returned true, b1) →
      CommandExecutor.route rt (config b) qcmd (world b1) = (Raised e, w') →
      effects (_execution_loop_turn rt b).2
      = effects b ++ [AnnounceFor quser ("Error executing !" +:+ name qcmd);
                      ClearActiveCommand])
  ∧ (∀ n, (_execution_loop rt n b).1 = Returned tt)
  ∧ (_running b = true →
     ∀ n, _execution_loop rt (S n) b
          = _execution_loop rt n (_execution_loop_turn rt b).2
          ∧ _running (_execution_loop rt n b).2 = true
          ∧ ExecutionQueue._queue (queue (_execution_loop rt n b).2)
            = drop n (ExecutionQueue._queue (queue b))).
Proof.
  split; [apply execute_returns|].
  destruct (execution_loop_turn_total b) as (Hret & Hrun & Hq).
  repeat (split; [done|]).
  split; [|split].
  - intros qcmd quser quid rest b1 e w' Hhead Hready Hroute.
    by destruct (failing_command_is_announced b qcmd quser quid rest b1 e w'
                   Hhead Hready Hroute) as (_ & _ & ?).
  - intros n. apply execution_loop_continues.
  - intros Hb n. split; [by apply execution_loop_unfold|].
    by apply execution_loop_continues.
Qed.
End BotFacts.



(** C9 with an actuator whose every call raises and two "startvm" on the
    queue: the first ends in the generic failure notice, the loop turn
    returns, and two turns of the loop take both commands, the second
    failing like the first. *)
Lemma handler_failure_is_contained_witness :
  let cmd := Scenario.parsed "startvm" [] CommandTier.ADMIN Permission.ADMIN in
  let b := ArchChaosBot.mk Config.default true Scenario.world0
             (RateLimiter.init (Q2Qc 3) (Q2Qc (1 # 2))) (VoteManager.init 20)
             (ExecutionQueue.mk 50 [(cmd, "Owner", "UCowner"); (cmd, "Mod", "UCmod")] 0)
             ∅ [] in
  (CommandExecutor.execute Scenario.runtime_broken Config.default cmd "Owner"
     Scenario.world0).1
  = Returned (CommandResult.fail "Error executing !startvm")
  ∧ (ArchChaosBot._execution_loop_turn Scenario.runtime_broken b).1 = Returned tt
  ∧ ArchChaosBot.effects (ArchChaosBot._execution_loop_turn Scenario.runtime_broken b).2
    = [ArchChaosBot.AnnounceFor "Owner" "Error executing !startvm";
       ArchChaosBot.ClearActiveCommand]
  ∧ (ArchChaosBot._execution_loop Scenario.runtime_broken 2 b).1 = Returned tt
  ∧ ExecutionQueue._queue
      (ArchChaosBot.queue (ArchChaosBot._execution_loop Scenario.runtime_broken 2 b).2)
    = []
  ∧ ArchChaosBot.effects (ArchChaosBot._execution_loop Scenario.runtime_broken 2 b).2
    = [ArchChaosBot.AnnounceFor "Owner" "Error executing !startvm";
       ArchChaosBot.ClearActiveCommand;
       ArchChaosBot.AnnounceFor "Mod" "Error executing !startvm";
       ArchChaosBot.ClearActiveCommand].
Proof.
  intros cmd b.
  destruct (handler_failure_is_contained Scenario.runtime_broken Config.default
              cmd "Owner" Scenario.world0 b)
    as ((r & Hr & Hcase) & Hret & _ & _ & Hfail & Hloop & Hnext).
  destruct (Hnext eq_refl 2%nat) as (_ & _ & Hq).
  split; [|split; [exact Hret|split; [|split; [exact (Hloop 2%nat)|split; [exact Hq|]]]]].
  - rewrite Hr. f_equal. exact Hcase.
  - apply (Hfail cmd "Owner" "UCowner" [(cmd, "Mod", "UCmod")]
             (ArchChaosBot.queue_get b).2
             (RuntimeError "VBoxManage not found")
             (mkWorld tt [StartVM true] [])); reflexivity.
  - reflexivity.
Defined.

Section ParserExtras.
Import Parser.

Lemma ascii_lower_idemp c : ascii_lower (ascii_lower c) = ascii_lower c.
Proof. destruct c as [[] [] [] [] [] [] [] []]; reflexivity. Qed.

Lemma str_lower_idemp s : str_lower (str_lower s) = str_lower s.
Proof. induction s as [|c r IH]; simpl; [done|]. by rewrite ascii_lower_idemp, IH. Qed.

(** The lookup table holds the registry and nothing else: under a name
    is found the definition carrying that name. *)
Lemma registry_lookup n d :
  _CMD_MAP !! n = Some d → d ∈ COMMAND_DEFS ∧ def_name d = n.
Proof.
  assert (_CMD_MAP = list_to_map ((λ d, (def_name d, d)) <$> COMMAND_DEFS)) as ->
    by (vm_compute; reflexivity).
  intros Hin%elem_of_list_to_map_2.
  apply list_elem_of_fmap in Hin as (d' & [= -> ->] & Hd'). done.
Qed.

(** X14. A successful parse is well formed: the raw text is the
    stripped message and starts with "!", the name is lower case and is
    the name of a registry entry, tier and required permission are
    copied from that entry, and there are at least as many arguments as
    the entry's minimum. *)
Theorem parse_command_result_well_formed shlex_split text cmd :
  parse_command shlex_split text = Returned (Some cmd) →
  raw cmd = str_strip text
  ∧ str_startswith "!" (raw cmd) = true
  ∧ str_lower (name cmd) = name cmd
  ∧ ∃ d, d ∈ COMMAND_DEFS
         ∧ def_name d = name cmd
         ∧ tier cmd = def_tier d
         ∧ required_permission cmd = def_required_permission d
         ∧ min_args d ≤ Z.of_nat (length (args cmd)).
Proof.
  unfold parse_command. intros H.
  destruct (str_startswith "!" (str_strip text)) eqn:Hbang; [|done].
  cbn [negb] in H.
  destruct (match shlex_split (str_tail (str_strip text)) with
            | Returned parts => Returned parts
            | Raised ValueError => Returned (str_split_ws (str_tail (str_strip text)))
            | Raised e => Raised e
            end) as [[|first rest]|e]; try done.
  destruct (_CMD_MAP !! str_lower first) as [d|] eqn:Hd; [|done].
  destruct (Z.ltb_spec (Z.of_nat (length
              (if (bool_decide (str_lower first = "type")
                   || bool_decide (str_lower first = "send"))
                  && negb (bool_decide (rest = []))
               then [str_join " " rest] else rest))) (min_args d)); [done|].
  simplify_eq. simpl. repeat split; [done|apply str_lower_idemp|].
  apply registry_lookup in Hd as [Hin Hname]. by exists d.
Qed.

(** X15. Free text is never split: a parsed [type] or [send] command
    has exactly one argument, the words that follow the command name
    joined with single spaces. The words are those of [shlex.split] or,
    where that raises [ValueError], of [split()]. *)
Theorem parse_command_free_text_single_argument shlex_split text cmd :
  parse_command shlex_split text = Returned (Some cmd) →
  name cmd = "type" ∨ name cmd = "send" →
  ∃ first rest,
    (shlex_split (str_tail (str_strip text)) = Returned (first :: rest)
     ∨ shlex_split (str_tail (str_strip text)) = Raised ValueError
       ∧ str_split_ws (str_tail (str_strip text)) = first :: rest)
    ∧ str_lower first = name cmd
    ∧ rest ≠ []
    ∧ args cmd = [str_join " " rest].
Proof.
  unfold parse_command. intros H Hname.
  destruct (str_startswith "!" (str_strip text)); [|done].
  cbn [negb] in H.
  assert (∃ first rest,
            (shlex_split (str_tail (str_strip text)) = Returned (first :: rest)
             ∨ shlex_split (str_tail (str_strip text)) = Raised ValueError
               ∧ str_split_ws (str_tail (str_strip text)) = first :: rest)
            ∧ match shlex_split (str_tail (str_strip text)) with
              | Returned parts => Returned parts
              | Raised ValueError =>
                  Returned (str_split_ws (str_tail (str_strip text)))
              | Raised e => Raised e
              end = Returned (first :: rest)) as (first & rest & Hwords & Hparts).
  { destruct (shlex_split (str_tail (str_strip text))) as [[|first rest]|e];
      [done|by exists first, rest; split; [left|]|].
    destruct e; try done.
    destruct (str_split_ws (str_tail (str_strip text))) as [|first rest]; [done|].
    exists first, rest. split; [by right|done]. }
  rewrite Hparts in H. exists first, rest. split; [done|].
  destruct (_CMD_MAP !! str_lower first) as [d|] eqn:Hd; [|done].
  assert (min_args d = 1) as Hmin.
  { destruct Hname as [Hn|Hn];
      destruct (Z.of_nat _ <? min_args d); try done; simplify_eq; simpl in Hn;
      rewrite Hn in Hd; vm_compute in Hd; by simplify_eq. }
  assert (bool_decide (str_lower first = "type")
          || bool_decide (str_lower first = "send") = true) as Hfree.
  { destruct (Z.of_nat _ <? min_args d); [done|]. simplify_eq. simpl in Hname.
    destruct Hname as [-> | ->]; reflexivity. }
  rewrite Hfree, Hmin in H. simpl in H.
  destruct rest as [|a rest']; simpl in H; [done|].
  simplify_eq. by simpl.
Qed.
End ParserExtras.

Lemma parse_command_result_well_formed_witness :
  let cmd := Parser.mkParsed "move" ["left"; "3"] "!Move  left 3"
               CommandTier.CLASSIC Permission.VIEWER in
  Parser.raw cmd = str_strip "  !Move  left 3  "
  ∧ str_startswith "!" (Parser.raw cmd) = true
  ∧ str_lower (Parser.name cmd) = Parser.name cmd
  ∧ ∃ d, d ∈ Parser.COMMAND_DEFS
         ∧ Parser.def_name d = Parser.name cmd
         ∧ Parser.tier cmd = Parser.def_tier d
         ∧ Parser.required_permission cmd = Parser.def_required_permission d
         ∧ Parser.min_args d ≤ Z.of_nat (length (Parser.args cmd)).
Proof.
  apply (parse_command_result_well_formed Scenario.shlex_plain "  !Move  left 3  ").
  vm_compute. reflexivity.
Defined.

Lemma parse_command_free_text_single_argument_witness :
  let text := "!type hello   world" in
  let cmd := Parser.mkParsed "type" ["hello world"] text
               CommandTier.CLASSIC Permission.VIEWER in
  ∃ first rest,
    (Scenario.shlex_plain (str_tail (str_strip text)) = Returned (first :: rest)
     ∨ Scenario.shlex_plain (str_tail (str_strip text)) = Raised ValueError
       ∧ str_split_ws (str_tail (str_strip text)) = first :: rest)
    ∧ str_lower first = Parser.name cmd
    ∧ rest ≠ []
    ∧ Parser.args cmd = [str_join " " rest].
Proof.
  intros text cmd.
  apply (parse_command_free_text_single_argument Scenario.shlex_plain text cmd).
  - vm_compute. reflexivity.
  - left. reflexivity.
Defined.

(** ** More on the orchestrator (core/bot.py) *)

Section BotExtras.
Import Parser YouTubeChatClient ArchChaosBot BotChecks.
Context {St : Type} (rt : Runtime St).
Context (shlex_split : string → outcome (list string)).
Open Scope exec_scope.

Lemma preserves_ret {A B} (f : t St → B) (a : A) : preserves f (ret a).
Proof. by intros b. Qed.

Lemma preserves_lift {A B} (f : t St → B) (o : outcome A) : preserves f (lift o).
Proof. by intros b. Qed.

Lemma preserves_get_bot {B} (f : t St → B) : preserves f get_bot.
Proof. by intros b. Qed.

Lemma preserves_bind {A A' B} (f : t St → B) (m : M (t St) A) (k : A → M (t St) A') :
  preserves f m → (∀ a, preserves f (k a)) → preserves f (bind m k).
Proof.
  intros Hm Hk b. unfold bind. specialize (Hm b).
  destruct (m b) as [[a|e] b1]; simpl in *; [|done]. by rewrite Hk.
Qed.

Lemma preserves_try_except {A B} (f : t St → B) (m : M (t St) A) catches h :
  preserves f m → (∀ e, preserves f (h e)) → preserves f (try_except m catches h).
Proof.
  intros Hm Hh b. unfold try_except. specialize (Hm b).
  destruct (m b) as [[a|e] b1]; simpl in *; [done|].
  destruct (catches e); simpl; [|done]. by rewrite Hh.
Qed.

Lemma actuator_emit e : preserves (St:=St) actuator_side (emit e).
Proof. by intros b. Qed.

Lemma actuator_set_banned s : preserves (St:=St) actuator_side (set_banned s).
Proof. by intros b. Qed.

Lemma actuator_rate_check u c now : preserves (St:=St) actuator_side (rate_check u c now).
Proof. intros b. unfold rate_check. by destruct (RateLimiter.check _ _ _ _). Qed.

Lemma actuator_rate_record u c now : preserves (St:=St) actuator_side (rate_record u c now).
Proof. by intros b. Qed.

Lemma actuator_on_votes {A} (f : VoteManager.t → VoteManager.t * outcome A) :
  preserves (St:=St) actuator_side (on_votes f).
Proof. intros b. unfold on_votes. by destruct (f _). Qed.

Lemma actuator_queue_put item : preserves (St:=St) actuator_side (queue_put item).
Proof. intros b. unfold queue_put. by destruct (ExecutionQueue.put _ _). Qed.

Ltac fields :=
  cbn [config _running world rate_limiter vote_manager queue _banned effects].

Ltac frame :=
  repeat first
    [ apply preserves_bind; [|intros ?]
    | apply preserves_ret | apply preserves_lift | apply preserves_get_bot
    | apply actuator_emit | apply actuator_set_banned
    | apply actuator_rate_check | apply actuator_rate_record
    | apply actuator_on_votes | apply actuator_queue_put
    | match goal with
      | |- preserves _ (if ?c then _ else _) => destruct c
      | |- preserves _ (match ?x with _ => _ end) => destruct x
      end ].

Lemma actuator_handle_major_command msg cmd now :
  preserves (St:=St) actuator_side (_handle_major_command msg cmd now).
Proof. unfold _handle_major_command. frame. Qed.

Lemma actuator_handle_vote_cast msg cmd :
  preserves (St:=St) actuator_side (_handle_vote_cast msg cmd).
Proof. unfold _handle_vote_cast. frame. Qed.

Lemma actuator_handle_moderation msg cmd perm :
  preserves (St:=St) actuator_side (_handle_moderation msg cmd perm).
Proof. unfold _handle_moderation. frame. Qed.

(** X27. Handling a chat message never reaches the actuator: whatever
    the message, the clock and the state of the bot, and whether the
    handling returns or raises, the machine, the list of calls made on
    it, the configuration and the running flag are as before. *)
Theorem intake_leaves_actuator_alone msg now :
  preserves (St:=St) actuator_side (_process_message shlex_split msg now)
  ∧ preserves (St:=St) actuator_side (_chat_loop_step shlex_split msg now).
Proof.
  assert (preserves (St:=St) actuator_side (_process_message shlex_split msg now)) as H.
  { unfold _process_message. cbv zeta.
    frame; first [ apply actuator_handle_vote_cast
                 | apply actuator_handle_moderation
                 | apply actuator_handle_major_command ]. }
  split; [exact H|].
  unfold _chat_loop_step. apply preserves_try_except; [exact H|].
  intros e. apply preserves_ret.
Qed.

(** X28. A message from a banned author is shown on the overlay and its
    author registered, and that is all: the handling returns, and rate
    limiter, votes, queue and bans are as before. *)
Theorem banned_author_is_ignored (b : t St) msg now :
  author_id msg ∈ _banned b →
  let res := _process_message shlex_split msg now b in
  res.1 = Returned tt
  ∧ admission_side res.2 = admission_side b
  ∧ ∃ shown, effects res.2
             = effects b ++ AddChatMessage (author_display msg) (str_strip (text msg)) shown
                 :: (if str_startswith "!" (str_strip (text msg))
                     then [GetOrCreate (author_id msg) (author_display msg)]
                     else []).
Proof.
  intros Hban. cbv zeta. unfold _process_message.
  destruct (str_startswith "!" (str_strip (text msg))); cbn [negb].
  - unfold bind, emit, get_bot, ret. cbn.
    rewrite bool_decide_eq_true_2 by done. cbn.
    repeat split. eexists. by rewrite <- app_assoc.
  - unfold bind, emit, ret. cbn. repeat split. by eexists.
Qed.

Lemma queue_handle_major_command msg cmd now :
  preserves (St:=St) queue (_handle_major_command msg cmd now).
Proof.
  intros b. unfold _handle_major_command, bind, on_votes, emit, get_bot, ret.
  destruct (VoteManager.start_vote _ _ _ _) as [vm [[i|]|e]]; cbn; try done.
  by destruct (vote_open _).
Qed.

Lemma queue_handle_vote_cast msg cmd :
  preserves (St:=St) queue (_handle_vote_cast msg cmd).
Proof.
  intros b. unfold _handle_vote_cast.
  destruct (args cmd) as [|a0 rest]; [done|].
  destruct (negb _); [done|].
  unfold bind, on_votes, emit, get_bot, ret.
  destruct (VoteManager.cast_vote _ _ _) as [vm [[|]|e]]; cbn; try done.
  by destruct (vote_open _).
Qed.

Lemma queue_handle_moderation msg cmd perm :
  preserves (St:=St) queue (_handle_moderation msg cmd perm).
Proof.
  intros b. unfold _handle_moderation.
  destruct (_ <? _); [done|]. destruct (args cmd) as [|a0 rest]; [done|].
  unfold bind, get_bot, set_banned, emit, ret. cbn.
  by repeat case_decide.
Qed.

(** X29. Only an admitted command reaches the execution queue. If
    handling a message changes the queue, then the text parsed to a
    command, its author is not banned and holds the permission the
    registry asks for, the command is not of the Major tier, the rate
    limiter let it through, and the change is that this one command, with
    its author, was appended at the tail. *)
Theorem intake_enqueues_only_admitted (b : t St) msg now :
  let b' := (_process_message shlex_split msg now b).2 in
  ExecutionQueue._queue (queue b') ≠ ExecutionQueue._queue (queue b) →
  ∃ cmd,
    parse_command shlex_split (str_strip (text msg)) = Returned (Some cmd)
    ∧ (author_id msg ∉ _banned b)
    ∧ Permission.value (required_permission cmd)
      ≤ Permission.value (resolve_permission (config b) msg)
    ∧ tier cmd ≠ CommandTier.MAJOR
    ∧ (RateLimiter.check (rate_limiter b) now (author_id msg) (name cmd)).2.1 = true
    ∧ ExecutionQueue._queue (queue b')
      = ExecutionQueue._queue (queue b) ++ [(cmd, author_display msg, author_id msg)].
Proof.
  destruct b as [cfg run w rl vm q ban eff]. cbv zeta.
  remember (_process_message shlex_split msg now (mk cfg run w rl vm q ban eff))
    as res eqn:Hres.
  revert Hres. unfold _process_message.
  destruct (str_startswith "!" (str_strip (text msg))); cbn [negb];
    [|by intros -> []].
  unfold bind at 1. unfold emit at 1. fields.
  unfold bind at 1. unfold emit at 1. fields.
  unfold bind at 1. unfold get_bot at 1. fields.
  destruct (decide (author_id msg ∈ ban)) as [Hban|Hban].
  { rewrite bool_decide_eq_true_2 by done. by intros -> []. }
  rewrite bool_decide_eq_false_2 by done.
  unfold bind at 1. unfold lift at 1.
  destruct (parse_command shlex_split (str_strip (text msg)))
    as [[cmd|]|e] eqn:Hparse; [|by intros -> []..].
  destruct (Z.ltb_spec (Permission.value (resolve_permission cfg msg))
              (Permission.value (required_permission cmd))) as [Hperm|Hperm];
    [by intros -> []|].
  repeat (case_decide; [by intros -> []|]).
  case_decide.
  { intros -> Hq. by rewrite (queue_handle_vote_cast msg cmd) in Hq. }
  case_bool_decide.
  { intros -> Hq. by rewrite (queue_handle_moderation msg cmd) in Hq. }
  unfold bind at 1. unfold rate_check at 1. fields.
  destruct (RateLimiter.check rl now (author_id msg) (name cmd))
    as [r [allowed reason]] eqn:Hcheck.
  destruct allowed; cbn [negb].
  2:{ destruct (_ && _); [by intros -> []|]. by intros -> []. }
  case_bool_decide as Htier.
  { intros -> Hq. by rewrite (queue_handle_major_command msg cmd now) in Hq. }
  unfold bind at 1. unfold rate_record at 1. fields.
  unfold bind at 1. unfold emit at 1. fields.
  unfold bind at 1. unfold emit at 1. fields.
  unfold bind at 1. unfold emit at 1. fields.
  unfold bind at 1. unfold queue_put at 1. fields.
  destruct (put_cases q (cmd, author_display msg, author_id msg))
    as [Hput|[Hput _]]; rewrite Hput.
  - unfold ret. intros -> Hq. exists cmd. by rewrite Hcheck.
  - unfold bind at 1. unfold emit at 1. fields. unfold emit. by intros -> [].
Qed.

(** X30. The readiness gate of the execution loop: when the oldest
    queued command is outside the allow-list and the machine answers
    that it is not running, the turn asks the machine that one question
    and nothing else, takes the command off the queue and tells its
    author; the command never reaches the executor. *)
Theorem command_held_back_when_vm_down (b : t St) cmd user uid rest r s :
  ExecutionQueue._queue (queue b) = (cmd, user, uid) :: rest →
  runs_without_vm (name cmd) = false →
  vm_step rt IsRunning (vm_state (world b)) = (Returned r, s) →
  truthy r = false →
  let res := _execution_loop_turn rt b in
  res.1 = Returned tt
  ∧ calls (world res.2) = calls (world b) ++ [IsRunning]
  ∧ sleeps (world res.2) = sleeps (world b)
  ∧ ExecutionQueue._queue (queue res.2) = rest
  ∧ effects res.2
    = effects b ++ [AnnounceFor user "❌ VM is not running! Try !startvm";
                    ClearActiveCommand].
Proof.
  intros Hq Hallow Hvm Hr. cbv zeta.
  remember (_execution_loop_turn rt b) as res eqn:Hres. revert Hres.
  unfold _execution_loop_turn, try_except, _execution_loop_try.
  unfold bind at 1. unfold queue_get, ExecutionQueue.get. rewrite Hq.
  unfold bind at 1. unfold vm_ready. rewrite Hallow.
  unfold bind at 1. unfold on_world at 1, CommandExecutor.vm_call.
  fields. rewrite Hvm. unfold ret at 1. rewrite Hr. cbn [negb].
  unfold bind at 1. unfold emit at 1. fields. unfold emit. fields.
  intros ->. cbn. by rewrite <- app_assoc.
Qed.
End BotExtras.

(** X28 for the owner's "!startvm" once the owner's channel id is among
    the bans. *)
Lemma banned_author_is_ignored_witness :
  let b := (ArchChaosBot.set_banned {["UCowner"]} Scenario.bot0).2 in
  let res := ArchChaosBot._process_message Scenario.shlex_plain
               (Scenario.owner_says "!startvm") (Q2Qc 100) b in
  res.1 = Returned tt
  ∧ BotChecks.admission_side res.2 = BotChecks.admission_side b.
Proof.
  intros b.
  destruct (banned_author_is_ignored Scenario.shlex_plain b
              (Scenario.owner_says "!startvm") (Q2Qc 100)) as (H1 & H2 & _).
  - apply elem_of_singleton_2. reflexivity.
  - exact (conj H1 H2).
Defined.

(** X29 for the owner's "!startvm" on a fresh bot. *)
Lemma intake_enqueues_only_admitted_witness :
  let msg := Scenario.owner_says "!startvm" in
  let b' := (ArchChaosBot._process_message Scenario.shlex_plain msg (Q2Qc 100)
               Scenario.bot0).2 in
  ∃ cmd,
    Parser.parse_command Scenario.shlex_plain
      (str_strip (YouTubeChatClient.text msg)) = Returned (Some cmd)
    ∧ (YouTubeChatClient.author_id msg ∉ ArchChaosBot._banned Scenario.bot0)
    ∧ Permission.value (Parser.required_permission cmd)
      ≤ Permission.value
          (ArchChaosBot.resolve_permission (ArchChaosBot.config Scenario.bot0) msg)
    ∧ Parser.tier cmd ≠ CommandTier.MAJOR
    ∧ (RateLimiter.check (ArchChaosBot.rate_limiter Scenario.bot0) (Q2Qc 100)
         (YouTubeChatClient.author_id msg) (Parser.name cmd)).2.1 = true
    ∧ ExecutionQueue._queue (ArchChaosBot.queue b')
      = ExecutionQueue._queue (ArchChaosBot.queue Scenario.bot0)
        ++ [(cmd, YouTubeChatClient.author_display msg, YouTubeChatClient.author_id msg)].
Proof.
  intros msg b'.
  apply (intake_enqueues_only_admitted Scenario.shlex_plain Scenario.bot0 msg (Q2Qc 100)).
  vm_compute. discriminate.
Defined.

(** X30 for a queued "!move left" while the machine answers that it is
    not running. *)
Lemma command_held_back_when_vm_down_witness :
  let cmd := Scenario.parsed "move" ["left"] CommandTier.CLASSIC Permission.VIEWER in
  let b := ArchChaosBot.mk Config.default true Scenario.world0
             (RateLimiter.init (Q2Qc 3) (Q2Qc (1 # 2))) (VoteManager.init 20)
             (ExecutionQueue.mk 50 [(cmd, "Owner", "UCowner")] 0) ∅ [] in
  let res := ArchChaosBot._execution_loop_turn
               (Scenario.runtime (Returned (RBool false))) b in
  res.1 = Returned tt
  ∧ calls (ArchChaosBot.world res.2) = [IsRunning]
  ∧ ExecutionQueue._queue (ArchChaosBot.queue res.2) = [].
Proof.
  intros cmd b.
  destruct (command_held_back_when_vm_down
              (Scenario.runtime (Returned (RBool false))) b cmd "Owner" "UCowner" []
              (RBool false) tt) as (H1 & H2 & _ & H4 & _).
  - reflexivity.
  - reflexivity.
  - reflexivity.
  - reflexivity.
  - exact (conj H1 (conj H2 H4)).
Defined.
